(** * mailstream: the IMAP streaming client, embedded and checked

    The repository holds two editions of the [Client] class:
    - [src/client.ts] (module [ClientTs] below): keeps [numMessages] and a
      side list [mailListeners], fetches by sequence set, collects one promise
      per message and publishes after [Promise.all];
    - the edition with [seenUIDs] (module [SeenUids] below, the file whose
      [getUnseenMails] filters the search result and whose [fetchMessages]
      emits from inside the per-message [end] handler).

    The IMAP engine ([imap]) and the MIME decoder ([simpleParser]) are outside
    the repository.  The engine is modelled by the events it delivers to the
    listeners the client registers; the decoder is a fallible function taken as
    a section variable, and the moment its promise settles is an event of its
    own, so that every decode-completion order is covered.

    The subscribers are outside the repository too.  [call_all], [publish] and
    [join] take every call of a subscriber to return; the definitions named
    [..._throwing] are the same code with subscribers that may throw, and agree
    with the former when none does. *)

From Stdlib Require Import NArith List String Bool Lia.
From Stdlib Require Import Strings.Byte.
From stdpp Require Import base gmap sets list strings.

Local Open Scope N_scope.

(** ** Values shared by both editions *)

(** A Node [Buffer] is a byte sequence. *)
Definition Buffer := list byte.

Definition Buffer_concat (chunks : list Buffer) : Buffer := concat chunks.

Definition Buffer_from (s : string) : Buffer := list_byte_of_string s.

(** A JavaScript [Error] carries its message. *)
Record Error := mkError { message : string }.

(** [Date] as milliseconds since the epoch. *)
Definition Date := N.

(** mailparser's [EmailAddress] and [AddressObject]. *)
Record EmailAddress := mkEmailAddress { address : string; name : string }.

Record AddressObject := mkAddressObject { value : list EmailAddress }.

(** A header that is [undefined], one [AddressObject] or an array of them. *)
Inductive AddressField :=
| AddrUndefined
| AddrOne (o : AddressObject)
| AddrArray (os : list AddressObject).

(** The fields of mailparser's [ParsedMail] that the client reads. *)
Record ParsedMail := mkParsedMail {
  from : AddressField;
  to : AddressField;
  subject : option string;
  date : option Date;
  text : option string;
  html : option string
}.

(** [types.ts]: interface [Mail]. *)
Record Mail := mkMail {
  uid : N;
  mail_from : list EmailAddress;
  mail_to : list EmailAddress;
  mail_subject : string;
  mail_date : Date;
  plain : option Buffer;
  mail_html : option Buffer
}.

(** imap's [Box], with the fields the client reads.  [currentBox] is the
    engine's own object, not a copy: the record stands for what that object
    holds at the moment it is read, and the engine's updates of its counters
    between two operations of the client are [engine_updates_box] below. *)
Record Box := mkBox {
  box_name : string;
  total : N;
  new : N;
  unseen : N
}.

(** [extractAddresses]: [[]] for a missing header, [flatMap (obj => obj.value)]
    for an array, [value] for a single object. *)
Definition extractAddresses (addressObj : AddressField) : list EmailAddress :=
  match addressObj with
  | AddrUndefined => []
  | AddrArray os => flat_map value os
  | AddrOne o => value o
  end.

(** [x || ""] on an optional string: the empty string is falsy too. *)
Definition or_empty (s : option string) : string :=
  match s with
  | Some x => x
  | None => EmptyString
  end.

(** [uid || 0] and [parseInt(uid) || 0] on an optional identifier. *)
Definition or_zero (u : option N) : N :=
  match u with
  | Some x => x
  | None => 0
  end.

(** A promise is pending or settled; settling a settled promise does nothing. *)
Inductive Promise (A : Type) :=
| Pending
| Fulfilled (v : A)
| Rejected (e : Error).
Arguments Pending {A}.
Arguments Fulfilled {A} v.
Arguments Rejected {A} e.

Definition settle {A} (p q : Promise A) : Promise A :=
  match p with
  | Pending => q
  | _ => p
  end.

Definition is_rejected {A} (p : Promise A) : bool :=
  match p with
  | Rejected _ => true
  | _ => false
  end.

(** Subscribers are opaque callbacks; the model names them and logs each call. *)
Definition Listener := nat.

(** [EventEmitter.emit(event, mail)] / [listeners.forEach(l => l(mail))]:
    one call per registered listener, in registration order.  Every call is
    taken to return; [call_until_throw] is the same loop with subscribers that
    may throw. *)
Definition call_all (ls : list Listener) (mail : Mail) : list (Listener * Mail) :=
  map (fun l => (l, mail)) ls.

(** What a call of a subscriber does with a mail: it returns ([None]) or it
    throws. *)
Definition Behaviour := Listener -> Mail -> option Error.

Definition returns_normally : Behaviour := fun _ _ => None.

(** [emit] and [forEach] with subscribers that may throw: the listeners are
    called in registration order, and the first exception leaves the loop, so
    the listeners behind it are not called.  The calls made, and the exception
    that came out. *)
Fixpoint call_until_throw (throws : Behaviour) (ls : list Listener) (mail : Mail)
  : list (Listener * Mail) * option Error :=
  match ls with
  | [] => ([], None)
  | l :: ls' =>
      match throws l mail with
      | Some e => ([(l, mail)], Some e)
      | None =>
          let (calls, thrown) := call_until_throw throws ls' mail in
          ((l, mail) :: calls, thrown)
      end
  end.

(** How often listener [h] was called, in a call log. *)
Definition calls_of (h : Listener) (log : list (Listener * Mail)) : nat :=
  length (filter (fun c => c.1 = h) log).

(** The mails a run appended to a log of emitted mails. *)
Definition published_since (before after : list Mail) : list Mail :=
  drop (length before) after.

(** What the engine answers to [search(["UNSEEN"], cb)]: the callback with an
    error, the callback with identifiers, or no callback at all.  A [search]
    that throws inside the promise executor rejects the promise with the thrown
    error, like [SearchErr]. *)
Inductive SearchResult :=
| SearchErr (e : Error)
| SearchOk (uids : list N)
| SearchSilent.

(** What the fetch emitter, the message emitters and the decoder deliver during
    one fetch.  Messages are named by their arrival position (the n-th
    [message] event creates message n). *)
Inductive FetchEvent :=
| FetchMessage (seqno : N)
| MsgBodyData (m : nat) (which : string) (chunk : Buffer)
| MsgAttributes (m : nat) (attrs_uid : option N)
| MsgEnd (m : nat)
| ParserSettled (m : nat)
| FetchError (e : Error)
| FetchEnd.

(** One message as the engine delivers it: the identifier its [attributes]
    event carries, and its chunks, each with the part ([info.which]) of the
    body stream that carries it. *)
Record Delivery := mkDelivery {
  d_uid : option N;
  d_parts : list (string * Buffer)
}.




(** The argument of a fetch call: the identifier list of [getUnseenMails]
    ([uids] or [uids.join(",")]) or the range [`${seqStart}:${seqEnd}`]. *)
Inductive FetchRequest :=
| IdList (uids : list N)
| SeqRange (seqStart seqEnd : N).

Definition ClientNotConnected : Error := mkError "Client not connected".
Definition NoMailboxSelected : Error := mkError "No mailbox selected".

(** The [TypeError] thrown inside a promise executor that calls a method of
    [this.client] before [connect] has created it. *)
Definition undefined_client (method : string) : Error :=
  mkError ("Cannot read properties of undefined (reading '" ++ method ++ "')").

(** The object [getMailboxStatus] returns. *)
Record MailboxStatus := mkStatus {
  status_total : N;
  status_new : N;
  status_unseen : N
}.

Definition box_status (b : Box) : MailboxStatus :=
  mkStatus (total b) (new b) (unseen b).

(** ** The edition with [seenUIDs] *)

Module SeenUids.

(** One [message] event of [fetchMessages]: the closure state of its handler. *)
Record MessageState := mkMessage {
  header : list Buffer;                (* buffers.header *)
  body : list Buffer;                  (* buffers.body *)
  messageId : option N;                (* messageData.messageId *)
  attributesSeen : bool;               (* once("attributes") has run *)
  ended : option (Buffer * Buffer);    (* once("end") has run: headerBuffer, bodyBuffer *)
  resolved : bool                      (* resolveMessage() was called *)
}.

Definition newMessage : MessageState := mkMessage [] [] None false None false.

Record Client := mkClient {
  client : bool;                       (* this.client is set *)
  connectionEnded : bool;              (* this.client.end() was called *)
  currentBox : option Box;
  seenUIDs : gset N;
  listeners : list Listener;           (* the emitter's "mail" listeners *)
  fetchCalls : list FetchRequest;      (* every this.client.fetch(...) *)
  emitted : list Mail;                 (* every this.emit("mail", mail) *)
  invoked : list (Listener * Mail)     (* every call of a subscriber *)
}.

(** The closure state of one [fetchMessages] call. *)
Record Fetch := mkFetch {
  messagePromises : list MessageState;
  errorFired : bool;                   (* once("error") has run *)
  endFired : option nat;               (* once("end") has run, over that many promises *)
  promise : Promise unit
}.

Definition set_messages (ms : list MessageState) (f : Fetch) : Fetch :=
  mkFetch ms (errorFired f) (endFired f) (promise f).

Definition set_promise (p : Promise unit) (f : Fetch) : Fetch :=
  mkFetch (messagePromises f) (errorFired f) (endFired f) p.

Definition set_currentBox (b : option Box) (c : Client) : Client :=
  mkClient (client c) (connectionEnded c) b (seenUIDs c) (listeners c)
    (fetchCalls c) (emitted c) (invoked c).

(** [stream.on("data", chunk => buffers[type].push(chunk))] with
    [type = info.which === "TEXT" ? "body" : "header"]. *)
Definition on_body (which : string) (chunk : Buffer) (ms : MessageState) : MessageState :=
  if String.eqb which "TEXT"
  then mkMessage (header ms) (body ms ++ [chunk]) (messageId ms)
         (attributesSeen ms) (ended ms) (resolved ms)
  else mkMessage (header ms ++ [chunk]) (body ms) (messageId ms)
         (attributesSeen ms) (ended ms) (resolved ms).

(** [msg.once("attributes", attrs => messageData.messageId = attrs.uid)]. *)
Definition on_attributes (attrs_uid : option N) (ms : MessageState) : MessageState :=
  if attributesSeen ms then ms
  else mkMessage (header ms) (body ms) attrs_uid true (ended ms) (resolved ms).

(** [msg.once("end", ...)] up to the first [await]: both buffers are joined. *)
Definition on_end (ms : MessageState) : MessageState :=
  match ended ms with
  | Some _ => ms
  | None =>
      mkMessage (header ms) (body ms) (messageId ms) (attributesSeen ms)
        (Some (Buffer_concat (header ms), Buffer_concat (body ms))) (resolved ms)
  end.

Definition mark_resolved (ms : MessageState) : MessageState :=
  mkMessage (header ms) (body ms) (messageId ms) (attributesSeen ms) (ended ms) true.

(** [this.seenUIDs.add(mail.uid); this.emit("mail", mail)], with listeners
    that return; [publish_throwing] below is the same step with listeners that
    may throw. *)
Definition publish (mail : Mail) (c : Client) : Client :=
  mkClient (client c) (connectionEnded c) (currentBox c)
    ({[uid mail]} ∪ seenUIDs c) (listeners c) (fetchCalls c)
    (emitted c ++ [mail]) (invoked c ++ call_all (listeners c) mail).

(** The inherited [on("mail", listener)]. *)
Definition on (h : Listener) (c : Client) : Client :=
  mkClient (client c) (connectionEnded c) (currentBox c) (seenUIDs c)
    (listeners c ++ [h]) (fetchCalls c) (emitted c) (invoked c).

Section Decoder.

Variable simpleParser : Buffer -> Error + ParsedMail.
Variable now : Date.

(** The [Mail] literal of [fetchMessages]. *)
Definition buildMail (messageId : option N) (parsedHeader parsedBody : ParsedMail) : Mail :=
  mkMail (or_zero messageId)
    (extractAddresses
       (match from parsedHeader with AddrUndefined => AddrArray [] | a => a end))
    (extractAddresses (to parsedHeader))
    (or_empty (subject parsedHeader))
    (match date parsedHeader with Some d => d | None => now end)
    (Some (Buffer_from (or_empty (text parsedBody))))
    (Some (Buffer_from (or_empty (html parsedBody)))).

(** The two awaited [simpleParser] calls; the first failure is the one thrown. *)
Definition decode (headerBuffer bodyBuffer : Buffer) : Error + (ParsedMail * ParsedMail) :=
  match simpleParser headerBuffer with
  | inl e => inl e
  | inr parsedHeader =>
      match simpleParser bodyBuffer with
      | inl e => inl e
      | inr parsedBody => inr (parsedHeader, parsedBody)
      end
  end.

(** The rest of the [end] handler of message [m], run when its decoding has
    settled: publish and resolve, or (the [catch]) only resolve. *)
Definition after_parse (m : nat) (c : Client) (f : Fetch) : Client * Fetch :=
  match messagePromises f !! m with
  | None => (c, f)
  | Some ms =>
      if resolved ms then (c, f)
      else
        match ended ms with
        | None => (c, f)
        | Some (headerBuffer, bodyBuffer) =>
            let f' := set_messages (<[m := mark_resolved ms]> (messagePromises f)) f in
            match decode headerBuffer bodyBuffer with
            | inr (parsedHeader, parsedBody) =>
                (publish (buildMail (messageId ms) parsedHeader parsedBody) c, f')
            | inl _ => (c, f')
            end
        end
  end.

(** [await Promise.all(messagePromises); resolve()] of the fetch [end]
    handler: it goes on once every promise of the array it was given has
    resolved (none of them can reject). *)
Definition join (f : Fetch) : Fetch :=
  match endFired f with
  | None => f
  | Some k =>
      if forallb resolved (take k (messagePromises f))
      then set_promise (settle (promise f) (Fulfilled tt)) f
      else f
  end.

Definition step (s : Client * Fetch) (ev : FetchEvent) : Client * Fetch :=
  let (c, f) := s in
  match ev with
  | FetchMessage _ => (c, set_messages (messagePromises f ++ [newMessage]) f)
  | MsgBodyData m which chunk =>
      (c, set_messages (alter (on_body which chunk) m (messagePromises f)) f)
  | MsgAttributes m attrs_uid =>
      (c, set_messages (alter (on_attributes attrs_uid) m (messagePromises f)) f)
  | MsgEnd m => (c, set_messages (alter on_end m (messagePromises f)) f)
  | ParserSettled m => let (c', f') := after_parse m c f in (c', join f')
  | FetchError e =>
      if errorFired f then (c, f)
      else (c, mkFetch (messagePromises f) true (endFired f)
                 (settle (promise f) (Rejected e)))
  | FetchEnd =>
      match endFired f with
      | Some _ => (c, f)
      | None =>
          (c, join (mkFetch (messagePromises f) (errorFired f)
                      (Some (length (messagePromises f))) (promise f)))
      end
  end.

Definition run (s : Client * Fetch) (t : list FetchEvent) : Client * Fetch :=
  fold_left step t s.

(** [fetchMessages(uids)]: the fetch call, then whatever the engine delivers. *)
Definition fetchMessages (c : Client) (uids : list N) (t : list FetchEvent)
  : Client * Promise unit :=
  let c0 := mkClient (client c) (connectionEnded c) (currentBox c) (seenUIDs c)
              (listeners c) (fetchCalls c ++ [IdList uids]) (emitted c) (invoked c) in
  let (c', f) := run (c0, mkFetch [] false None Pending) t in
  (c', promise f).

(** [uids.filter((uid) => !this.seenUIDs.has(uid))]. *)
Definition newUIDs (c : Client) (uids : list N) : list N :=
  filter (fun uid => uid ∉ seenUIDs c) uids.

Definition getUnseenMails (c : Client) (sr : SearchResult) (t : list FetchEvent)
  : Client * Promise unit :=
  if negb (client c) then (c, Rejected ClientNotConnected)
  else
    match currentBox c with
    | None => (c, Rejected NoMailboxSelected)
    | Some _ =>
        match sr with
        | SearchSilent => (c, Pending)
        | SearchErr e => (c, Rejected e)
        | SearchOk [] => (c, Fulfilled tt)
        | SearchOk uids =>
            match newUIDs c uids with
            | [] => (c, Fulfilled tt)
            | fresh => fetchMessages c fresh t
            end
        end
  end.

(** [fetchNewMails]: [getUnseenMails] with its rejection caught and logged. *)
Definition fetchNewMails (c : Client) (sr : SearchResult) (t : list FetchEvent)
  : Client * Promise unit :=
  let (c', p) := getUnseenMails c sr t in
  (c', match p with Rejected _ => Fulfilled tt | _ => p end).

(** The engine's [mail] event: the handler adds [numNew] to the counters it
    finds in [currentBox], then [fetchNewMails] runs.  What the engine itself
    wrote into that object before it fired the event is [engine_updates_box],
    ahead of this handler. *)
Definition on_mail (numNew : N) (c : Client) (sr : SearchResult) (t : list FetchEvent)
  : Client * Promise unit :=
  let c1 :=
    match currentBox c with
    | Some b =>
        set_currentBox
          (Some (mkBox (box_name b) (total b + numNew) (new b + numNew) (unseen b))) c
    | None => c
    end in
  fetchNewMails c1 sr t.

End Decoder.

(** [close()]: [this.client.end()] and resolve.  No field the client reads
    changes; [connectionEnded] only records that the call was made. *)
Definition close (c : Client) : Client * Promise unit :=
  if negb (client c) then (c, Rejected (undefined_client "end"))
  else
    (mkClient (client c) true (currentBox c) (seenUIDs c) (listeners c)
       (fetchCalls c) (emitted c) (invoked c), Fulfilled tt).

(** [switchMailbox(name)]: no guard; [openBox] answers with an error, with a
    box, or not at all. *)
Definition switchMailbox (c : Client) (reply : option (Error + Box))
  : Client * Promise Box :=
  if negb (client c) then (c, Rejected (undefined_client "openBox"))
  else
    match reply with
    | None => (c, Pending)
    | Some (inl err) => (c, Rejected err)
    | Some (inr box) => (set_currentBox (Some box) c, Fulfilled box)
    end.

Definition getCurrentBox (c : Client) : option Box := currentBox c.

(** [getMailboxStatus()]: [null] without a mailbox, else its three counters. *)
Definition getMailboxStatus (c : Client) : option MailboxStatus :=
  match currentBox c with
  | None => None
  | Some b => Some (box_status b)
  end.

(** The chunks of one message, each with the part ([info.which]) of the body
    stream that carries it, in the order the [data] events fire. *)
Definition deliver (parts : list (string * Buffer)) (ms : MessageState) : MessageState :=
  fold_left (fun ms part => on_body part.1 part.2 ms) parts ms.

(** The engine writing new figures into the [Box] object it shares with the
    client; without a selected mailbox the client holds no such object. *)
Definition engine_updates_box (b : Box) (c : Client) : Client :=
  match currentBox c with
  | Some _ => set_currentBox (Some b) c
  | None => c
  end.

(** [publish] with listeners that may throw: the identifier is recorded before
    [emit] is called, and [emit] stops at the first listener that throws. *)
Definition publish_throwing (throws : Behaviour) (mail : Mail) (c : Client) : Client :=
  mkClient (client c) (connectionEnded c) (currentBox c)
    ({[uid mail]} ∪ seenUIDs c) (listeners c) (fetchCalls c)
    (emitted c ++ [mail]) (invoked c ++ (call_until_throw throws (listeners c) mail).1).

(** [after_parse] with listeners that may throw: an exception out of [emit]
    lands in the same [catch] as a decoding failure, which calls
    [resolveMessage()] too. *)
Definition after_parse_throwing (simpleParser : Buffer -> Error + ParsedMail) (now : Date)
    (throws : Behaviour) (m : nat) (c : Client) (f : Fetch) : Client * Fetch :=
  match messagePromises f !! m with
  | None => (c, f)
  | Some ms =>
      if resolved ms then (c, f)
      else
        match ended ms with
        | None => (c, f)
        | Some (headerBuffer, bodyBuffer) =>
            let f' := set_messages (<[m := mark_resolved ms]> (messagePromises f)) f in
            match decode simpleParser headerBuffer bodyBuffer with
            | inr (parsedHeader, parsedBody) =>
                (publish_throwing throws
                   (buildMail now (messageId ms) parsedHeader parsedBody) c, f')
            | inl _ => (c, f')
            end
        end
  end.

(** The events of a fetch with listeners that may throw: only the step at
    which a decoding settles calls listeners. *)
Definition step_throwing (simpleParser : Buffer -> Error + ParsedMail) (now : Date)
    (throws : Behaviour) (s : Client * Fetch) (ev : FetchEvent) : Client * Fetch :=
  match ev with
  | ParserSettled m =>
      let (c', f') := after_parse_throwing simpleParser now throws m s.1 s.2 in
      (c', join f')
  | _ => step simpleParser now s ev
  end.

Definition run_throwing (simpleParser : Buffer -> Error + ParsedMail) (now : Date)
    (throws : Behaviour) (s : Client * Fetch) (t : list FetchEvent) : Client * Fetch :=
  fold_left (step_throwing simpleParser now throws) t s.

(** The closure state of a message whose events have all fired, in the order
    of [arrive]. *)
Definition loaded (d : Delivery) : MessageState :=
  on_end (on_attributes (d_uid d) (deliver (d_parts d) newMessage)).





(** What a caller does with a client, one call after the other: subscribe,
    scan, receive the engine's [mail] event, switch mailbox, close.  Each scan
    comes with the engine's answer to its search and the events of its fetch. *)
Inductive Operation :=
| Subscribe (h : Listener)
| Scan (sr : SearchResult) (t : list FetchEvent)
| MailEvent (numNew : N) (sr : SearchResult) (t : list FetchEvent)
| Switch (reply : option (Error + Box))
| Close.

Definition perform (simpleParser : Buffer -> Error + ParsedMail) (now : Date)
    (c : Client) (op : Operation) : Client :=
  match op with
  | Subscribe h => on h c
  | Scan sr t => (getUnseenMails simpleParser now c sr t).1
  | MailEvent numNew sr t => (on_mail simpleParser now numNew c sr t).1
  | Switch reply => (switchMailbox c reply).1
  | Close => (close c).1
  end.

Definition session (simpleParser : Buffer -> Error + ParsedMail) (now : Date)
    (c : Client) (ops : list Operation) : Client :=
  fold_left (perform simpleParser now) ops c.

End SeenUids.

(** ** [src/client.ts] *)

Module ClientTs.

(** [types.ts]: the part of [Config] the client's control flow reads. *)
Record Config := mkConfig {
  host : string;
  port : N;
  email : string;
  password : string;
  mailbox : option string
}.

(** One [processSingleMessage(msg)] call: its closure state and its promise. *)
Record MessageState := mkMessage {
  chunks : list Buffer;
  msg_uid : option N;                  (* let uid: number | undefined *)
  attributesSeen : bool;               (* once("attributes") has run *)
  ended : option Buffer;               (* once("end") has run: fullMessage *)
  result : Promise Mail
}.

(** [processSingleMessage(msg)]: the handlers are registered and the promise
    is handed back pending; the handlers themselves follow. *)
Definition processSingleMessage : MessageState := mkMessage [] None false None Pending.

Record Client := mkClient {
  client : bool;                       (* this.client is set *)
  connectionEnded : bool;              (* this.client.end() was called *)
  currentBox : option Box;
  numMessages : N;
  emitterListeners : list Listener;    (* super.on("mail", listener) *)
  mailListeners : list Listener;       (* this.mailListeners *)
  fetchCalls : list FetchRequest;      (* every this.client.seq.fetch(...) *)
  emitted : list Mail;                 (* every this.emit("mail", mail) *)
  invoked : list (Listener * Mail)     (* every call of a subscriber *)
}.

(** Which method started the fetch: only [fetchNewMessages] moves the baseline. *)
Inductive Trigger :=
| Unseen
| NewMessages (numNew : N).

(** The closure state of the promise executor around one [seq.fetch]. *)
Record Fetch := mkFetch {
  messagePromises : list MessageState;
  errorFired : bool;                   (* once("error") has run *)
  endFired : option nat;               (* once("end") has run, over that many promises *)
  joined : bool;                       (* the await in the end handler has returned or thrown *)
  promise : Promise unit
}.

Definition set_messages (ms : list MessageState) (f : Fetch) : Fetch :=
  mkFetch ms (errorFired f) (endFired f) (joined f) (promise f).

(** [stream.on("data", chunk => chunks.push(chunk))], whatever the part. *)
Definition on_body (chunk : Buffer) (ms : MessageState) : MessageState :=
  mkMessage (chunks ms ++ [chunk]) (msg_uid ms) (attributesSeen ms) (ended ms) (result ms).

(** [msg.once("attributes", attrs => uid = attrs.uid)]. *)
Definition on_attributes (attrs_uid : option N) (ms : MessageState) : MessageState :=
  if attributesSeen ms then ms
  else mkMessage (chunks ms) attrs_uid true (ended ms) (result ms).

(** [msg.once("end", ...)] up to the [await]: [Buffer.concat(chunks)]. *)
Definition on_end (ms : MessageState) : MessageState :=
  match ended ms with
  | Some _ => ms
  | None =>
      mkMessage (chunks ms) (msg_uid ms) (attributesSeen ms)
        (Some (Buffer_concat (chunks ms))) (result ms)
  end.

Definition set_result (r : Promise Mail) (ms : MessageState) : MessageState :=
  mkMessage (chunks ms) (msg_uid ms) (attributesSeen ms) (ended ms) r.

(** [this.emit("mail", mail); this.mailListeners.forEach(l => l(mail))],
    with subscribers that return. *)
Definition publish (c : Client) (mail : Mail) : Client :=
  mkClient (client c) (connectionEnded c) (currentBox c) (numMessages c)
    (emitterListeners c) (mailListeners c) (fetchCalls c)
    (emitted c ++ [mail])
    (invoked c ++ call_all (emitterListeners c) mail ++ call_all (mailListeners c) mail).

(** [mails.forEach(...)]. *)
Definition publish_all (mails : list Mail) (c : Client) : Client :=
  fold_left publish mails c.

(** [on("mail", listener)]: [super.on] and [mailListeners.push]. *)
Definition on (h : Listener) (c : Client) : Client :=
  mkClient (client c) (connectionEnded c) (currentBox c) (numMessages c)
    (emitterListeners c ++ [h]) (mailListeners c ++ [h]) (fetchCalls c)
    (emitted c) (invoked c).

(** [indexOf] then [splice(index, 1)]: the first occurrence goes. *)
Fixpoint remove_first (h : Listener) (ls : list Listener) : list Listener :=
  match ls with
  | [] => []
  | l :: ls' => if Nat.eqb l h then ls' else l :: remove_first h ls'
  end.

(** [removeMailListener]: only the side list is touched. *)
Definition removeMailListener (h : Listener) (c : Client) : Client :=
  mkClient (client c) (connectionEnded c) (currentBox c) (numMessages c)
    (emitterListeners c) (remove_first h (mailListeners c)) (fetchCalls c)
    (emitted c) (invoked c).

(** [this.numMessages += numNew], in [fetchNewMessages] only. *)
Definition advance (tr : Trigger) (c : Client) : Client :=
  match tr with
  | Unseen => c
  | NewMessages numNew =>
      mkClient (client c) (connectionEnded c) (currentBox c) (numMessages c + numNew)
        (emitterListeners c) (mailListeners c) (fetchCalls c) (emitted c) (invoked c)
  end.

(** [Promise.all]: the first rejected promise of the array decides ... *)
Fixpoint first_rejected (ps : list MessageState) : option Error :=
  match ps with
  | [] => None
  | p :: ps' =>
      match result p with
      | Rejected e => Some e
      | _ => first_rejected ps'
      end
  end.

(** ... and otherwise the values, in array order, once all are there. *)
Fixpoint all_fulfilled (ps : list MessageState) : option (list Mail) :=
  match ps with
  | [] => Some []
  | p :: ps' =>
      match result p with
      | Fulfilled mail =>
          match all_fulfilled ps' with
          | Some mails => Some (mail :: mails)
          | None => None
          end
      | _ => None
      end
  end.

Section Decoder.

Variable simpleParser : Buffer -> Error + ParsedMail.
Variable now : Date.

(** The [Mail] literal of [processSingleMessage]. *)
Definition buildMail (uid : option N) (parsed : ParsedMail) : Mail :=
  mkMail (or_zero uid)
    (extractAddresses (from parsed))
    (extractAddresses (to parsed))
    (or_empty (subject parsed))
    (match date parsed with Some d => d | None => now end)
    (Some (Buffer_from (or_empty (text parsed))))
    (match html parsed with
     | Some s => if String.eqb s "" then None else Some (Buffer_from s)
     | None => None
     end).

(** The rest of the [end] handler of message [m], run when [simpleParser] has
    settled: [resolve(mail)], or (the [catch]) [reject(error)]. *)
Definition after_parse (m : nat) (f : Fetch) : Fetch :=
  match messagePromises f !! m with
  | None => f
  | Some ms =>
      match ended ms, result ms with
      | Some fullMessage, Pending =>
          let r :=
            match simpleParser fullMessage with
            | inr parsed => Fulfilled (buildMail (msg_uid ms) parsed)
            | inl error => Rejected error
            end in
          set_messages (<[m := set_result r ms]> (messagePromises f)) f
      | _, _ => f
      end
  end.

(** The body of the fetch [end] handler after
    [await Promise.all(messagePromises)]: publish every mail in array order,
    move the baseline, resolve; or, in the [catch], reject.  The subscribers
    are taken to return; [join_throwing] below is the same handler with
    subscribers that may throw into the [catch]. *)
Definition join (tr : Trigger) (c : Client) (f : Fetch) : Client * Fetch :=
  match endFired f with
  | None => (c, f)
  | Some k =>
      if joined f then (c, f)
      else
        let ps := take k (messagePromises f) in
        match first_rejected ps with
        | Some error =>
            (c, mkFetch (messagePromises f) (errorFired f) (endFired f) true
                  (settle (promise f) (Rejected error)))
        | None =>
            match all_fulfilled ps with
            | Some mails =>
                (advance tr (publish_all mails c),
                 mkFetch (messagePromises f) (errorFired f) (endFired f) true
                   (settle (promise f) (Fulfilled tt)))
            | None => (c, f)
            end
        end
  end.

Definition step (tr : Trigger) (s : Client * Fetch) (ev : FetchEvent) : Client * Fetch :=
  let (c, f) := s in
  match ev with
  | FetchMessage _ => (c, set_messages (messagePromises f ++ [processSingleMessage]) f)
  | MsgBodyData m _ chunk =>
      (c, set_messages (alter (on_body chunk) m (messagePromises f)) f)
  | MsgAttributes m attrs_uid =>
      (c, set_messages (alter (on_attributes attrs_uid) m (messagePromises f)) f)
  | MsgEnd m => (c, set_messages (alter on_end m (messagePromises f)) f)
  | ParserSettled m => join tr c (after_parse m f)
  | FetchError e =>
      if errorFired f then (c, f)
      else (c, mkFetch (messagePromises f) true (endFired f) (joined f)
                 (settle (promise f) (Rejected e)))
  | FetchEnd =>
      match endFired f with
      | Some _ => (c, f)
      | None =>
          join tr c (mkFetch (messagePromises f) (errorFired f)
                       (Some (length (messagePromises f))) (joined f) (promise f))
      end
  end.

Definition run (tr : Trigger) (s : Client * Fetch) (t : list FetchEvent) : Client * Fetch :=
  fold_left (step tr) t s.

(** [this.client.seq.fetch(request, ...)], then whatever the engine delivers. *)
Definition fetch (tr : Trigger) (c : Client) (request : FetchRequest) (t : list FetchEvent)
  : Client * Promise unit :=
  let c0 := mkClient (client c) (connectionEnded c) (currentBox c) (numMessages c)
              (emitterListeners c) (mailListeners c) (fetchCalls c ++ [request])
              (emitted c) (invoked c) in
  let (c', f) := run tr (c0, mkFetch [] false None false Pending) t in
  (c', promise f).

Definition getUnseenMails (c : Client) (sr : SearchResult) (t : list FetchEvent)
  : Client * Promise unit :=
  if negb (client c) then (c, Rejected ClientNotConnected)
  else
    match sr with
    | SearchSilent => (c, Pending)
    | SearchErr e => (c, Rejected e)
    | SearchOk [] => (c, Fulfilled tt)
    | SearchOk uids => fetch Unseen c (IdList uids) t
    end.

(** [fetchNewMessages(numNew)]: the range starts one past the baseline. *)
Definition fetchNewMessages (c : Client) (numNew : N) (t : list FetchEvent)
  : Client * Promise unit :=
  if negb (client c) then (c, Fulfilled tt)
  else
    let seqStart := numMessages c + 1 in
    let seqEnd := numMessages c + numNew in
    fetch (NewMessages numNew) c (SeqRange seqStart seqEnd) t.

(** The listener [setupListeners] installs for the engine's [mail] event. *)
Definition on_mail (numNew : N) (c : Client) (t : list FetchEvent)
  : Client * Promise unit :=
  fetchNewMessages c numNew t.

End Decoder.

(** [close()]: [this.client.end()] and resolve.  No field the client reads
    changes; [connectionEnded] only records that the call was made. *)
Definition close (c : Client) : Client * Promise unit :=
  if negb (client c) then (c, Rejected (undefined_client "end"))
  else
    (mkClient (client c) true (currentBox c) (numMessages c) (emitterListeners c)
       (mailListeners c) (fetchCalls c) (emitted c) (invoked c), Fulfilled tt).

(** [switchMailbox(name)]: no guard; [openBox] answers with an error, with a
    box, or not at all. *)
Definition switchMailbox (c : Client) (reply : option (Error + Box))
  : Client * Promise Box :=
  if negb (client c) then (c, Rejected (undefined_client "openBox"))
  else
    match reply with
    | None => (c, Pending)
    | Some (inl err) => (c, Rejected err)
    | Some (inr box) =>
        (mkClient (client c) (connectionEnded c) (Some box) (numMessages c)
           (emitterListeners c) (mailListeners c) (fetchCalls c) (emitted c) (invoked c),
         Fulfilled box)
    end.

(** *** [connect] and [create] *)

(** What the connection delivers while [connect] waits. *)
Inductive ConnEvent :=
| ConnError (e : Error)
| ConnReady
| OpenBoxReply (r : Error + Box).

Record Connecting := mkConnecting {
  self : Client;
  errorListener : bool;                (* once("error", errorHandler) is registered *)
  readyListener : bool;                (* once("ready", ...) is registered *)
  openBoxPending : option string;      (* openBox(name, false, cb) awaits its callback *)
  pushListener : bool;                 (* setupListeners() has run *)
  unhandled : list Error;              (* "error" events with no listener left *)
  outcome : Promise unit
}.

(** [new Client(config)]: no connection object yet. *)
Definition new_Client : Client := mkClient false false None 0 [] [] [] [] [].

(** The mailbox name after [this.config.mailbox = config.mailbox || "INBOX"]. *)
Definition mailbox_name (config : Config) : string :=
  match mailbox config with
  | Some s => if String.eqb s "" then "INBOX"%string else s
  | None => "INBOX"%string
  end.

(** The promise executor of [connect]: create the engine, register both
    listeners, call [this.client.connect()], which may throw. *)
Definition connect_start (connectThrows : option Error) : Connecting :=
  let c := mkClient true false None 0 [] [] [] [] [] in
  mkConnecting c true true None false []
    (match connectThrows with
     | Some err => Rejected err
     | None => Pending
     end).

Definition connect_step (config : Config) (s : Connecting) (ev : ConnEvent) : Connecting :=
  match ev with
  | ConnError err =>
      if errorListener s
      then mkConnecting (self s) false (readyListener s) (openBoxPending s)
             (pushListener s) (unhandled s) (settle (outcome s) (Rejected err))
      else mkConnecting (self s) false (readyListener s) (openBoxPending s)
             (pushListener s) (unhandled s ++ [err]) (outcome s)
  | ConnReady =>
      if readyListener s
      then mkConnecting (self s) false false (Some (mailbox_name config))
             (pushListener s) (unhandled s) (outcome s)
      else s
  | OpenBoxReply r =>
      match openBoxPending s with
      | None => s
      | Some _ =>
          match r with
          | inl err =>
              mkConnecting (self s) (errorListener s) (readyListener s) None
                (pushListener s) (unhandled s) (settle (outcome s) (Rejected err))
          | inr box =>
              let c := self s in
              mkConnecting
                (mkClient (client c) (connectionEnded c) (Some box) (total box)
                   (emitterListeners c) (mailListeners c) (fetchCalls c)
                   (emitted c) (invoked c))
                (errorListener s) (readyListener s) None true (unhandled s)
                (settle (outcome s) (Fulfilled tt))
          end
      end
  end.

Definition connect (config : Config) (connectThrows : option Error) (t : list ConnEvent)
  : Connecting :=
  fold_left (connect_step config) t (connect_start connectThrows).

(** [create(config)]: [await client.connect(); return client]. *)
Definition create (config : Config) (connectThrows : option Error) (t : list ConnEvent)
  : Promise Client :=
  let s := connect config connectThrows t in
  match outcome s with
  | Pending => Pending
  | Fulfilled _ => Fulfilled (self s)
  | Rejected err => Rejected err
  end.

Definition getCurrentBox (c : Client) : option Box := currentBox c.

(** [getMailboxStatus()]: [null] without a mailbox, else its three counters. *)
Definition getMailboxStatus (c : Client) : option MailboxStatus :=
  match currentBox c with
  | None => None
  | Some b => Some (box_status b)
  end.

(** The chunks of one message in the order the [data] events fire, whatever
    body stream carries them. *)
Definition deliver (parts : list (string * Buffer)) (ms : MessageState) : MessageState :=
  fold_left (fun ms part => on_body part.2 ms) parts ms.

(** [this.emit("mail", mail)] was called, and these calls of subscribers were
    made. *)
Definition log_calls (mail : Mail) (calls : list (Listener * Mail)) (c : Client) : Client :=
  mkClient (client c) (connectionEnded c) (currentBox c) (numMessages c)
    (emitterListeners c) (mailListeners c) (fetchCalls c)
    (emitted c ++ [mail]) (invoked c ++ calls).

(** [mails.forEach(...)] with subscribers that may throw: an exception out of
    [emit] or out of a listener of [mailListeners] leaves both loops. *)
Fixpoint publish_all_throwing (throws : Behaviour) (mails : list Mail) (c : Client)
  : Client * option Error :=
  match mails with
  | [] => (c, None)
  | mail :: rest =>
      match call_until_throw throws (emitterListeners c) mail with
      | (calls, Some error) => (log_calls mail calls c, Some error)
      | (calls, None) =>
          match call_until_throw throws (mailListeners c) mail with
          | (calls', Some error) => (log_calls mail (calls ++ calls') c, Some error)
          | (calls', None) =>
              publish_all_throwing throws rest (log_calls mail (calls ++ calls') c)
          end
      end
  end.

(** [join] with subscribers that may throw: the exception is caught by the
    [catch] of the [end] handler, which rejects; the baseline is not moved. *)
Definition join_throwing (throws : Behaviour) (tr : Trigger) (c : Client) (f : Fetch)
  : Client * Fetch :=
  match endFired f with
  | None => (c, f)
  | Some k =>
      if joined f then (c, f)
      else
        let ps := take k (messagePromises f) in
        match first_rejected ps with
        | Some error =>
            (c, mkFetch (messagePromises f) (errorFired f) (endFired f) true
                  (settle (promise f) (Rejected error)))
        | None =>
            match all_fulfilled ps with
            | Some mails =>
                match publish_all_throwing throws mails c with
                | (c', None) =>
                    (advance tr c',
                     mkFetch (messagePromises f) (errorFired f) (endFired f) true
                       (settle (promise f) (Fulfilled tt)))
                | (c', Some error) =>
                    (c',
                     mkFetch (messagePromises f) (errorFired f) (endFired f) true
                       (settle (promise f) (Rejected error)))
                end
            | None => (c, f)
            end
        end
  end.

(** The events of a fetch with subscribers that may throw: only the [end]
    handler, once its [await] goes on, calls subscribers. *)
Definition step_throwing (simpleParser : Buffer -> Error + ParsedMail) (now : Date)
    (throws : Behaviour) (tr : Trigger) (s : Client * Fetch) (ev : FetchEvent)
  : Client * Fetch :=
  match ev with
  | ParserSettled m => join_throwing throws tr s.1 (after_parse simpleParser now m s.2)
  | FetchEnd =>
      match endFired s.2 with
      | Some _ => s
      | None =>
          join_throwing throws tr s.1
            (mkFetch (messagePromises s.2) (errorFired s.2)
               (Some (length (messagePromises s.2))) (joined s.2) (promise s.2))
      end
  | _ => step simpleParser now tr s ev
  end.

Definition run_throwing (simpleParser : Buffer -> Error + ParsedMail) (now : Date)
    (throws : Behaviour) (tr : Trigger) (s : Client * Fetch) (t : list FetchEvent)
  : Client * Fetch :=
  fold_left (step_throwing simpleParser now throws tr) t s.

(** The closure state of a message whose events have all fired, in the order
    of [arrive]. *)
Definition loaded (d : Delivery) : MessageState :=
  on_end (on_attributes (d_uid d) (deliver (d_parts d) processSingleMessage)).


(** What a caller does with a client, one call after the other. *)
Inductive Operation :=
| Subscribe (h : Listener)
| Unsubscribe (h : Listener)
| Scan (sr : SearchResult) (t : list FetchEvent)
| MailEvent (numNew : N) (t : list FetchEvent)
| Switch (reply : option (Error + Box))
| Close.

Definition perform (simpleParser : Buffer -> Error + ParsedMail) (now : Date)
    (c : Client) (op : Operation) : Client :=
  match op with
  | Subscribe h => on h c
  | Unsubscribe h => removeMailListener h c
  | Scan sr t => (getUnseenMails simpleParser now c sr t).1
  | MailEvent numNew t => (on_mail simpleParser now numNew c t).1
  | Switch reply => (switchMailbox c reply).1
  | Close => (close c).1
  end.

Definition session (simpleParser : Buffer -> Error + ParsedMail) (now : Date)
    (c : Client) (ops : list Operation) : Client :=
  fold_left (perform simpleParser now) ops c.

End ClientTs.

(** ** [context.ts] *)

Module Context.

(** The values a context record ([Record<string, any>]) may hold, as far as
    [||] tells them apart: [null], booleans, numbers, strings, and objects,
    of which only clients are named. *)
Inductive JsValue :=
| JsNull
| JsBool (b : bool)
| JsNumber (n : Z)
| JsString (s : string)
| JsClient (c : ClientTs.Client).

(** JavaScript truthiness: [null], [false], [0] and [""] are falsy. *)
Definition truthy (v : JsValue) : bool :=
  match v with
  | JsNull => false
  | JsBool b => b
  | JsNumber n => negb (Z.eqb n 0)
  | JsString s => negb (String.eqb s "")
  | JsClient _ => true
  end.

Definition MAILSTREAM_KEY : string := "mailstream".

(** [{ ...ctx, [MAILSTREAM_KEY]: client }]: a new record, [ctx] is not touched. *)
Definition withContext (ctx : gmap string JsValue) (client : ClientTs.Client)
  : gmap string JsValue :=
  <[MAILSTREAM_KEY := JsClient client]> ctx.

(** [ctx[MAILSTREAM_KEY] || null]. *)
Definition fromContext (ctx : gmap string JsValue) : JsValue :=
  match ctx !! MAILSTREAM_KEY with
  | Some v => if truthy v then v else JsNull
  | None => JsNull
  end.

End Context.

(** ** [examples/monitor.ts] *)

Module Monitor.

(** [EmailMonitor]: the client once [start] has created it, and whether the
    interval timer is armed. *)
Record EmailMonitor := mkMonitor {
  client : option ClientTs.Client;
  checkInterval : bool
}.

Definition new_EmailMonitor : EmailMonitor := mkMonitor None false.

Section Decoder.

Variable simpleParser : Buffer -> Error + ParsedMail.
Variable now : Date.

(** [start()]: create the client, subscribe [handleNewEmail], scan once, and
    only then arm the timer.  Each [await] that rejects ends [start] there. *)
Definition start (config : ClientTs.Config) (handleNewEmail : Listener)
    (connection : list ClientTs.ConnEvent) (sr : SearchResult) (t : list FetchEvent)
  : EmailMonitor * Promise unit :=
  match ClientTs.create config None connection with
  | Pending => (new_EmailMonitor, Pending)
  | Rejected err => (new_EmailMonitor, Rejected err)
  | Fulfilled c =>
      let (c', p) :=
        ClientTs.getUnseenMails simpleParser now (ClientTs.on handleNewEmail c) sr t in
      match p with
      | Fulfilled _ => (mkMonitor (Some c') true, Fulfilled tt)
      | _ => (mkMonitor (Some c') false, p)
      end
  end.

(** One firing of the interval: another scan, if the timer is armed.  The
    scans of successive firings are taken one after the other. *)
Definition tick (m : EmailMonitor) (poll : SearchResult * list FetchEvent)
  : EmailMonitor :=
  match client m, checkInterval m with
  | Some c, true =>
      mkMonitor (Some (ClientTs.getUnseenMails simpleParser now c poll.1 poll.2).1) true
  | _, _ => m
  end.

Definition ticks (m : EmailMonitor) (polls : list (SearchResult * list FetchEvent))
  : EmailMonitor :=
  fold_left tick polls m.

End Decoder.

(** With [h] as the only subscriber, registered through [on], the call log is
    the emitted mails, each twice. *)
Definition each_twice (h : Listener) (c : ClientTs.Client) : Prop :=
  ClientTs.client c = true
  /\ ClientTs.emitterListeners c = [h]
  /\ ClientTs.mailListeners c = [h]
  /\ ClientTs.invoked c
     = flat_map (fun mail => [(h, mail); (h, mail)]) (ClientTs.emitted c).

(** [stop()]: clear the timer, close the client. *)
Definition stop (m : EmailMonitor) : EmailMonitor :=
  mkMonitor
    (match client m with
     | Some c => Some (ClientTs.close c).1
     | None => None
     end)
    false.

End Monitor.

(** ** Concrete runs

    A small decoder and the event sequence of the repository's own tests
    ([message], the two body parts, [attributes], [end], per message), used to
    evaluate both editions on explicit inputs. *)

Module Scenario.

(** A decoder that rejects an empty input and otherwise reports the input as
    the subject. *)
Definition parser (b : Buffer) : Error + ParsedMail :=
  match b with
  | [] => inl (mkError "empty input")
  | _ =>
      inr (mkParsedMail AddrUndefined AddrUndefined
             (Some (string_of_list_byte b)) None None None)
  end.

Definition clock : Date := 0.

(** Message [m] arrives whole, with identifier [u]. *)
Definition arrival (m : nat) (u : N) (hdr bdy : string) : list FetchEvent :=
  [FetchMessage (N.of_nat m + 1);
   MsgBodyData m "HEADER.FIELDS (FROM TO SUBJECT DATE)" (Buffer_from hdr);
   MsgBodyData m "TEXT" (Buffer_from bdy);
   MsgAttributes m (Some u);
   MsgEnd m].

(** Message [m] arrives with identifier [u] and no bytes at all. *)
Definition arrival_empty (m : nat) (u : N) : list FetchEvent :=
  [FetchMessage (N.of_nat m + 1); MsgAttributes m (Some u); MsgEnd m].

Definition inbox : Box := mkBox "INBOX" 100 10 5.

Definition archive : Box := mkBox "Archive" 7 0 0.

Definition config : ClientTs.Config :=
  ClientTs.mkConfig "imap.test.com" 993 "test@test.com" "password" None.

Definition handshake : list ClientTs.ConnEvent :=
  [ClientTs.ConnReady; ClientTs.OpenBoxReply (inr inbox)].

(** The client [create(config)] hands out after [handshake], with one
    subscriber registered through [on("mail", ...)]. *)
Definition connected : ClientTs.Client :=
  ClientTs.mkClient true false (Some inbox) 100 [] [] [] [] [].

Definition subscriber : Listener := 7%nat.

Definition subscribed : ClientTs.Client := ClientTs.on subscriber connected.

(** The same for the edition with [seenUIDs]. *)
Definition connected' : SeenUids.Client :=
  SeenUids.mkClient true false (Some inbox) ∅ [] [] [] [].

Definition subscribed' : SeenUids.Client := SeenUids.on subscriber connected'.

(** Three messages, identifiers 1, 2, 3, decoded in arrival order. *)
Definition three_messages : list FetchEvent :=
  arrival 0 1 "a" "x" ++ arrival 1 2 "b" "y" ++ arrival 2 3 "c" "z"
  ++ [FetchEnd; ParserSettled 0; ParserSettled 1; ParserSettled 2].

(** Identifiers 1, 2, 3 again and 4, as a fetch by the list [1,2,3,4] yields. *)
Definition four_messages : list FetchEvent :=
  arrival 0 1 "a" "x" ++ arrival 1 2 "b" "y" ++ arrival 2 3 "c" "z"
  ++ arrival 3 4 "d" "w"
  ++ [FetchEnd; ParserSettled 0; ParserSettled 1; ParserSettled 2; ParserSettled 3].

(** Two messages in arrival order 1, 2; the decoding of 2 settles first. *)
Definition second_decodes_first : list FetchEvent :=
  arrival 0 1 "a" "x" ++ arrival 1 2 "b" "y"
  ++ [FetchEnd; ParserSettled 1; ParserSettled 0].

(** Two messages; the first decodes, the second is empty and does not. *)
Definition one_good_one_bad : list FetchEvent :=
  arrival 0 1 "a" "x" ++ arrival_empty 1 2
  ++ [FetchEnd; ParserSettled 0; ParserSettled 1].

(** Identifier 4 alone, as a fetch by the list [4] yields. *)
Definition fourth_message : list FetchEvent :=
  arrival 0 4 "d" "w" ++ [FetchEnd; ParserSettled 0].

(** Two scans in a row on [src/client.ts]: the search finds 1, 2, 3 and then
    1, 2, 3, 4, and the engine delivers what each fetch asked for. *)
Definition first_scan : ClientTs.Client * Promise unit :=
  ClientTs.getUnseenMails parser clock subscribed (SearchOk [1; 2; 3]) three_messages.

Definition second_scan : ClientTs.Client * Promise unit :=
  ClientTs.getUnseenMails parser clock first_scan.1 (SearchOk [1; 2; 3; 4]) four_messages.

(** The same two searches on the edition with [seenUIDs], whose second fetch
    asks for 4 only. *)
Definition first_scan' : SeenUids.Client * Promise unit :=
  SeenUids.getUnseenMails parser clock subscribed' (SearchOk [1; 2; 3]) three_messages.

Definition second_scan' : SeenUids.Client * Promise unit :=
  SeenUids.getUnseenMails parser clock first_scan'.1 (SearchOk [1; 2; 3; 4]) fourth_message.




(** ... and on the edition with [seenUIDs]. *)
Definition bad_batch_run' : SeenUids.Client * SeenUids.Fetch :=
  SeenUids.run parser clock
    (subscribed', SeenUids.mkFetch [] false None Pending) one_good_one_bad.

Definition bad_batch' : SeenUids.Client * Promise unit :=
  SeenUids.getUnseenMails parser clock subscribed' (SearchOk [1; 2]) one_good_one_bad.

(** Arrival order 1, 2 with the second decoded first, on both editions. *)
Definition out_of_order : ClientTs.Client * Promise unit :=
  ClientTs.getUnseenMails parser clock subscribed (SearchOk [1; 2]) second_decodes_first.

Definition out_of_order' : SeenUids.Client * Promise unit :=
  SeenUids.getUnseenMails parser clock subscribed' (SearchOk [1; 2]) second_decodes_first.

(** The engine announces two new messages at baseline 100; the fetch emits
    [error] and then [end]. *)
Definition fetch_failed : Error := mkError "fetch failed".

Definition push_then_error : ClientTs.Client * Promise unit :=
  ClientTs.fetchNewMessages parser clock subscribed 2 [FetchError fetch_failed; FetchEnd].

(** The same announcement with both messages arriving and decoding. *)
Definition push_then_two : ClientTs.Client * Promise unit :=
  ClientTs.fetchNewMessages parser clock subscribed 2
    (arrival 0 1 "a" "x" ++ arrival 1 2 "b" "y"
     ++ [FetchEnd; ParserSettled 0; ParserSettled 1]).

(** [close()] on a connected client, in both editions. *)
Definition closed : ClientTs.Client := (ClientTs.close connected).1.

Definition closed' : SeenUids.Client := (SeenUids.close connected').1.


(** Subscribers that throw when they are handed the mail with identifier 2. *)
Definition throws_on_second : Behaviour :=
  fun _ mail => if N.eqb (uid mail) 2 then Some (mkError "listener failed") else None.

(** Three messages fetched by [src/client.ts] with such subscribers. *)
Definition cut_short_run : ClientTs.Client * ClientTs.Fetch :=
  ClientTs.run_throwing parser clock throws_on_second (ClientTs.NewMessages 3)
    (subscribed, ClientTs.mkFetch [] false None false Pending) three_messages.




(** A message of the [seenUIDs] edition whose [end] handler has run on empty
    buffers, and a fetch holding just that message. *)
Definition empty_message : SeenUids.MessageState :=
  SeenUids.mkMessage [] [] (Some 2) true (Some ([], [])) false.

Definition fetch_of_empty_message : SeenUids.Fetch :=
  SeenUids.mkFetch [empty_message] false None Pending.

End Scenario.

(** ** Invariants of one fetch *)

Module SeenUidsInv.

Import SeenUids.

(** What the events of a fetch may change in the client: [news] is appended to
    the emitted mails, the identifiers of [news] are added to [seenUIDs], every
    subscriber is called once per mail of [news], nothing else moves. *)
Definition grows (c c' : Client) (news : list Mail) : Prop :=
  emitted c' = emitted c ++ news
  /\ seenUIDs c' = list_to_set (map uid news) ∪ seenUIDs c
  /\ invoked c' = invoked c ++ flat_map (call_all (listeners c)) news
  /\ fetchCalls c' = fetchCalls c
  /\ listeners c' = listeners c
  /\ client c' = client c
  /\ connectionEnded c' = connectionEnded c
  /\ currentBox c' = currentBox c.

(** Two states of a message that agree on whether it has resolved and, once
    its [end] handler has run, on the joined buffers. *)
Definition same_progress (ms ms' : MessageState) : Prop :=
  resolved ms' = resolved ms /\ (is_Some (ended ms) -> ended ms' = ended ms).

Section Decoder.

Variable simpleParser : Buffer -> Error + ParsedMail.
Variable now : Date.

(** [mail] is a record built from the successful decoding of [ms]. *)
Definition yields (ms : MessageState) (mail : Mail) : Prop :=
  exists h b ph pb u,
    ended ms = Some (h, b)
    /\ decode simpleParser h b = inr (ph, pb)
    /\ mail = buildMail now u ph pb.

(** The resolved messages and the mails emitted since the fetch began match:
    a resolved message has ended; if its decoding succeeds its record is among
    the mails; and every mail comes from a resolved message that decoded. *)
Definition msgs_inv (news : list Mail) (l : list MessageState) : Prop :=
  (forall m ms, l !! m = Some ms -> resolved ms = true -> is_Some (ended ms))
  /\ (forall m ms h b ph pb,
        l !! m = Some ms -> resolved ms = true -> ended ms = Some (h, b) ->
        decode simpleParser h b = inr (ph, pb) ->
        exists u, buildMail now u ph pb ∈ news)
  /\ (forall mail, mail ∈ news ->
        exists m ms, l !! m = Some ms /\ resolved ms = true /\ yields ms mail).

Definition fetch_inv (news : list Mail) (f : Fetch) : Prop :=
  msgs_inv news (messagePromises f)
  /\ (forall k, endFired f = Some k -> (k <= length (messagePromises f))%nat)
  /\ (forall k, endFired f = Some k ->
        forallb resolved (take k (messagePromises f)) = true ->
        promise f <> Pending).

End Decoder.

(** Two states of a fetch that differ at most in what the [error] listener
    touches: whether it has run, and the promise. *)
Definition agree (f f' : Fetch) : Prop :=
  messagePromises f = messagePromises f' /\ endFired f = endFired f'.

(** [seenUIDs] holds the identifiers of the mails emitted so far, and no other. *)
Definition seen_is_emitted (c : Client) : Prop :=
  seenUIDs c = list_to_set (map uid (emitted c)).

(** Two clients that differ at most in the calls made to listeners, the first
    having made some of the calls of the second. *)
Definition fewer_calls (c1 c0 : Client) : Prop :=
  client c1 = client c0 /\ connectionEnded c1 = connectionEnded c0
  /\ currentBox c1 = currentBox c0 /\ seenUIDs c1 = seenUIDs c0
  /\ listeners c1 = listeners c0 /\ fetchCalls c1 = fetchCalls c0
  /\ emitted c1 = emitted c0 /\ invoked c1 `sublist_of` invoked c0.

End SeenUidsInv.

Module ClientTsInv.

Import ClientTs.

(** A later state of a message: its promise is the same, or was pending. *)
Definition settles (ms ms' : MessageState) : Prop :=
  result ms' = result ms \/ result ms = Pending.

(** Where a fetch started from client [c0] stands.  Until the [await] of the
    [end] handler has gone on, the client is [c0]; afterwards either some
    awaited promise was rejected, the client is still [c0] and the promise of
    the operation is rejected, or all were fulfilled and their mails were
    published in array order. *)
Definition fetch_inv (tr : Trigger) (c0 c : Client) (f : Fetch) : Prop :=
  (forall k, endFired f = Some k -> (k <= length (messagePromises f))%nat)
  /\ (joined f = false ->
        c = c0 /\ promise f <> Fulfilled tt
        /\ forall k, endFired f = Some k ->
             first_rejected (take k (messagePromises f)) = None
             /\ all_fulfilled (take k (messagePromises f)) = None)
  /\ (joined f = true ->
        exists k, endFired f = Some k
          /\ ((first_rejected (take k (messagePromises f)) <> None
               /\ c = c0 /\ is_rejected (promise f) = true)
              \/ (exists mails,
                    all_fulfilled (take k (messagePromises f)) = Some mails
                    /\ c = advance tr (publish_all mails c0)
                    /\ promise f <> Pending))).

Section Decoder.

Variable simpleParser : Buffer -> Error + ParsedMail.
Variable now : Date.

(** [mail] was decoded from the joined chunks of [ms]. *)
Definition decoded_from (ms : MessageState) (mail : Mail) : Prop :=
  exists fullMessage parsed u,
    ended ms = Some fullMessage
    /\ simpleParser fullMessage = inr parsed
    /\ mail = buildMail now u parsed.

(** A settled message promise has its reason in the message's own bytes. *)
Definition provenance (ms : MessageState) : Prop :=
  match result ms with
  | Pending => True
  | Fulfilled mail => decoded_from ms mail
  | Rejected e =>
      exists fullMessage, ended ms = Some fullMessage /\ simpleParser fullMessage = inl e
  end.

End Decoder.

(** Two states of a fetch that differ at most in what the [error] listener
    touches: whether it has run, and the promise. *)
Definition agree (f f' : Fetch) : Prop :=
  messagePromises f = messagePromises f'
  /\ endFired f = endFired f'
  /\ joined f = joined f'.

(** A fetch [s] whose publishing loop was left by an exception, next to the
    same fetch [s0] with subscribers that return, both started from client
    [c]: the fetch states differ in the promise only, which is rejected; the
    baseline is where it was; what was emitted, on top of what [c] had
    emitted, and the calls made are an initial part of what [s0] emitted and
    called. *)
Definition cut_short (c : Client) (s s0 : Client * Fetch) : Prop :=
  agree s.2 s0.2 /\ joined s.2 = true
  /\ numMessages s.1 = numMessages c
  /\ is_rejected (promise s.2) = true
  /\ emitted c `prefix_of` emitted s.1
  /\ emitted s.1 `prefix_of` emitted s0.1
  /\ invoked s.1 `prefix_of` invoked s0.1.

(** Either no exception has left the publishing loop, and both fetches are in
    the same state, or the loop was cut short. *)
Definition same_or_cut_short (c : Client) (s s0 : Client * Fetch) : Prop :=
  (s = s0 /\ (joined s.2 = false -> s.1 = c /\ promise s.2 <> Fulfilled tt))
  \/ cut_short c s s0.

(** What no call of the public surface undoes: the connection object stays
    set, and whoever is in [mailListeners] is in the emitter too, in the same
    order. *)
Definition session_inv (c : Client) : Prop :=
  client c = true /\ sublist (mailListeners c) (emitterListeners c).

End ClientTsInv.

(** * Facts *)

(** ** [connect] in [src/client.ts] *)

Section ConnectFacts.

Import ClientTs.

Variable config : Config.

Local Abbreviation crun := (fold_left (connect_step config)).

Lemma settle_settled {A} (p q : Promise A) : p <> Pending -> settle p q = p.
Proof. destruct p; simpl; congruence. Qed.

(** A settled [connect] promise keeps its state whatever comes later. *)
Lemma connect_settled_stable (t : list ConnEvent) (s : Connecting) :
  outcome s <> Pending -> outcome (crun t s) = outcome s.
Proof.
  revert s. induction t as [|ev t IH]; intros s Hs; [reflexivity|].
  simpl.
  assert (Hstep : outcome (connect_step config s ev) = outcome s).
  { destruct ev as [err| |[err|box]]; simpl.
    - destruct (errorListener s); simpl; [by apply settle_settled|done].
    - by destruct (readyListener s).
    - destruct (openBoxPending s); simpl; [by apply settle_settled|done].
    - destruct (openBoxPending s); simpl; [by apply settle_settled|done]. }
  rewrite IH; [done|]. by rewrite Hstep.
Qed.

(** With no [ready] listener left and no [openBox] under way, nothing can
    fulfil the promise any more. *)
Lemma connect_dead (t : list ConnEvent) (s : Connecting) :
  readyListener s = false -> openBoxPending s = None ->
  outcome s <> Fulfilled tt -> outcome (crun t s) <> Fulfilled tt.
Proof.
  revert s. induction t as [|ev t IH]; intros s Hr Ho Hs; [done|].
  simpl. apply IH.
  - destruct ev as [err| |r]; simpl.
    + by destruct (errorListener s).
    + by rewrite Hr.
    + by rewrite Ho.
  - destruct ev as [err| |r]; simpl.
    + by destruct (errorListener s).
    + by rewrite Hr.
    + by rewrite Ho.
  - destruct ev as [err| |r]; simpl.
    + destruct (errorListener s); simpl; [|done].
      destruct (outcome s) as [|[]|]; simpl; congruence.
    + by rewrite Hr.
    + by rewrite Ho.
Qed.

(** While [openBox] is under way, only its successful callback fulfils. *)
Lemma connect_selecting (t : list ConnEvent) (s : Connecting) :
  readyListener s = false -> is_Some (openBoxPending s) ->
  outcome s <> Fulfilled tt -> outcome (crun t s) = Fulfilled tt ->
  exists mid box post, t = mid ++ OpenBoxReply (inr box) :: post.
Proof.
  revert s. induction t as [|ev t IH]; intros s Hr [nm Ho] Hs Hfin; [done|].
  simpl in Hfin. destruct ev as [err| |[err|box]].
  - destruct (IH (connect_step config s (ConnError err))) as (mid & box & post & ->).
    + simpl. by destruct (errorListener s).
    + simpl. destruct (errorListener s); simpl; rewrite Ho; eauto.
    + simpl. destruct (errorListener s); simpl; [|done].
      destruct (outcome s) as [|[]|]; simpl; congruence.
    + done.
    + by exists (ConnError err :: mid), box, post.
  - destruct (IH (connect_step config s ConnReady)) as (mid & box & post & ->).
    + simpl. by rewrite Hr.
    + simpl. rewrite Hr, Ho. eauto.
    + simpl. by rewrite Hr.
    + done.
    + by exists (ConnReady :: mid), box, post.
  - exfalso. revert Hfin. apply connect_dead.
    + simpl. by rewrite Ho.
    + simpl. by rewrite Ho.
    + simpl. rewrite Ho. simpl.
      destruct (outcome s) as [|[]|]; simpl; congruence.
  - by exists [], box, t.
Qed.

(** Before [ready], fulfilment needs [ready] and then a successful callback. *)
Lemma connect_waiting (t : list ConnEvent) (s : Connecting) :
  openBoxPending s = None ->
  outcome s <> Fulfilled tt -> outcome (crun t s) = Fulfilled tt ->
  exists pre mid box post,
    t = pre ++ ConnReady :: mid ++ OpenBoxReply (inr box) :: post.
Proof.
  revert s. induction t as [|ev t IH]; intros s Ho Hs Hfin; [done|].
  simpl in Hfin. destruct ev as [err| |r].
  - destruct (IH (connect_step config s (ConnError err))) as (pre & mid & box & post & ->).
    + simpl. by destruct (errorListener s).
    + simpl. destruct (errorListener s); simpl; [|done].
      destruct (outcome s) as [|[]|]; simpl; congruence.
    + done.
    + by exists (ConnError err :: pre), mid, box, post.
  - destruct (readyListener s) eqn:Hr.
    + destruct (connect_selecting t (connect_step config s ConnReady))
        as (mid & box & post & ->).
      * simpl. by rewrite Hr.
      * simpl. rewrite Hr. simpl. eauto.
      * simpl. by rewrite Hr.
      * done.
      * by exists [], mid, box, post.
    + exfalso. revert Hfin. apply connect_dead.
      * simpl. by rewrite Hr.
      * simpl. by rewrite Hr.
      * simpl. by rewrite Hr.
  - destruct (IH (connect_step config s (OpenBoxReply r))) as (pre & mid & box & post & ->).
    + simpl. by rewrite Ho.
    + simpl. by rewrite Ho.
    + done.
    + by exists (OpenBoxReply r :: pre), mid, box, post.
Qed.

End ConnectFacts.

(** C7. [create(config)]: a connection error emitted first rejects with that
    error, whatever follows (it never resolves); [ready] followed by a failed
    mailbox selection rejects with the selection error; and [create] is
    fulfilled only by a run in which [ready] occurred and, after it, the
    selection succeeded.  The two error kinds are told apart by where the error
    came from: the code passes on the engine's error object. *)
Theorem C7_create_outcomes (config : ClientTs.Config) (t : list ClientTs.ConnEvent) :
  (forall err, ClientTs.create config None (ClientTs.ConnError err :: t) = Rejected err)
  /\ (forall err,
        ClientTs.create config None
          (ClientTs.ConnReady :: ClientTs.OpenBoxReply (inl err) :: t) = Rejected err)
  /\ (forall c, ClientTs.create config None t = Fulfilled c ->
        exists pre mid box post,
          t = pre ++ ClientTs.ConnReady :: mid
                ++ ClientTs.OpenBoxReply (inr box) :: post).
Proof.
  repeat split.
  - intros err. unfold ClientTs.create, ClientTs.connect. simpl.
    rewrite connect_settled_stable; simpl; congruence.
  - intros err. unfold ClientTs.create, ClientTs.connect. simpl.
    rewrite connect_settled_stable; simpl; congruence.
  - intros c Hc. unfold ClientTs.create, ClientTs.connect in Hc.
    destruct (ClientTs.outcome _) as [|[]|] eqn:Hout; try discriminate.
    eapply connect_waiting; [| |exact Hout]; simpl; congruence.
Qed.

Lemma C7_create_outcomes_witness :
  ClientTs.create Scenario.config None Scenario.handshake = Fulfilled Scenario.connected
  /\ exists pre mid box post,
       Scenario.handshake
       = pre ++ ClientTs.ConnReady :: mid ++ ClientTs.OpenBoxReply (inr box) :: post.
Proof.
  split; [reflexivity|].
  apply (proj2 (proj2 (C7_create_outcomes Scenario.config Scenario.handshake))
           Scenario.connected).
  reflexivity.
Defined.

(** ** One fetch in the edition with [seenUIDs] *)

(** Equalities between unions of identifier sets, by membership. *)
Ltac union_eq :=
  apply set_eq; intros ?; simpl;
  rewrite ?elem_of_union, ?elem_of_singleton, ?elem_of_empty; tauto.

Section SeenUidsFacts.

Import SeenUids SeenUidsInv.

Variable simpleParser : Buffer -> Error + ParsedMail.
Variable now : Date.

Local Abbreviation step := (SeenUids.step simpleParser now).
Local Abbreviation run := (SeenUids.run simpleParser now).
Local Abbreviation msgs_inv := (SeenUidsInv.msgs_inv simpleParser now).
Local Abbreviation fetch_inv := (SeenUidsInv.fetch_inv simpleParser now).

Lemma grows_refl (c : Client) : grows c c [].
Proof.
  unfold grows. simpl. rewrite !app_nil_r. repeat split. union_eq.
Qed.

Lemma grows_trans (c1 c2 c3 : Client) (n1 n2 : list Mail) :
  grows c1 c2 n1 -> grows c2 c3 n2 -> grows c1 c3 (n1 ++ n2).
Proof.
  intros (E1 & S1 & I1 & F1 & L1 & C1 & D1 & B1) (E2 & S2 & I2 & F2 & L2 & C2 & D2 & B2).
  unfold grows. rewrite E2, E1, S2, S1, I2, I1, F2, F1, L2, L1, C2, C1, D2, D1, B2, B1.
  rewrite map_app, flat_map_app, list_to_set_app_L, <- !app_assoc.
  repeat split. union_eq.
Qed.

Lemma grows_publish (c : Client) (mail : Mail) : grows c (publish mail c) [mail].
Proof.
  unfold grows, publish. simpl. rewrite app_nil_r. repeat split. union_eq.
Qed.

(** The three handlers that run before decoding leave the progress alone. *)
Lemma alter_same_progress (g : MessageState -> MessageState) (m : nat)
    (l : list MessageState) :
  (forall ms, same_progress ms (g ms)) ->
  Forall2 same_progress l (alter g m l).
Proof.
  intros Hg. apply Forall2_alter_r.
  - apply Forall_Forall2_diag, Forall_forall. intros ms _. by split.
  - intros x y _ _ [Hr He]. destruct (Hg y) as [Hr' He']. split.
    + congruence.
    + intros Hx. rewrite He'; [by apply He|]. rewrite He; done.
Qed.

Lemma on_body_same_progress which chunk ms : same_progress ms (on_body which chunk ms).
Proof. unfold on_body. by destruct (String.eqb which "TEXT"). Qed.

Lemma on_attributes_same_progress u ms : same_progress ms (on_attributes u ms).
Proof. unfold on_attributes. by destruct (attributesSeen ms). Qed.

Lemma on_end_same_progress ms : same_progress ms (on_end ms).
Proof.
  unfold on_end. destruct (ended ms) eqn:E; [done|].
  split; [done|]. rewrite E. by intros [? ?].
Qed.

Lemma same_progress_forallb (l l' : list MessageState) :
  Forall2 same_progress l l' ->
  forall k, forallb resolved (take k l') = forallb resolved (take k l).
Proof.
  induction 1 as [|x y l l' [Hr _] _ IH]; intros [|k]; simpl; try done.
  by rewrite Hr, IH.
Qed.

Lemma msgs_inv_similar (news : list Mail) (l l' : list MessageState) :
  msgs_inv news l -> Forall2 same_progress l l' -> msgs_inv news l'.
Proof.
  intros (HA & HB & HC) Hsim. split; [|split].
  - intros m ms' Hm Hres.
    destruct (Forall2_lookup_r _ _ _ _ _ Hsim Hm) as (ms & Hl & Hr & He).
    assert (is_Some (ended ms)) as Hs by (apply (HA m); congruence).
    by rewrite He.
  - intros m ms' h b ph pb Hm Hres Hend Hdec.
    destruct (Forall2_lookup_r _ _ _ _ _ Hsim Hm) as (ms & Hl & Hr & He).
    assert (is_Some (ended ms)) as Hs by (apply (HA m); congruence).
    apply (HB m ms h b ph pb); try congruence. rewrite <- He; done.
  - intros mail Hin. destruct (HC mail Hin) as (m & ms & Hl & Hres & Hy).
    destruct (Forall2_lookup_l _ _ _ _ _ Hsim Hl) as (ms' & Hl' & Hr & He).
    exists m, ms'. split; [done|]. split; [congruence|].
    destruct Hy as (h & b & ph & pb & u & Hend & Hdec & ->).
    exists h, b, ph, pb, u. split; [|done]. rewrite He; [done|]. by rewrite Hend.
Qed.

Lemma msgs_inv_snoc (news : list Mail) (l : list MessageState) :
  msgs_inv news l -> msgs_inv news (l ++ [newMessage]).
Proof.
  intros (HA & HB & HC). split; [|split].
  - intros m ms Hm Hres. apply lookup_app_Some in Hm as [Hm|[_ Hm]]; [by eapply HA|].
    apply list_lookup_singleton_Some in Hm as [_ <-]. done.
  - intros m ms h b ph pb Hm Hres. apply lookup_app_Some in Hm as [Hm|[_ Hm]]; [by eapply HB|].
    apply list_lookup_singleton_Some in Hm as [_ <-]. done.
  - intros mail Hin. destruct (HC mail Hin) as (m & ms & Hl & Hres & Hy).
    exists m, ms. split; [|done]. by apply lookup_app_l_Some.
Qed.

(** Message [m] resolves after a successful decoding: its record joins the mails. *)
Lemma msgs_inv_decoded (news : list Mail) (l : list MessageState) m ms h b ph pb :
  msgs_inv news l -> l !! m = Some ms -> resolved ms = false ->
  ended ms = Some (h, b) -> decode simpleParser h b = inr (ph, pb) ->
  msgs_inv (news ++ [buildMail now (messageId ms) ph pb]) (<[m := mark_resolved ms]> l).
Proof.
  intros (HA & HB & HC) Hl Hres Hend Hdec.
  assert (m < length l)%nat as Hlt by (by eapply lookup_lt_Some).
  split; [|split].
  - intros j x Hj Hx. apply list_lookup_insert_Some in Hj as [(-> & <- & _)|[_ Hj]].
    + simpl. by rewrite Hend.
    + by eapply HA.
  - intros j x h' b' ph' pb' Hj Hx Hend' Hdec'.
    apply list_lookup_insert_Some in Hj as [(-> & <- & _)|[_ Hj]].
    + simpl in Hend'. rewrite Hend in Hend'. injection Hend' as <- <-.
      rewrite Hdec in Hdec'. injection Hdec' as <- <-.
      exists (messageId ms). apply elem_of_app. right. by apply list_elem_of_singleton.
    + destruct (HB j x h' b' ph' pb' Hj Hx Hend' Hdec') as [u Hu].
      exists u. apply elem_of_app. by left.
  - intros mail Hin. apply elem_of_app in Hin as [Hin|Hin].
    + destruct (HC mail Hin) as (j & x & Hj & Hx & Hy).
      exists j, x. split; [|done]. apply list_lookup_insert_Some. right.
      split; [|done]. intros ->. congruence.
    + apply list_elem_of_singleton in Hin as ->.
      exists m, (mark_resolved ms). split; [|split; [done|]].
      * apply list_lookup_insert_Some. left. done.
      * exists h, b, ph, pb, (messageId ms). done.
Qed.

(** Message [m] resolves after a failed decoding: the mails stay as they are. *)
Lemma msgs_inv_dropped (news : list Mail) (l : list MessageState) m ms h b e :
  msgs_inv news l -> l !! m = Some ms -> resolved ms = false ->
  ended ms = Some (h, b) -> decode simpleParser h b = inl e ->
  msgs_inv news (<[m := mark_resolved ms]> l).
Proof.
  intros (HA & HB & HC) Hl Hres Hend Hdec.
  split; [|split].
  - intros j x Hj Hx. apply list_lookup_insert_Some in Hj as [(-> & <- & _)|[_ Hj]].
    + simpl. by rewrite Hend.
    + by eapply HA.
  - intros j x h' b' ph' pb' Hj Hx Hend' Hdec'.
    apply list_lookup_insert_Some in Hj as [(-> & <- & _)|[_ Hj]].
    + simpl in Hend'. rewrite Hend in Hend'. injection Hend' as <- <-. congruence.
    + by eapply HB.
  - intros mail Hin. destruct (HC mail Hin) as (j & x & Hj & Hx & Hy).
    exists j, x. split; [|done]. apply list_lookup_insert_Some. right.
    split; [|done]. intros ->. congruence.
Qed.

(** After the [await] of the [end] handler had its chance, a fetch whose
    awaited promises have all resolved is settled. *)
Lemma join_inv (news : list Mail) (f : Fetch) :
  msgs_inv news (messagePromises f) ->
  (forall k, endFired f = Some k -> (k <= length (messagePromises f))%nat) ->
  fetch_inv news (join f).
Proof.
  intros Hm Hk. unfold join.
  destruct (endFired f) as [k|] eqn:Hend.
  - destruct (forallb resolved (take k (messagePromises f))) eqn:Hall.
    + split; [done|]. split; [simpl; by rewrite Hend|].
      simpl. intros _ _ _. by destruct (promise f).
    + split; [done|]. split; [by rewrite Hend|].
      rewrite Hend. intros k' [= <-]. by rewrite Hall.
  - split; [done|]. split; by rewrite Hend.
Qed.


Lemma join_messages (f : Fetch) : messagePromises (join f) = messagePromises f.
Proof.
  unfold join. destruct (endFired f); [|done]. by destruct (forallb _ _).
Qed.


(** Every event keeps the invariant and only appends to the client's logs. *)
Lemma step_inv (c : Client) (f : Fetch) (ev : FetchEvent) (news : list Mail) :
  fetch_inv news f ->
  exists more,
    grows c (step (c, f) ev).1 more /\ fetch_inv (news ++ more) (step (c, f) ev).2.
Proof.
  intros (Hm & Hk & Hj).
  destruct ev as [seqno|m which chunk|m u|m|m|e|]; simpl.
  - exists []. rewrite app_nil_r. split; [apply grows_refl|].
    split; [by apply msgs_inv_snoc|]. simpl. split.
    + intros k Hend. rewrite length_app. specialize (Hk k Hend). simpl. lia.
    + intros k Hend. rewrite take_app_le by (by apply Hk). by apply Hj.
  - exists []. rewrite app_nil_r. split; [apply grows_refl|].
    assert (Forall2 same_progress (messagePromises f)
              (alter (on_body which chunk) m (messagePromises f))) as Hsim
      by (apply alter_same_progress, on_body_same_progress).
    split; [by eapply msgs_inv_similar|]. simpl. split.
    + intros k Hend. rewrite length_alter. by apply Hk.
    + intros k Hend. rewrite (same_progress_forallb _ _ Hsim). by apply Hj.
  - exists []. rewrite app_nil_r. split; [apply grows_refl|].
    assert (Forall2 same_progress (messagePromises f)
              (alter (on_attributes u) m (messagePromises f))) as Hsim
      by (apply alter_same_progress, on_attributes_same_progress).
    split; [by eapply msgs_inv_similar|]. simpl. split.
    + intros k Hend. rewrite length_alter. by apply Hk.
    + intros k Hend. rewrite (same_progress_forallb _ _ Hsim). by apply Hj.
  - exists []. rewrite app_nil_r. split; [apply grows_refl|].
    assert (Forall2 same_progress (messagePromises f)
              (alter on_end m (messagePromises f))) as Hsim
      by (apply alter_same_progress, on_end_same_progress).
    split; [by eapply msgs_inv_similar|]. simpl. split.
    + intros k Hend. rewrite length_alter. by apply Hk.
    + intros k Hend. rewrite (same_progress_forallb _ _ Hsim). by apply Hj.
  - unfold after_parse.
    destruct (messagePromises f !! m) as [ms|] eqn:Hl;
      [|exists []; rewrite app_nil_r; split; [apply grows_refl|by apply join_inv]].
    destruct (resolved ms) eqn:Hres;
      [exists []; rewrite app_nil_r; split; [apply grows_refl|by apply join_inv]|].
    destruct (ended ms) as [[h b]|] eqn:Hend;
      [|exists []; rewrite app_nil_r; split; [apply grows_refl|by apply join_inv]].
    destruct (decode simpleParser h b) as [e|[ph pb]] eqn:Hdec.
    + exists []. rewrite app_nil_r. split; [apply grows_refl|].
      apply join_inv; simpl.
      * by eapply msgs_inv_dropped.
      * intros k Hk'. rewrite length_insert. by apply Hk.
    + exists [buildMail now (messageId ms) ph pb]. split; [apply grows_publish|].
      apply join_inv; simpl.
      * by eapply msgs_inv_decoded.
      * intros k Hk'. rewrite length_insert. by apply Hk.
  - exists []. rewrite app_nil_r. destruct (errorFired f); simpl.
    + split; [apply grows_refl|done].
    + split; [apply grows_refl|]. split; [done|]. split; [done|].
      simpl. intros _ _ _. by destruct (promise f).
  - exists []. rewrite app_nil_r. destruct (endFired f) as [k|] eqn:Hend; simpl.
    + split; [apply grows_refl|]. split; [done|].
      split; intros k0 Hk0; rewrite Hend in Hk0; [by apply Hk|by apply Hj].
    + split; [apply grows_refl|]. apply join_inv; simpl; [done|].
      by intros k [= <-].
Qed.

Lemma run_inv (t : list FetchEvent) (c : Client) (f : Fetch) (news : list Mail) :
  fetch_inv news f ->
  exists more,
    grows c (run (c, f) t).1 more /\ fetch_inv (news ++ more) (run (c, f) t).2.
Proof.
  revert c f news. induction t as [|ev t IH]; intros c f news Hinv.
  - exists []. rewrite app_nil_r. split; [apply grows_refl|exact Hinv].
  - destruct (step_inv c f ev news Hinv) as (n1 & Hg1 & Hi1).
    change (run (c, f) (ev :: t)) with (run (step (c, f) ev) t).
    destruct (step (c, f) ev) as [c1 f1] eqn:Hs. simpl in Hg1, Hi1.
    destruct (IH c1 f1 _ Hi1) as (n2 & Hg2 & Hi2).
    exists (n1 ++ n2). rewrite app_assoc. split; [|exact Hi2].
    exact (grows_trans _ _ _ _ _ Hg1 Hg2).
Qed.

Lemma fetch_inv_start : fetch_inv [] (mkFetch [] false None Pending).
Proof.
  split; [|split]; simpl; try done.
  split; [|split].
  - intros m ms Hm. by rewrite lookup_nil in Hm.
  - intros m ms h b ph pb Hm. by rewrite lookup_nil in Hm.
  - intros mail Hin. by apply elem_of_nil in Hin.
Qed.



End SeenUidsFacts.

(** ** One fetch in [src/client.ts] *)

Section ClientTsFacts.

Import ClientTs ClientTsInv.

Variable simpleParser : Buffer -> Error + ParsedMail.
Variable now : Date.
Variable tr : Trigger.

Local Abbreviation step := (ClientTs.step simpleParser now tr).
Local Abbreviation run := (ClientTs.run simpleParser now tr).
Local Abbreviation join := (ClientTs.join tr).

(** [Promise.all] looks at the promises only. *)
Lemma same_result_join (l l' : list MessageState) :
  Forall2 (fun a b => result b = result a) l l' ->
  forall k,
    first_rejected (take k l') = first_rejected (take k l)
    /\ all_fulfilled (take k l') = all_fulfilled (take k l).
Proof.
  induction 1 as [|a b l l' Hab _ IH]; intros [|k]; simpl; try done.
  rewrite Hab. destruct (IH k) as [-> ->]. done.
Qed.

(** A settled outcome of [Promise.all] is not undone when more promises settle. *)
Lemma settles_join (l l' : list MessageState) :
  Forall2 settles l l' ->
  forall k,
    (first_rejected (take k l) <> None -> first_rejected (take k l') <> None)
    /\ (forall mails, all_fulfilled (take k l) = Some mails ->
          all_fulfilled (take k l') = Some mails).
Proof.
  induction 1 as [|a b l l' Hab _ IH]; intros [|k]; simpl; try done.
  destruct (IH k) as [IH1 IH2]. destruct Hab as [Hab|Hab].
  - rewrite Hab. split.
    + destruct (result a); auto.
    + intros mails. destruct (result a); try done.
      destruct (all_fulfilled (take k l)) as [ms|] eqn:E; [|done].
      by rewrite (IH2 ms).
  - rewrite Hab. split.
    + intros Hr. destruct (result b); auto; done.
    + done.
Qed.

Lemma alter_same_result (g : MessageState -> MessageState) (m : nat)
    (l : list MessageState) :
  (forall ms, result (g ms) = result ms) ->
  Forall2 (fun a b => result b = result a) l (alter g m l).
Proof.
  intros Hg. apply Forall2_alter_r.
  - apply Forall_Forall2_diag, Forall_forall. by intros ms _.
  - intros x y _ _ Hxy. by rewrite Hg.
Qed.

Lemma after_parse_settles (m : nat) (f : Fetch) :
  Forall2 settles (messagePromises f) (messagePromises (after_parse simpleParser now m f))
  /\ errorFired (after_parse simpleParser now m f) = errorFired f
  /\ endFired (after_parse simpleParser now m f) = endFired f
  /\ joined (after_parse simpleParser now m f) = joined f
  /\ promise (after_parse simpleParser now m f) = promise f.
Proof.
  assert (Forall2 settles (messagePromises f) (messagePromises f)) as Hrefl.
  { apply Forall_Forall2_diag, Forall_forall. intros ms _. by left. }
  unfold after_parse.
  destruct (messagePromises f !! m) as [ms|] eqn:Hl; [|done].
  destruct (ended ms) as [fullMessage|]; [|done].
  destruct (result ms) eqn:Hres; try done.
  simpl. repeat split.
  rewrite <- (list_insert_id _ _ _ Hl) at 1.
  apply Forall2_insert; [done|]. by right.
Qed.

Lemma length_after_parse (m : nat) (f : Fetch) :
  length (messagePromises (after_parse simpleParser now m f))
  = length (messagePromises f).
Proof.
  destruct (after_parse_settles m f) as [H _]. symmetry. by eapply Forall2_length.
Qed.

(** The [await] of the [end] handler, reached with the client still [c0]. *)
Lemma ts_join_inv (c0 : Client) (f : Fetch) :
  (forall k, endFired f = Some k -> (k <= length (messagePromises f))%nat) ->
  joined f = false -> promise f <> Fulfilled tt ->
  fetch_inv tr c0 (join c0 f).1 (join c0 f).2.
Proof.
  intros Hk Hj Hp. unfold ClientTs.join. rewrite Hj.
  destruct (endFired f) as [k|] eqn:Hend.
  - assert (forall k0, Some k = Some k0 -> (k0 <= length (messagePromises f))%nat)
      as Hk' by (intros k0 [= <-]; by apply Hk).
    destruct (first_rejected (take k (messagePromises f))) as [e|] eqn:Hrej.
    + split; [exact Hk'|]. simpl. split; [done|].
      intros _. exists k. split; [done|]. left.
      rewrite Hrej. split; [done|]. split; [done|].
      destruct (promise f) as [|[]|]; simpl; congruence.
    + destruct (all_fulfilled (take k (messagePromises f))) as [mails|] eqn:Hall.
      * split; [exact Hk'|]. simpl. split; [done|].
        intros _. exists k. split; [done|]. right.
        exists mails. split; [done|]. split; [done|].
        by destruct (promise f).
      * split; [simpl; by rewrite Hend|]. simpl. split; [|congruence].
        intros _. split; [done|]. split; [done|].
        intros k'. rewrite Hend. intros [= <-]. done.
  - split; [simpl; by rewrite Hend|]. simpl. split; [|congruence].
    intros _. split; [done|]. split; [done|]. intros k. by rewrite Hend.
Qed.

(** Changing the message states in a way [Promise.all] cannot see, or only by
    settling pending promises after the [await] went on, keeps the invariant. *)
Lemma fetch_inv_messages (c0 c : Client) (f : Fetch) (l' : list MessageState) :
  fetch_inv tr c0 c f ->
  Forall2 settles (messagePromises f) l' ->
  (joined f = false ->
   forall k, endFired f = Some k ->
     first_rejected (take k l') = first_rejected (take k (messagePromises f))
     /\ all_fulfilled (take k l') = all_fulfilled (take k (messagePromises f))) ->
  fetch_inv tr c0 c (set_messages l' f).
Proof.
  intros (Hk & Hw & Hf) Hs Hsame. split; [|split]; simpl.
  - intros k Hend. rewrite <- (Forall2_length _ _ _ Hs). by apply Hk.
  - intros Hj. destruct (Hw Hj) as (-> & Hp & Hnone).
    split; [done|]. split; [done|]. intros k Hend.
    destruct (Hsame Hj k Hend) as [-> ->]. by apply Hnone.
  - intros Hj. destruct (Hf Hj) as (k & Hend & Hcase). exists k. split; [done|].
    destruct (settles_join _ _ Hs k) as [Hr Ha].
    destruct Hcase as [(Hrej & -> & Hp)|(mails & Hall & -> & Hp)].
    + left. auto.
    + right. exists mails. auto.
Qed.

Lemma same_result_settles (l l' : list MessageState) :
  Forall2 (fun a b => result b = result a) l l' -> Forall2 settles l l'.
Proof. intros H. eapply Forall2_impl; [exact H|]. intros a b Hab. by left. Qed.

Lemma ts_step_inv (c0 c : Client) (f : Fetch) (ev : FetchEvent) :
  fetch_inv tr c0 c f -> fetch_inv tr c0 (step (c, f) ev).1 (step (c, f) ev).2.
Proof.
  intros Hinv. pose proof Hinv as (Hk & Hw & Hf).
  destruct ev as [seqno|m which chunk|m u|m|m|e|]; simpl.
  - split; [|split]; simpl.
    + intros k Hend. rewrite length_app. specialize (Hk k Hend). simpl. lia.
    + intros Hj. destruct (Hw Hj) as (-> & Hp & Hnone).
      split; [done|]. split; [done|]. intros k Hend.
      rewrite take_app_le by (by apply Hk). by apply Hnone.
    + intros Hj. destruct (Hf Hj) as (k & Hend & Hcase). exists k. split; [done|].
      rewrite take_app_le by (by apply Hk). done.
  - assert (Forall2 (fun a b => result b = result a) (messagePromises f)
              (alter (on_body chunk) m (messagePromises f))) as Hsame
      by (by apply alter_same_result).
    apply fetch_inv_messages; [done|by apply same_result_settles|].
    intros _ k _. by apply same_result_join.
  - assert (Forall2 (fun a b => result b = result a) (messagePromises f)
              (alter (on_attributes u) m (messagePromises f))) as Hsame.
    { apply alter_same_result. intros ms. unfold on_attributes.
      by destruct (attributesSeen ms). }
    apply fetch_inv_messages; [done|by apply same_result_settles|].
    intros _ k _. by apply same_result_join.
  - assert (Forall2 (fun a b => result b = result a) (messagePromises f)
              (alter on_end m (messagePromises f))) as Hsame.
    { apply alter_same_result. intros ms. unfold on_end. by destruct (ended ms). }
    apply fetch_inv_messages; [done|by apply same_result_settles|].
    intros _ k _. by apply same_result_join.
  - destruct (after_parse_settles m f) as (Hs & He & Hend & Hj & Hp).
    destruct (joined f) eqn:Hjf.
    + assert (join c (after_parse simpleParser now m f)
              = (c, after_parse simpleParser now m f)) as ->.
      { unfold ClientTs.join. rewrite Hj.
        by destruct (endFired (after_parse simpleParser now m f)). }
      simpl. destruct (Hf eq_refl) as (k & Hendk & Hcase).
      split; [|split].
      * intros k'. rewrite Hend, length_after_parse. apply Hk.
      * rewrite Hj. done.
      * intros _. exists k. rewrite Hend, Hp. split; [done|].
        destruct (settles_join _ _ Hs k) as [Hr Ha].
        destruct Hcase as [(Hrej & -> & Hpr)|(mails & Hall & -> & Hpr)].
        -- left. auto.
        -- right. exists mails. auto.
    + destruct (Hw eq_refl) as (-> & Hpf & _).
      apply ts_join_inv.
      * intros k Hk'. rewrite length_after_parse. apply Hk. congruence.
      * congruence.
      * congruence.
  - destruct (errorFired f); [done|].
    split; [|split]; simpl.
    + done.
    + intros Hj. destruct (Hw Hj) as (-> & Hp & Hnone).
      split; [done|]. split; [|done].
      destruct (promise f) as [|[]|]; simpl; congruence.
    + intros Hj. destruct (Hf Hj) as (k & Hend & Hcase). exists k. split; [done|].
      destruct Hcase as [(Hrej & -> & Hpr)|(mails & Hall & -> & Hpr)].
      * left. split; [done|]. split; [done|]. by destruct (promise f).
      * right. exists mails. split; [done|]. split; [done|]. by destruct (promise f).
  - destruct (endFired f) as [k|] eqn:Hend; [done|].
    destruct (joined f) eqn:Hjf.
    { destruct (Hf eq_refl) as (k & Hendk & _). congruence. }
    destruct (Hw eq_refl) as (-> & Hpf & _).
    apply ts_join_inv; simpl; [|done|done].
    by intros k [= <-].
Qed.

Lemma ts_run_inv (t : list FetchEvent) (c0 c : Client) (f : Fetch) :
  fetch_inv tr c0 c f -> fetch_inv tr c0 (run (c, f) t).1 (run (c, f) t).2.
Proof.
  revert c f. induction t as [|ev t IH]; intros c f Hinv; [exact Hinv|].
  change (run (c, f) (ev :: t)) with (run (step (c, f) ev) t).
  pose proof (ts_step_inv c0 c f ev Hinv) as Hs.
  destruct (step (c, f) ev) as [c1 f1]. by apply IH.
Qed.

Lemma ts_fetch_inv_start (c0 : Client) :
  fetch_inv tr c0 c0 (mkFetch [] false None false Pending).
Proof.
  split; [|split]; simpl; try done.
Qed.

End ClientTsFacts.

(** ** Scans in the edition with [seenUIDs] *)

Section SeenUidsScans.

Import SeenUids SeenUidsInv.

Variable simpleParser : Buffer -> Error + ParsedMail.
Variable now : Date.

Local Abbreviation getUnseenMails := (SeenUids.getUnseenMails simpleParser now).

(** [fetchMessages] logs its fetch call and otherwise only appends. *)
Lemma fetchMessages_grows (c : Client) (uids : list N) (t : list FetchEvent) :
  exists news,
    let c' := (fetchMessages simpleParser now c uids t).1 in
    emitted c' = emitted c ++ news
    /\ seenUIDs c' = list_to_set (map uid news) ∪ seenUIDs c
    /\ fetchCalls c' = fetchCalls c ++ [IdList uids].
Proof.
  unfold fetchMessages.
  set (c0 := mkClient _ _ _ _ _ _ _ _).
  destruct (run_inv simpleParser now t c0 _ [] (fetch_inv_start simpleParser now))
    as (news & (He & Hs & _ & Hf & _) & _).
  exists news.
  destruct (SeenUids.run simpleParser now (c0, _) t) as [c' f']. simpl in *.
  by rewrite He, Hs, Hf.
Qed.

(** A scan appends the mails it emits, adds exactly their identifiers to
    [seenUIDs], and issues at most one fetch call, for the identifiers of the
    search result that were not in [seenUIDs]. *)
Lemma getUnseenMails_grows (c : Client) (sr : SearchResult) (t : list FetchEvent) :
  exists news,
    let c' := (getUnseenMails c sr t).1 in
    emitted c' = emitted c ++ news
    /\ seenUIDs c' = list_to_set (map uid news) ∪ seenUIDs c
    /\ (fetchCalls c' = fetchCalls c /\ news = []
        \/ exists uids, sr = SearchOk uids /\ newUIDs c uids <> []
             /\ fetchCalls c' = fetchCalls c ++ [IdList (newUIDs c uids)]).
Proof.
  assert (exists news : list Mail,
            emitted c = emitted c ++ news
            /\ seenUIDs c = list_to_set (map uid news) ∪ seenUIDs c
            /\ (fetchCalls c = fetchCalls c /\ news = []
                \/ exists uids, sr = SearchOk uids /\ newUIDs c uids <> []
                     /\ fetchCalls c = fetchCalls c ++ [IdList (newUIDs c uids)]))
    as Hsame.
  { exists []. rewrite app_nil_r. split; [done|]. split; [union_eq|]. by left. }
  unfold SeenUids.getUnseenMails.
  destruct (negb (client c)); [exact Hsame|].
  destruct (currentBox c); [|exact Hsame].
  destruct sr as [e|uids|]; [exact Hsame| |exact Hsame].
  destruct uids as [|u uids]; [exact Hsame|].
  destruct (newUIDs c (u :: uids)) as [|v fresh] eqn:Hnew; [exact Hsame|].
  destruct (fetchMessages_grows c (v :: fresh) t) as (news & He & Hs & Hf).
  exists news. split; [exact He|]. split; [exact Hs|].
  right. exists (u :: uids). rewrite Hnew. done.
Qed.

Lemma published_since_app (before news : list Mail) :
  published_since before (before ++ news) = news.
Proof. unfold published_since. apply drop_app_length. Qed.

End SeenUidsScans.

(** C8. A search that finds nothing resolves [getUnseenMails] and leaves the
    client exactly as it was, in both editions: no fetch call is logged and no
    mail is emitted, whatever the engine would have delivered. *)
Theorem C8_empty_search_issues_no_fetch
    (simpleParser : Buffer -> Error + ParsedMail) (now : Date)
    (c : ClientTs.Client) (c' : SeenUids.Client) (b : Box) (t : list FetchEvent) :
  ClientTs.client c = true ->
  SeenUids.client c' = true -> SeenUids.currentBox c' = Some b ->
  ClientTs.getUnseenMails simpleParser now c (SearchOk []) t = (c, Fulfilled tt)
  /\ SeenUids.getUnseenMails simpleParser now c' (SearchOk []) t = (c', Fulfilled tt).
Proof.
  intros Hc Hc' Hb. unfold ClientTs.getUnseenMails, SeenUids.getUnseenMails.
  by rewrite Hc, Hc', Hb.
Qed.

Lemma C8_empty_search_issues_no_fetch_witness :
  ClientTs.getUnseenMails Scenario.parser Scenario.clock Scenario.subscribed
    (SearchOk []) Scenario.three_messages = (Scenario.subscribed, Fulfilled tt)
  /\ SeenUids.getUnseenMails Scenario.parser Scenario.clock Scenario.subscribed'
       (SearchOk []) Scenario.three_messages = (Scenario.subscribed', Fulfilled tt).
Proof.
  apply (C8_empty_search_issues_no_fetch Scenario.parser Scenario.clock
           Scenario.subscribed Scenario.subscribed' Scenario.inbox
           Scenario.three_messages); reflexivity.
Defined.

(** C9. In the edition with [seenUIDs], a search whose identifiers are all in
    [seenUIDs] already resolves [getUnseenMails] and leaves the client exactly
    as it was: no fetch call, no mail emitted. *)
Theorem C9_all_seen_issues_no_fetch
    (simpleParser : Buffer -> Error + ParsedMail) (now : Date)
    (c : SeenUids.Client) (b : Box) (uids : list N) (t : list FetchEvent) :
  SeenUids.client c = true -> SeenUids.currentBox c = Some b ->
  uids <> [] -> (forall u, u ∈ uids -> u ∈ SeenUids.seenUIDs c) ->
  SeenUids.getUnseenMails simpleParser now c (SearchOk uids) t = (c, Fulfilled tt).
Proof.
  intros Hc Hb Hne Hseen. unfold SeenUids.getUnseenMails. rewrite Hc, Hb. simpl.
  destruct uids as [|u uids]; [done|].
  destruct (SeenUids.newUIDs c (u :: uids)) as [|v fresh] eqn:Hnew; [done|].
  exfalso.
  assert (v ∈ SeenUids.newUIDs c (u :: uids)) as Hv
    by (rewrite Hnew; apply list_elem_of_here).
  apply list_elem_of_filter in Hv as [Hv1 Hv2]. by apply Hv1, Hseen.
Qed.

Lemma C9_all_seen_issues_no_fetch_witness :
  SeenUids.getUnseenMails Scenario.parser Scenario.clock Scenario.first_scan'.1
    (SearchOk [1; 2; 3]) Scenario.three_messages
  = (Scenario.first_scan'.1, Fulfilled tt).
Proof.
  apply (C9_all_seen_issues_no_fetch Scenario.parser Scenario.clock
           Scenario.first_scan'.1 Scenario.inbox [1; 2; 3] Scenario.three_messages).
  - reflexivity.
  - reflexivity.
  - discriminate.
  - intros u Hu.
    repeat (apply elem_of_cons in Hu as [->|Hu]; [compute_done|]).
    by apply elem_of_nil in Hu.
Defined.

(** ** What a fetch of the [seenUIDs] edition records, from any state *)

Section SeenUidsGrowth.

Import SeenUids SeenUidsInv.

Variable simpleParser : Buffer -> Error + ParsedMail.
Variable now : Date.

Lemma step_grows (c : Client) (f : Fetch) (ev : FetchEvent) :
  exists more, grows c (SeenUids.step simpleParser now (c, f) ev).1 more.
Proof.
  destruct ev as [seqno|m which chunk|m u|m|m|e|]; simpl;
    try (exists []; apply grows_refl).
  - unfold after_parse.
    destruct (messagePromises f !! m) as [ms|]; [|exists []; apply grows_refl].
    destruct (resolved ms); [exists []; apply grows_refl|].
    destruct (ended ms) as [[h b]|]; [|exists []; apply grows_refl].
    destruct (decode simpleParser h b) as [e|[ph pb]]; [exists []; apply grows_refl|].
    eexists. apply grows_publish.
  - destruct (errorFired f); exists []; apply grows_refl.
  - destruct (endFired f); exists []; apply grows_refl.
Qed.

Lemma run_grows (t : list FetchEvent) (c : Client) (f : Fetch) :
  exists more, grows c (SeenUids.run simpleParser now (c, f) t).1 more.
Proof.
  revert c f. induction t as [|ev t IH]; intros c f.
  - exists []. apply grows_refl.
  - change (SeenUids.run simpleParser now (c, f) (ev :: t))
      with (SeenUids.run simpleParser now (SeenUids.step simpleParser now (c, f) ev) t).
    destruct (step_grows c f ev) as (n1 & H1).
    destruct (SeenUids.step simpleParser now (c, f) ev) as [c1 f1]. simpl in H1.
    destruct (IH c1 f1) as (n2 & H2).
    exists (n1 ++ n2). by eapply grows_trans.
Qed.

(** A record is emitted at the very step at which its decoding settles. *)
Lemma seen_publishes_when_decoded (c : Client) (f : Fetch) (m : nat)
    (ms : MessageState) (h b : Buffer) (ph pb : ParsedMail) :
  messagePromises f !! m = Some ms -> resolved ms = false ->
  ended ms = Some (h, b) -> decode simpleParser h b = inr (ph, pb) ->
  emitted (SeenUids.step simpleParser now (c, f) (ParserSettled m)).1
  = emitted c ++ [buildMail now (messageId ms) ph pb].
Proof.
  intros Hl Hres Hend Hdec. simpl. unfold after_parse.
  by rewrite Hl, Hres, Hend, Hdec.
Qed.

End SeenUidsGrowth.

(** C10. In the edition with [seenUIDs], when the decoding of a message fails
    its handler resolves the message without touching [seenUIDs] or emitting
    anything, so the identifier stays eligible for the next scan's fetch; and
    whatever follows, [seenUIDs] grows only by the identifiers of mails that
    are emitted. *)
Theorem C10_failed_decode_leaves_seenUIDs
    (simpleParser : Buffer -> Error + ParsedMail) (now : Date)
    (c : SeenUids.Client) (f : SeenUids.Fetch) (m : nat)
    (ms : SeenUids.MessageState) (h b : Buffer) (e : Error) :
  SeenUids.messagePromises f !! m = Some ms ->
  SeenUids.resolved ms = false ->
  SeenUids.ended ms = Some (h, b) ->
  SeenUids.decode simpleParser h b = inl e ->
  let s' := SeenUids.step simpleParser now (c, f) (ParserSettled m) in
  let id := or_zero (SeenUids.messageId ms) in
  SeenUids.seenUIDs s'.1 = SeenUids.seenUIDs c
  /\ SeenUids.emitted s'.1 = SeenUids.emitted c
  /\ (exists ms', SeenUids.messagePromises s'.2 !! m = Some ms'
                  /\ SeenUids.resolved ms' = true)
  /\ (forall uids, id ∈ uids -> id ∉ SeenUids.seenUIDs c ->
        id ∈ SeenUids.newUIDs s'.1 uids)
  /\ (forall t, exists news,
        let c' := (SeenUids.run simpleParser now s' t).1 in
        SeenUids.emitted c' = SeenUids.emitted c ++ news
        /\ SeenUids.seenUIDs c'
           = list_to_set (map uid news) ∪ SeenUids.seenUIDs c).
Proof.
  intros Hl Hres Hend Hdec s' id.
  assert (s' = (c, SeenUids.join
                     (SeenUids.set_messages
                        (<[m := SeenUids.mark_resolved ms]> (SeenUids.messagePromises f)) f)))
    as Hs'.
  { unfold s'. simpl. unfold SeenUids.after_parse. by rewrite Hl, Hres, Hend, Hdec. }
  rewrite Hs'. simpl.
  split; [done|]. split; [done|]. split; [|split].
  - exists (SeenUids.mark_resolved ms). split; [|done].
    rewrite join_messages. simpl. apply list_lookup_insert_eq.
    by eapply lookup_lt_Some.
  - intros uids Hin Hnot. unfold SeenUids.newUIDs. by apply list_elem_of_filter.
  - intros t. destruct (run_grows simpleParser now t c
                          (SeenUids.join
                             (SeenUids.set_messages
                                (<[m := SeenUids.mark_resolved ms]>
                                   (SeenUids.messagePromises f)) f)))
      as (news & He & Hs & _).
    exists news. done.
Qed.

Lemma C10_failed_decode_leaves_seenUIDs_witness :
  let s' := SeenUids.step Scenario.parser Scenario.clock
              (Scenario.subscribed', Scenario.fetch_of_empty_message) (ParserSettled 0) in
  SeenUids.seenUIDs s'.1 = SeenUids.seenUIDs Scenario.subscribed'
  /\ SeenUids.emitted s'.1 = SeenUids.emitted Scenario.subscribed'
  /\ (exists ms', SeenUids.messagePromises s'.2 !! 0%nat = Some ms'
                  /\ SeenUids.resolved ms' = true)
  /\ (forall uids, 2 ∈ uids -> 2 ∉ SeenUids.seenUIDs Scenario.subscribed' ->
        2 ∈ SeenUids.newUIDs s'.1 uids)
  /\ (forall t, exists news,
        let c' := (SeenUids.run Scenario.parser Scenario.clock s' t).1 in
        SeenUids.emitted c' = SeenUids.emitted Scenario.subscribed' ++ news
        /\ SeenUids.seenUIDs c'
           = list_to_set (map uid news) ∪ SeenUids.seenUIDs Scenario.subscribed').
Proof.
  apply (C10_failed_decode_leaves_seenUIDs Scenario.parser Scenario.clock
           Scenario.subscribed' Scenario.fetch_of_empty_message 0
           Scenario.empty_message [] [] (mkError "empty input")); reflexivity.
Defined.

(** ** What a fetch of [src/client.ts] leaves behind *)

Section ClientTsOutcome.

Import ClientTs ClientTsInv.

Variable simpleParser : Buffer -> Error + ParsedMail.
Variable now : Date.

Lemma publish_all_emitted (mails : list Mail) (c : Client) :
  emitted (publish_all mails c) = emitted c ++ mails.
Proof.
  revert c. induction mails as [|mail mails IH]; intros c.
  - simpl. by rewrite app_nil_r.
  - change (publish_all (mail :: mails) c) with (publish_all mails (publish c mail)).
    rewrite IH. simpl. by rewrite <- app_assoc.
Qed.

Lemma publish_all_fields (mails : list Mail) (c : Client) :
  fetchCalls (publish_all mails c) = fetchCalls c
  /\ numMessages (publish_all mails c) = numMessages c
  /\ emitterListeners (publish_all mails c) = emitterListeners c
  /\ mailListeners (publish_all mails c) = mailListeners c
  /\ client (publish_all mails c) = client c.
Proof.
  revert c. induction mails as [|mail mails IH]; intros c; [done|].
  change (publish_all (mail :: mails) c) with (publish_all mails (publish c mail)).
  destruct (IH (publish c mail)) as (-> & -> & -> & -> & ->).
  done.
Qed.

Lemma publish_all_invoked (mails : list Mail) (c : Client) :
  invoked (publish_all mails c)
  = invoked c
    ++ flat_map (fun mail => call_all (emitterListeners c) mail
                             ++ call_all (mailListeners c) mail) mails.
Proof.
  revert c. induction mails as [|mail mails IH]; intros c.
  - simpl. by rewrite app_nil_r.
  - change (publish_all (mail :: mails) c) with (publish_all mails (publish c mail)).
    rewrite IH. simpl. by rewrite <- !app_assoc.
Qed.

Lemma advance_fields (tr : Trigger) (c : Client) :
  fetchCalls (advance tr c) = fetchCalls c
  /\ emitted (advance tr c) = emitted c
  /\ invoked (advance tr c) = invoked c.
Proof. by destruct tr. Qed.

Lemma all_fulfilled_no_rejected (l : list MessageState) (mails : list Mail) :
  all_fulfilled l = Some mails -> first_rejected l = None.
Proof.
  revert mails. induction l as [|p l IH]; intros mails; simpl; [done|].
  destruct (result p); try done.
  destruct (all_fulfilled l) as [ms|]; [|done]. intros _. by eapply IH.
Qed.

(** A decode failure among the awaited messages: the client is untouched and
    the promise of the operation is rejected. *)
Lemma ts_rejected_batch (tr : Trigger) (c : Client) (t : list FetchEvent) (k : nat) :
  let s := ClientTs.run simpleParser now tr (c, mkFetch [] false None false Pending) t in
  endFired s.2 = Some k ->
  first_rejected (take k (messagePromises s.2)) <> None ->
  s.1 = c /\ is_rejected (promise s.2) = true.
Proof.
  intros s Hend Hrej.
  destruct (ts_run_inv simpleParser now tr t c c _ (ts_fetch_inv_start tr c))
    as (_ & Hw & Hf).
  fold s in Hw, Hf.
  destruct (joined s.2) eqn:Hj.
  - destruct (Hf eq_refl) as (k' & Hend' & Hcase).
    assert (k' = k) as -> by congruence.
    destruct Hcase as [(_ & Hc & Hp)|(mails & Hall & _)]; [done|].
    by apply all_fulfilled_no_rejected in Hall.
  - destruct (Hw eq_refl) as (_ & _ & Hnone).
    destruct (Hnone k Hend) as [Hr _]. done.
Qed.

(** Whatever is published by one fetch is the list of fulfilled values of the
    awaited promises, in the order of the [messagePromises] array, which is the
    order of the [message] events. *)
Lemma ts_published_in_array_order (tr : Trigger) (c : Client) (t : list FetchEvent) :
  let s := ClientTs.run simpleParser now tr (c, mkFetch [] false None false Pending) t in
  emitted s.1 = emitted c
  \/ exists k mails,
       endFired s.2 = Some k
       /\ all_fulfilled (take k (messagePromises s.2)) = Some mails
       /\ emitted s.1 = emitted c ++ mails.
Proof.
  intros s.
  destruct (ts_run_inv simpleParser now tr t c c _ (ts_fetch_inv_start tr c))
    as (_ & Hw & Hf).
  fold s in Hw, Hf.
  destruct (joined s.2) eqn:Hj.
  - destruct (Hf eq_refl) as (k & Hend & [(_ & -> & _)|(mails & Hall & -> & _)]).
    + by left.
    + right. exists k, mails. split; [done|]. split; [done|].
      destruct (advance_fields tr (publish_all mails c)) as (_ & -> & _).
      apply publish_all_emitted.
  - destruct (Hw eq_refl) as (-> & _). by left.
Qed.

(** The fetch calls logged by one fetch: its own, and no other. *)
Lemma ts_fetch_calls (tr : Trigger) (c : Client) (request : FetchRequest)
    (t : list FetchEvent) :
  fetchCalls (fetch simpleParser now tr c request t).1 = fetchCalls c ++ [request].
Proof.
  unfold fetch. set (c0 := mkClient _ _ _ _ _ _ _ _ _).
  destruct (ts_run_inv simpleParser now tr t c0 c0 _ (ts_fetch_inv_start tr c0))
    as (_ & Hw & Hf).
  destruct (ClientTs.run simpleParser now tr (c0, _) t) as [c' f']. simpl in *.
  destruct (joined f') eqn:Hj.
  - destruct (Hf eq_refl) as (k & Hend & [(_ & -> & _)|(mails & Hall & -> & _)]).
    + done.
    + destruct (advance_fields tr (publish_all mails c0)) as (-> & _).
      by destruct (publish_all_fields mails c0) as (-> & _).
  - by destruct (Hw eq_refl) as (-> & _).
Qed.

End ClientTsOutcome.

(** C2, as the claim states it, on [src/client.ts]: the first scan publishes
    1, 2, 3; the second scan's search returns 1, 2, 3, 4 and the second scan
    publishes 1, 2, 3 again together with 4. *)
Lemma C2_client_ts_republishes :
  Scenario.first_scan.2 = Fulfilled tt
  /\ Scenario.second_scan.2 = Fulfilled tt
  /\ map uid (published_since [] (ClientTs.emitted Scenario.first_scan.1))
     = [1; 2; 3]
  /\ map uid (published_since (ClientTs.emitted Scenario.first_scan.1)
                (ClientTs.emitted Scenario.second_scan.1))
     = [1; 2; 3; 4]
  /\ ~ (forall u,
          u ∈ map uid (published_since []
                         (ClientTs.emitted Scenario.first_scan.1)) ->
          u ∉ map uid (published_since
                         (ClientTs.emitted Scenario.first_scan.1)
                         (ClientTs.emitted Scenario.second_scan.1))).
Proof.
  split; [reflexivity|]. split; [reflexivity|].
  split; [reflexivity|]. split; [reflexivity|].
  intros H. apply (H 1).
  - change (1 ∈ [1; 2; 3]). apply list_elem_of_here.
  - change (1 ∈ [1; 2; 3; 4]). apply list_elem_of_here.
Qed.

(** C2, amended.  In the edition with [seenUIDs], whatever the first scan
    published is left out of the second scan's fetch: the second scan issues at
    most one fetch call, for the identifiers of its search result that are not
    in [seenUIDs], and none of them was published by the first scan; so when
    the engine delivers only identifiers that were asked for, nothing is
    published twice.  [src/client.ts] keeps no such set: every scan with a
    non-empty search result fetches the whole result. *)
Theorem C2_second_scan_skips_published
    (simpleParser : Buffer -> Error + ParsedMail) (now : Date)
    (c : SeenUids.Client) (sr1 : SearchResult) (t1 : list FetchEvent)
    (uids2 : list N) (t2 : list FetchEvent) :
  let r1 := SeenUids.getUnseenMails simpleParser now c sr1 t1 in
  let r2 := SeenUids.getUnseenMails simpleParser now r1.1 (SearchOk uids2) t2 in
  let first := published_since (SeenUids.emitted c) (SeenUids.emitted r1.1) in
  let second :=
    published_since (SeenUids.emitted r1.1) (SeenUids.emitted r2.1) in
  let asked := SeenUids.newUIDs r1.1 uids2 in
  (forall u, u ∈ map uid first -> u ∉ asked)
  /\ (SeenUids.fetchCalls r2.1 = SeenUids.fetchCalls r1.1 /\ second = []
      \/ SeenUids.fetchCalls r2.1 = SeenUids.fetchCalls r1.1 ++ [IdList asked])
  /\ ((forall mail, mail ∈ second -> uid mail ∈ asked) ->
      forall mail, mail ∈ second -> uid mail ∉ map uid first)
  /\ (forall (d : ClientTs.Client) (uids : list N) (t : list FetchEvent),
        ClientTs.client d = true -> uids <> [] ->
        ClientTs.fetchCalls
          (ClientTs.getUnseenMails simpleParser now d (SearchOk uids) t).1
        = ClientTs.fetchCalls d ++ [IdList uids]).
Proof.
  intros r1 r2 first second asked.
  destruct (getUnseenMails_grows simpleParser now c sr1 t1) as (n1 & He1 & Hs1 & _).
  destruct (getUnseenMails_grows simpleParser now r1.1 (SearchOk uids2) t2)
    as (n2 & He2 & Hs2 & Hf2).
  fold r1 in He1, Hs1. fold r2 in He2, Hs2, Hf2.
  assert (first = n1) as Hfirst
    by (unfold first; rewrite He1; apply published_since_app).
  assert (second = n2) as Hsecond
    by (unfold second; rewrite He2; apply published_since_app).
  assert (forall u, u ∈ map uid first -> u ∉ asked) as Hskip.
  { intros u Hu Hasked. apply list_elem_of_filter in Hasked as [Hnot _].
    apply Hnot. rewrite Hs1, <- Hfirst. apply elem_of_union. left.
    by apply elem_of_list_to_set. }
  split; [exact Hskip|]. split; [|split].
  - destruct Hf2 as [[Hf Hn]|(uids & [= <-] & _ & Hf)].
    + left. split; [done|]. congruence.
    + by right.
  - intros Hfaithful mail Hin Hdup. by apply (Hskip (uid mail)), Hfaithful.
  - intros d uids t Hd Hne. unfold ClientTs.getUnseenMails. rewrite Hd. simpl.
    destruct uids as [|u uids]; [done|]. apply ts_fetch_calls.
Qed.

Lemma C2_second_scan_skips_published_witness :
  SeenUids.newUIDs Scenario.first_scan'.1 [1; 2; 3; 4] = [4]
  /\ (forall mail,
        mail ∈ published_since (SeenUids.emitted Scenario.first_scan'.1)
                 (SeenUids.emitted Scenario.second_scan'.1) ->
        uid mail ∉ map uid (published_since
                              (SeenUids.emitted Scenario.subscribed')
                              (SeenUids.emitted Scenario.first_scan'.1)))
  /\ ClientTs.fetchCalls Scenario.second_scan.1
     = ClientTs.fetchCalls Scenario.first_scan.1 ++ [IdList [1; 2; 3; 4]].
Proof.
  pose proof (C2_second_scan_skips_published Scenario.parser Scenario.clock
                Scenario.subscribed' (SearchOk [1; 2; 3]) Scenario.three_messages
                [1; 2; 3; 4] Scenario.fourth_message) as (_ & _ & Hdedup & Hts).
  split; [vm_compute; reflexivity|]. split.
  - apply Hdedup. intros mail Hin.
    assert (published_since (SeenUids.emitted Scenario.first_scan'.1)
              (SeenUids.emitted Scenario.second_scan'.1)
            = [SeenUids.buildMail Scenario.clock (Some 4)
                 (mkParsedMail AddrUndefined AddrUndefined (Some "d"%string) None None None)
                 (mkParsedMail AddrUndefined AddrUndefined (Some "w"%string) None None None)])
      as Heq by (vm_compute; reflexivity).
    change (mail ∈ published_since (SeenUids.emitted Scenario.first_scan'.1)
                     (SeenUids.emitted Scenario.second_scan'.1)) in Hin.
    rewrite Heq in Hin.
    apply list_elem_of_singleton in Hin as ->.
    vm_compute. apply list_elem_of_here.
  - apply (Hts Scenario.first_scan.1 [1; 2; 3; 4] Scenario.four_messages).
    + reflexivity.
    + discriminate.
Defined.

(** ** Whole batches *)

Section Lists.





End Lists.

Section DeliverFields.

Lemma seen_deliver_fields (parts : list (string * Buffer)) (ms : SeenUids.MessageState) :
  SeenUids.header (SeenUids.deliver parts ms)
  = SeenUids.header ms
    ++ map snd (List.filter (fun part => negb (String.eqb part.1 "TEXT")) parts)
  /\ SeenUids.body (SeenUids.deliver parts ms)
     = SeenUids.body ms
       ++ map snd (List.filter (fun part => String.eqb part.1 "TEXT") parts)
  /\ SeenUids.ended (SeenUids.deliver parts ms) = SeenUids.ended ms
  /\ SeenUids.messageId (SeenUids.deliver parts ms) = SeenUids.messageId ms.
Proof.
  revert ms. induction parts as [|[which chunk] parts IH]; intros ms.
  - simpl. by rewrite !app_nil_r.
  - change (SeenUids.deliver ((which, chunk) :: parts) ms)
      with (SeenUids.deliver parts (SeenUids.on_body which chunk ms)).
    destruct (IH (SeenUids.on_body which chunk ms)) as (-> & -> & -> & ->).
    unfold SeenUids.on_body. simpl.
    destruct (String.eqb which "TEXT"); simpl; by rewrite <- ?app_assoc.
Qed.

Lemma ts_deliver_fields (parts : list (string * Buffer)) (ms : ClientTs.MessageState) :
  ClientTs.chunks (ClientTs.deliver parts ms) = ClientTs.chunks ms ++ map snd parts
  /\ ClientTs.ended (ClientTs.deliver parts ms) = ClientTs.ended ms.
Proof.
  revert ms. induction parts as [|[which chunk] parts IH]; intros ms.
  - simpl. by rewrite app_nil_r.
  - change (ClientTs.deliver ((which, chunk) :: parts) ms)
      with (ClientTs.deliver parts (ClientTs.on_body chunk ms)).
    destruct (IH (ClientTs.on_body chunk ms)) as (-> & ->).
    simpl. by rewrite <- app_assoc.
Qed.



End DeliverFields.

Section SeenUidsBatches.

Import SeenUids SeenUidsInv.

Variable simpleParser : Buffer -> Error + ParsedMail.
Variable now : Date.

Local Abbreviation srun := (SeenUids.run simpleParser now).
Local Abbreviation sstep := (SeenUids.step simpleParser now).












End SeenUidsBatches.

Section ClientTsBatches.

Import ClientTs ClientTsInv.

Variable simpleParser : Buffer -> Error + ParsedMail.
Variable now : Date.

Local Abbreviation trun := (ClientTs.run simpleParser now).
Local Abbreviation tstep := (ClientTs.step simpleParser now).

Lemma ts_join_messages (tr : Trigger) (c : Client) (f : Fetch) :
  messagePromises (ClientTs.join tr c f).2 = messagePromises f.
Proof.
  unfold ClientTs.join. destruct (endFired f); [|done]. destruct (joined f); [done|].
  destruct (first_rejected _); [done|]. by destruct (all_fulfilled _).
Qed.

(** Every settled message promise was settled by decoding that message's own
    joined chunks. *)
Lemma ts_provenance_run (tr : Trigger) (t : list FetchEvent) (c : Client) (f : Fetch) :
  Forall (provenance simpleParser now) (messagePromises f) ->
  Forall (provenance simpleParser now)
    (messagePromises (ClientTs.run simpleParser now tr (c, f) t).2).
Proof.
  revert c f. induction t as [|ev t IH]; intros c f Hp; [done|].
  change (ClientTs.run simpleParser now tr (c, f) (ev :: t))
    with (ClientTs.run simpleParser now tr (ClientTs.step simpleParser now tr (c, f) ev) t).
  assert (Forall (provenance simpleParser now)
            (messagePromises (ClientTs.step simpleParser now tr (c, f) ev).2)) as Hs.
  { destruct ev as [seqno|m which chunk|m u|m|m|e|]; simpl.
    - apply Forall_app. split; [done|]. by apply Forall_singleton.
    - apply Forall_alter; [done|]. by intros ms _ Hms.
    - apply Forall_alter; [done|]. intros ms _ Hms. unfold on_attributes.
      by destruct (attributesSeen ms).
    - apply Forall_alter; [done|]. intros ms _ Hms. unfold on_end.
      destruct (ended ms) eqn:He; [done|].
      unfold provenance, decoded_from in *. simpl.
      destruct (result ms); [done| |].
      + destruct Hms as (? & ? & ? & ? & _). congruence.
      + destruct Hms as (? & ? & _). congruence.
    - rewrite ts_join_messages. unfold after_parse.
      destruct (messagePromises f !! m) as [ms|] eqn:Hl; [|done].
      destruct (ended ms) as [fullMessage|] eqn:He; [|done].
      destruct (result ms) eqn:Hr; try done.
      simpl. apply Forall_insert; [done|].
      unfold provenance, decoded_from. simpl.
      destruct (simpleParser fullMessage) as [err|parsed] eqn:Hparse; simpl; eauto 6.
    - destruct (errorFired f); done.
    - destruct (endFired f); [done|]. by rewrite ts_join_messages. }
  destruct (ClientTs.step simpleParser now tr (c, f) ev) as [c1 f1]. by apply IH.
Qed.

















End ClientTsBatches.

(** ** Listeners that throw *)

Section CallLoop.

Lemma call_until_throw_prefix (throws : Behaviour) (ls : list Listener) (mail : Mail) :
  (call_until_throw throws ls mail).1 `prefix_of` call_all ls mail
  /\ ((call_until_throw throws ls mail).2 = None ->
      (call_until_throw throws ls mail).1 = call_all ls mail).
Proof.
  induction ls as [|l ls [IH1 IH2]]; simpl.
  - split; [done|done].
  - destruct (throws l mail) as [e|]; simpl.
    + split; [|done]. by exists (call_all ls mail).
    + destruct (call_until_throw throws ls mail) as [calls thrown]. simpl in *.
      split; [by apply prefix_cons|]. intros H. by rewrite IH2.
Qed.

(** Without an exception every listener is called. *)
Lemma call_until_throw_returns (throws : Behaviour) (ls : list Listener) (mail : Mail) :
  (forall l, l ∈ ls -> throws l mail = None) ->
  call_until_throw throws ls mail = (call_all ls mail, None).
Proof.
  induction ls as [|l ls IH]; intros H; [done|]. simpl.
  rewrite (H l) by apply list_elem_of_here.
  rewrite IH; [done|]. intros x Hx. apply H. by apply list_elem_of_further.
Qed.

(** The listeners behind the first one that throws are not called. *)
Lemma call_until_throw_stops (throws : Behaviour) (pre post : list Listener)
    (l : Listener) (mail : Mail) (e : Error) :
  (forall x, x ∈ pre -> throws x mail = None) -> throws l mail = Some e ->
  call_until_throw throws (pre ++ l :: post) mail = (call_all (pre ++ [l]) mail, Some e).
Proof.
  intros Hpre Hl. induction pre as [|x pre IH]; simpl.
  - by rewrite Hl.
  - rewrite (Hpre x) by apply list_elem_of_here.
    rewrite IH; [done|]. intros y Hy. apply Hpre. by apply list_elem_of_further.
Qed.

End CallLoop.

Section SeenUidsThrowing.

Import SeenUids SeenUidsInv.

Variable simpleParser : Buffer -> Error + ParsedMail.
Variable now : Date.
Variable throws : Behaviour.

Lemma seen_step_throwing (c1 c0 : Client) (f : Fetch) (ev : FetchEvent) :
  fewer_calls c1 c0 ->
  (step_throwing simpleParser now throws (c1, f) ev).2
  = (SeenUids.step simpleParser now (c0, f) ev).2
  /\ fewer_calls (step_throwing simpleParser now throws (c1, f) ev).1
       (SeenUids.step simpleParser now (c0, f) ev).1.
Proof.
  intros HR.
  destruct ev as [seqno|m which chunk|m u|m|m|e|]; simpl; try done.
  - unfold after_parse_throwing, after_parse.
    destruct (messagePromises f !! m) as [ms|]; [|done].
    destruct (resolved ms); [done|].
    destruct (ended ms) as [[h b]|]; [|done].
    destruct (decode simpleParser h b) as [?|[ph pb]]; [done|].
    simpl. split; [done|].
    destruct HR as (H1 & H2 & H3 & H4 & H5 & H6 & H7 & H8).
    unfold fewer_calls. simpl. rewrite H1, H2, H3, H4, H5, H6, H7.
    repeat split; try done.
    apply sublist_app; [done|].
    destruct (call_until_throw_prefix throws (listeners c0) (buildMail now (messageId ms) ph pb))
      as ([k ->] & _).
    by apply sublist_inserts_r.
  - by destruct (errorFired f).
  - by destruct (endFired f).
Qed.

Lemma seen_run_throwing (t : list FetchEvent) (c1 c0 : Client) (f : Fetch) :
  fewer_calls c1 c0 ->
  (run_throwing simpleParser now throws (c1, f) t).2
  = (SeenUids.run simpleParser now (c0, f) t).2
  /\ fewer_calls (run_throwing simpleParser now throws (c1, f) t).1
       (SeenUids.run simpleParser now (c0, f) t).1.
Proof.
  revert c1 c0 f. induction t as [|ev t IH]; intros c1 c0 f HR; [done|].
  change (run_throwing simpleParser now throws (c1, f) (ev :: t))
    with (run_throwing simpleParser now throws
            (step_throwing simpleParser now throws (c1, f) ev) t).
  change (SeenUids.run simpleParser now (c0, f) (ev :: t))
    with (SeenUids.run simpleParser now (SeenUids.step simpleParser now (c0, f) ev) t).
  destruct (seen_step_throwing c1 c0 f ev HR) as (Hf & HR').
  destruct (step_throwing simpleParser now throws (c1, f) ev) as [c1' f1].
  destruct (SeenUids.step simpleParser now (c0, f) ev) as [c0' f0].
  simpl in Hf, HR'. subst f1. by apply IH.
Qed.

Lemma seen_run_throwing_returns (t : list FetchEvent) (s : Client * Fetch) :
  (forall l mail, throws l mail = None) ->
  run_throwing simpleParser now throws s t = SeenUids.run simpleParser now s t.
Proof.
  intros Hnone. revert s. induction t as [|ev t IH]; intros s; [done|].
  change (run_throwing simpleParser now throws s (ev :: t))
    with (run_throwing simpleParser now throws
            (step_throwing simpleParser now throws s ev) t).
  change (SeenUids.run simpleParser now s (ev :: t))
    with (SeenUids.run simpleParser now (SeenUids.step simpleParser now s ev) t).
  rewrite IH. f_equal.
  destruct s as [c f]. destruct ev as [seqno|m which chunk|m u|m|m|e|]; try done.
  simpl. unfold after_parse_throwing, after_parse.
  destruct (messagePromises f !! m) as [ms|]; [|done].
  destruct (resolved ms); [done|].
  destruct (ended ms) as [[h b]|]; [|done].
  destruct (decode simpleParser h b) as [?|[ph pb]]; [done|].
  unfold publish_throwing, publish.
  rewrite call_until_throw_returns; [done|]. intros l _. apply Hnone.
Qed.

End SeenUidsThrowing.




(** ** Subscribers and deliveries *)

Section Deliveries.

Lemma calls_of_app (h : Listener) (l1 l2 : list (Listener * Mail)) :
  calls_of h (l1 ++ l2) = (calls_of h l1 + calls_of h l2)%nat.
Proof. unfold calls_of. by rewrite filter_app, length_app. Qed.

(** One [emit] calls [h] as often as [h] is registered. *)
Lemma calls_of_call_all (h : Listener) (ls : list Listener) (mail : Mail) :
  calls_of h (call_all ls mail) = length (filter (fun l => l = h) ls).
Proof.
  unfold calls_of, call_all. induction ls as [|l ls IH]; [done|].
  simpl. rewrite !filter_cons. simpl.
  destruct (decide (l = h)); simpl; by rewrite IH.
Qed.

(** [src/client.ts]: each published mail reaches [h] once per registration in
    the emitter and once more per registration in [mailListeners]. *)
Lemma ts_calls_of_publish_all (h : Listener) (mails : list Mail) (c : ClientTs.Client) :
  calls_of h (ClientTs.invoked (ClientTs.publish_all mails c))
  = (calls_of h (ClientTs.invoked c)
     + length mails
       * (length (filter (fun l => l = h) (ClientTs.emitterListeners c))
          + length (filter (fun l => l = h) (ClientTs.mailListeners c))))%nat.
Proof.
  rewrite publish_all_invoked, calls_of_app. f_equal.
  induction mails as [|mail mails IH]; [done|].
  simpl. rewrite !calls_of_app, !calls_of_call_all, IH. lia.
Qed.

(** A handler subscribed through [on] of [src/client.ts], and not registered
    before, is called twice for every published mail. *)
Lemma ts_on_delivers_twice (h : Listener) (mails : list Mail) (c : ClientTs.Client) :
  h ∉ ClientTs.emitterListeners c -> h ∉ ClientTs.mailListeners c ->
  calls_of h (ClientTs.invoked (ClientTs.publish_all mails (ClientTs.on h c)))
  = (calls_of h (ClientTs.invoked c) + 2 * length mails)%nat.
Proof.
  intros H1 H2. rewrite ts_calls_of_publish_all. simpl.
  rewrite !filter_app, !length_app, !filter_cons, !filter_nil. simpl.
  destruct (decide (h = h)); [|done]. simpl.
  assert (forall ls : list Listener, h ∉ ls -> filter (fun l => l = h) ls = []) as Hnone.
  { intros ls Hls. induction ls as [|l ls IH]; [done|].
    rewrite filter_cons. apply not_elem_of_cons in Hls as [Hne Hls].
    destruct (decide (l = h)); [congruence|]. by apply IH. }
  rewrite (Hnone _ H1), (Hnone _ H2). simpl. lia.
Qed.

(** The edition with [seenUIDs] calls it once. *)
Lemma seen_on_delivers_once (h : Listener) (mail : Mail) (c : SeenUids.Client) :
  h ∉ SeenUids.listeners c ->
  calls_of h (SeenUids.invoked (SeenUids.publish mail (SeenUids.on h c)))
  = (calls_of h (SeenUids.invoked c) + 1)%nat.
Proof.
  intros H1. simpl. rewrite calls_of_app, calls_of_call_all. f_equal.
  rewrite filter_app, length_app, !filter_cons, filter_nil.
  destruct (decide (h = h)); [|done]. simpl.
  assert (filter (fun l => l = h) (SeenUids.listeners c) = []) as ->; [|done].
  induction (SeenUids.listeners c) as [|l ls IH]; [done|].
  rewrite filter_cons. apply not_elem_of_cons in H1 as [Hne Hls].
  destruct (decide (l = h)); [congruence|]. by apply IH.
Qed.

End Deliveries.

(** C1, on [src/client.ts]: one handler subscribed through [on("mail", ...)],
    a scan whose fetch yields three messages; the three records are published
    and the handler is called six times, twice per record. *)
Theorem C1_handler_called_twice_per_record :
  Scenario.first_scan.2 = Fulfilled tt
  /\ map uid (ClientTs.emitted Scenario.first_scan.1) = [1; 2; 3]
  /\ map (fun call => uid call.2) (ClientTs.invoked Scenario.first_scan.1)
     = [1; 1; 2; 2; 3; 3]
  /\ calls_of Scenario.subscriber (ClientTs.invoked Scenario.first_scan.1) = 6%nat.
Proof. repeat split; reflexivity. Qed.

(** C3, on the edition with [seenUIDs]: the [message] events arrive in the
    order 1, 2 and the decoding of 2 settles first; the records are published
    in the order 2, 1.  On the same events [src/client.ts] publishes 1, 2. *)
Theorem C3_seen_uids_publishes_in_decode_order :
  Scenario.out_of_order'.2 = Fulfilled tt
  /\ map uid (SeenUids.emitted Scenario.out_of_order'.1) = [2; 1]
  /\ Scenario.out_of_order.2 = Fulfilled tt
  /\ map uid (ClientTs.emitted Scenario.out_of_order.1) = [1; 2].
Proof. repeat split; reflexivity. Qed.

(** C5, on both editions: after [create] and [close()], the client still holds
    its connection object, so [getUnseenMails] passes its guard and, when the
    engine answers the search with an empty list, resolves; [switchMailbox]
    has no guard and resolves with the box the engine hands back. *)
Theorem C5_operations_after_close_resolve :
  ClientTs.create Scenario.config None Scenario.handshake = Fulfilled Scenario.connected
  /\ ClientTs.close Scenario.connected = (Scenario.closed, Fulfilled tt)
  /\ ClientTs.client Scenario.closed = true
  /\ ClientTs.getUnseenMails Scenario.parser Scenario.clock Scenario.closed
       (SearchOk []) [] = (Scenario.closed, Fulfilled tt)
  /\ (ClientTs.switchMailbox Scenario.closed (Some (inr Scenario.archive))).2
     = Fulfilled Scenario.archive
  /\ SeenUids.client Scenario.closed' = true
  /\ SeenUids.getUnseenMails Scenario.parser Scenario.clock Scenario.closed'
       (SearchOk []) [] = (Scenario.closed', Fulfilled tt)
  /\ (SeenUids.switchMailbox Scenario.closed' (Some (inr Scenario.archive))).2
     = Fulfilled Scenario.archive.
Proof. repeat split; reflexivity. Qed.

(** [close()] never clears the connection object the guard looks at. *)
Lemma close_keeps_client (c : ClientTs.Client) (c' : SeenUids.Client) :
  ClientTs.client (ClientTs.close c).1 = ClientTs.client c
  /\ SeenUids.client (SeenUids.close c').1 = SeenUids.client c'
  /\ SeenUids.currentBox (SeenUids.close c').1 = SeenUids.currentBox c'.
Proof.
  unfold ClientTs.close, SeenUids.close.
  destruct (ClientTs.client c) eqn:H, (SeenUids.client c') eqn:H'; simpl; auto.
Qed.

(** C6, on [src/client.ts]: baseline 100, two new messages announced; the
    fetch is issued for the range 101:102; the fetch emits [error], which
    rejects the operation, and then [end], whose handler finds nothing to wait
    for and moves the baseline to 102. *)
Theorem C6_baseline_moves_after_fetch_error :
  ClientTs.numMessages Scenario.subscribed = 100
  /\ ClientTs.fetchCalls Scenario.push_then_error.1 = [SeqRange 101 102]
  /\ Scenario.push_then_error.2 = Rejected Scenario.fetch_failed
  /\ ClientTs.numMessages Scenario.push_then_error.1 = 102.
Proof. repeat split; reflexivity. Qed.

(** ** The baseline of [fetchNewMessages] *)

Section Baseline.

Import ClientTs ClientTsInv.

Variable simpleParser : Buffer -> Error + ParsedMail.
Variable now : Date.

(** The fetch is issued for [numMessages + 1 : numMessages + numNew]. *)
Lemma push_fetch_range (c : Client) (numNew : N) (t : list FetchEvent) :
  client c = true ->
  fetchCalls (fetchNewMessages simpleParser now c numNew t).1
  = fetchCalls c ++ [SeqRange (numMessages c + 1) (numMessages c + numNew)].
Proof.
  intros Hc. unfold fetchNewMessages. rewrite Hc. simpl. apply ts_fetch_calls.
Qed.

(** The baseline is either where it was, or [numNew] further, and then the
    [end] handler has seen every awaited message decoded and has published
    their mails. *)
Lemma push_baseline (c : Client) (numNew : N) (t : list FetchEvent) :
  let s := ClientTs.run simpleParser now (NewMessages numNew)
             (c, mkFetch [] false None false Pending) t in
  numMessages s.1 = numMessages c /\ emitted s.1 = emitted c
  \/ exists k mails,
       endFired s.2 = Some k
       /\ all_fulfilled (take k (messagePromises s.2)) = Some mails
       /\ numMessages s.1 = numMessages c + numNew
       /\ emitted s.1 = emitted c ++ mails.
Proof.
  intros s.
  destruct (ts_run_inv simpleParser now (NewMessages numNew) t c c _
              (ts_fetch_inv_start (NewMessages numNew) c)) as (_ & Hw & Hf).
  fold s in Hw, Hf.
  destruct (joined s.2) eqn:Hj.
  - destruct (Hf eq_refl) as (k & Hend & [(_ & -> & _)|(mails & Hall & -> & _)]).
    + by left.
    + right. exists k, mails. split; [done|]. split; [done|]. simpl.
      destruct (publish_all_fields mails c) as (_ & -> & _).
      split; [done|]. apply publish_all_emitted.
  - destruct (Hw eq_refl) as (-> & _). by left.
Qed.

(** A fulfilled [fetchNewMessages] has moved the baseline by [numNew]. *)
Lemma push_fulfilled_advances (c : Client) (numNew : N) (t : list FetchEvent) :
  let s := ClientTs.run simpleParser now (NewMessages numNew)
             (c, mkFetch [] false None false Pending) t in
  promise s.2 = Fulfilled tt -> numMessages s.1 = numMessages c + numNew.
Proof.
  intros s Hp.
  destruct (ts_run_inv simpleParser now (NewMessages numNew) t c c _
              (ts_fetch_inv_start (NewMessages numNew) c)) as (_ & Hw & Hf).
  fold s in Hw, Hf.
  destruct (joined s.2) eqn:Hj.
  - destruct (Hf eq_refl) as (k & Hend & [(_ & _ & Hr)|(mails & Hall & -> & _)]).
    + by rewrite Hp in Hr.
    + simpl. by destruct (publish_all_fields mails c) as (_ & -> & _).
  - by destruct (Hw eq_refl) as (_ & Hnot & _).
Qed.

(** A decode failure among the awaited messages leaves the baseline alone. *)
Lemma push_decode_failure_keeps_baseline (c : Client) (numNew : N)
    (t : list FetchEvent) (k : nat) :
  let s := ClientTs.run simpleParser now (NewMessages numNew)
             (c, mkFetch [] false None false Pending) t in
  endFired s.2 = Some k ->
  first_rejected (take k (messagePromises s.2)) <> None ->
  numMessages s.1 = numMessages c /\ is_rejected (promise s.2) = true.
Proof.
  intros s Hend Hrej.
  destruct (ts_rejected_batch simpleParser now (NewMessages numNew) c t k Hend Hrej)
    as [Hc Hp].
  fold s in Hc, Hp. by rewrite Hc.
Qed.

End Baseline.

(** The announcement of two messages at baseline 100, both decoded: the range
    is 101:102, the operation is fulfilled and the baseline is 102. *)
Example push_then_two_advances :
  ClientTs.fetchCalls Scenario.push_then_two.1 = [SeqRange 101 102]
  /\ Scenario.push_then_two.2 = Fulfilled tt
  /\ ClientTs.numMessages Scenario.push_then_two.1 = 102
  /\ map uid (ClientTs.emitted Scenario.push_then_two.1) = [1; 2].
Proof. repeat split; reflexivity. Qed.

(** The batch with one undecodable message on the edition with [seenUIDs]: the
    scan is fulfilled, the record of message 1 is published, and only 1 enters
    [seenUIDs], so 2 is asked for again by the next scan. *)
Example seen_uids_skips_undecodable :
  Scenario.bad_batch'.2 = Fulfilled tt
  /\ map uid (SeenUids.emitted Scenario.bad_batch'.1) = [1]
  /\ SeenUids.newUIDs Scenario.bad_batch'.1 [1; 2] = [2].
Proof. repeat split; vm_compute; reflexivity. Qed.

(** The two scans of the claim's scenario on the edition with [seenUIDs]: the
    second fetch asks for 4 only and only 4 is published; each record reaches
    the subscriber once. *)
Example seen_uids_two_scans :
  map uid (SeenUids.emitted Scenario.first_scan'.1) = [1; 2; 3]
  /\ SeenUids.fetchCalls Scenario.second_scan'.1 = [IdList [1; 2; 3]; IdList [4]]
  /\ map uid (published_since (SeenUids.emitted Scenario.first_scan'.1)
                (SeenUids.emitted Scenario.second_scan'.1)) = [4]
  /\ calls_of Scenario.subscriber (SeenUids.invoked Scenario.second_scan'.1) = 4%nat.
Proof. repeat split; vm_compute; reflexivity. Qed.

(** After [close()], a connected client behaves towards [getUnseenMails] and
    [switchMailbox] as before: the guard passes and the engine's answer
    decides. *)
Lemma after_close_engine_decides
    (simpleParser : Buffer -> Error + ParsedMail) (now : Date)
    (c : ClientTs.Client) (t : list FetchEvent) (reply : option (Error + Box)) :
  ClientTs.client c = true ->
  ClientTs.getUnseenMails simpleParser now (ClientTs.close c).1 (SearchOk []) t
  = ((ClientTs.close c).1, Fulfilled tt)
  /\ ClientTs.getUnseenMails simpleParser now (ClientTs.close c).1 SearchSilent t
     = ((ClientTs.close c).1, Pending)
  /\ (ClientTs.switchMailbox (ClientTs.close c).1 reply).2
     = (ClientTs.switchMailbox c reply).2.
Proof.
  intros Hc. unfold ClientTs.close, ClientTs.getUnseenMails, ClientTs.switchMailbox.
  rewrite Hc. simpl.
  repeat split. by destruct reply as [[err|box]|].
Qed.

(** * Further properties of the code *)

(** ** Subscribing and unsubscribing in [src/client.ts] *)

Section Unsubscribe.

Import ClientTs.

Lemma filter_absent (h : Listener) (ls : list Listener) :
  h ∉ ls -> filter (fun l => l = h) ls = [].
Proof.
  intros Hls. induction ls as [|l ls IH]; [done|].
  rewrite filter_cons. apply not_elem_of_cons in Hls as [Hne Hls].
  destruct (decide (l = h)); [congruence|]. by apply IH.
Qed.

Lemma remove_first_absent (h : Listener) (ls : list Listener) :
  h ∉ ls -> remove_first h ls = ls.
Proof.
  intros Hls. induction ls as [|l ls IH]; [done|].
  apply not_elem_of_cons in Hls as [Hne Hls]. simpl.
  destruct (Nat.eqb_spec l h); [congruence|]. by rewrite IH.
Qed.

Lemma remove_first_snoc (h : Listener) (ls : list Listener) :
  h ∉ ls -> remove_first h (ls ++ [h]) = ls.
Proof.
  intros Hls. induction ls as [|l ls IH]; simpl.
  - by rewrite Nat.eqb_refl.
  - apply not_elem_of_cons in Hls as [Hne Hls].
    destruct (Nat.eqb_spec l h); [congruence|]. by rewrite IH.
Qed.

Lemma remove_first_present (h : Listener) (ls : list Listener) :
  h ∈ ls -> S (length (remove_first h ls)) = length ls.
Proof.
  intros Hls. induction ls as [|l ls IH]; [by apply elem_of_nil in Hls|].
  simpl. destruct (Nat.eqb_spec l h); [done|].
  apply elem_of_cons in Hls as [Heq|Hls]; [congruence|].
  simpl. by rewrite IH.
Qed.

Lemma remove_first_sublist (h : Listener) (ls : list Listener) :
  sublist (remove_first h ls) ls.
Proof.
  induction ls as [|l ls IH]; [done|]. simpl.
  destruct (Nat.eqb l h); [by apply sublist_cons|by apply sublist_skip].
Qed.

End Unsubscribe.

(** X1. [src/client.ts]: a handler that was subscribed with [on] and then taken
    out with [removeMailListener] is still called, once for every mail
    published afterwards: only the side list forgets it, the emitter does
    not. *)
Theorem X1_removed_listener_still_called
    (h : Listener) (mails : list Mail) (c : ClientTs.Client) :
  h ∉ ClientTs.emitterListeners c -> h ∉ ClientTs.mailListeners c ->
  let c' := ClientTs.removeMailListener h (ClientTs.on h c) in
  ClientTs.mailListeners c' = ClientTs.mailListeners c
  /\ ClientTs.emitterListeners c' = ClientTs.emitterListeners c ++ [h]
  /\ calls_of h (ClientTs.invoked (ClientTs.publish_all mails c'))
     = (calls_of h (ClientTs.invoked c) + length mails)%nat.
Proof.
  intros H1 H2 c'. unfold c'. simpl.
  rewrite (remove_first_snoc h _ H2). split; [done|]. split; [done|].
  rewrite ts_calls_of_publish_all. simpl.
  rewrite (remove_first_snoc h _ H2).
  rewrite filter_app, length_app, filter_cons, filter_nil.
  rewrite (filter_absent h _ H1), (filter_absent h _ H2).
  destruct (decide (h = h)); [|done]. simpl. lia.
Qed.

Lemma X1_removed_listener_still_called_witness :
  calls_of Scenario.subscriber
    (ClientTs.invoked
       (ClientTs.publish_all (ClientTs.emitted Scenario.first_scan.1)
          (ClientTs.removeMailListener Scenario.subscriber
             (ClientTs.on Scenario.subscriber Scenario.connected))))
  = (calls_of Scenario.subscriber (ClientTs.invoked Scenario.connected)
     + length (ClientTs.emitted Scenario.first_scan.1))%nat.
Proof.
  apply (X1_removed_listener_still_called Scenario.subscriber
           (ClientTs.emitted Scenario.first_scan.1) Scenario.connected);
    apply not_elem_of_nil.
Defined.

(** X2. [src/client.ts]: [removeMailListener] never touches the emitter; with
    a handler that is not in [mailListeners] it changes nothing at all, and
    with one that is there it takes out exactly one registration, so a handler
    subscribed twice stays subscribed once. *)
Theorem X2_removeMailListener_one_registration (h : Listener) (c : ClientTs.Client) :
  ClientTs.emitterListeners (ClientTs.removeMailListener h c)
  = ClientTs.emitterListeners c
  /\ (h ∉ ClientTs.mailListeners c -> ClientTs.removeMailListener h c = c)
  /\ (h ∈ ClientTs.mailListeners c ->
      S (length (ClientTs.mailListeners (ClientTs.removeMailListener h c)))
      = length (ClientTs.mailListeners c))
  /\ (h ∉ ClientTs.mailListeners c ->
      ClientTs.mailListeners
        (ClientTs.removeMailListener h (ClientTs.on h (ClientTs.on h c)))
      = ClientTs.mailListeners c ++ [h]).
Proof.
  split; [done|]. split; [|split].
  - intros Hh. destruct c. unfold ClientTs.removeMailListener. simpl in *.
    by rewrite remove_first_absent.
  - intros Hh. simpl. by apply remove_first_present.
  - simpl. induction (ClientTs.mailListeners c) as [|l ls IH]; intros Hh; simpl.
    + by rewrite Nat.eqb_refl.
    + apply not_elem_of_cons in Hh as [Hne Hh].
      destruct (Nat.eqb_spec l h); [congruence|]. by rewrite IH.
Qed.

Lemma X2_removeMailListener_one_registration_witness :
  ClientTs.removeMailListener 8%nat Scenario.subscribed = Scenario.subscribed
  /\ S (length (ClientTs.mailListeners
                  (ClientTs.removeMailListener Scenario.subscriber Scenario.subscribed)))
     = length (ClientTs.mailListeners Scenario.subscribed).
Proof.
  pose proof (X2_removeMailListener_one_registration 8%nat Scenario.subscribed)
    as (_ & Habsent & _).
  pose proof (X2_removeMailListener_one_registration Scenario.subscriber Scenario.subscribed)
    as (_ & _ & Hpresent & _).
  split.
  - apply Habsent. compute_done.
  - apply Hpresent. compute_done.
Defined.

(** X3. [extractAddresses]: an address is in the result for an array of
    address objects exactly when it is in the [value] of one of them; the
    array of two arrays joined gives the two results joined, and the array
    holding a single object gives what the object alone gives. *)
Theorem X3_extractAddresses_array (os1 os2 : list AddressObject) (o : AddressObject)
    (a : EmailAddress) :
  (In a (extractAddresses (AddrArray os1)) <-> exists x, In x os1 /\ In a (value x))
  /\ extractAddresses (AddrArray (os1 ++ os2))
     = extractAddresses (AddrArray os1) ++ extractAddresses (AddrArray os2)
  /\ extractAddresses (AddrArray [o]) = extractAddresses (AddrOne o)
  /\ length (extractAddresses (AddrArray os1))
     = list_sum (map (fun x => length (value x)) os1).
Proof.
  split; [apply in_flat_map|]. split; [apply flat_map_app|].
  split; [simpl; apply app_nil_r|].
  simpl. induction os1 as [|x os IH]; [done|].
  simpl. by rewrite length_app, IH.
Qed.

(** ** [context.ts] *)

(** X4. [withContext] followed by [fromContext] gives back the client; the
    other keys of the context keep their values; storing a second client
    replaces the first; and a context without the key, or with a falsy value
    under it, gives [null]. *)
Theorem X4_context_round_trip
    (ctx : gmap string Context.JsValue) (c1 c2 : ClientTs.Client) (k : string)
    (v : Context.JsValue) :
  Context.fromContext (Context.withContext ctx c1) = Context.JsClient c1
  /\ (k <> Context.MAILSTREAM_KEY -> Context.withContext ctx c1 !! k = ctx !! k)
  /\ Context.withContext (Context.withContext ctx c1) c2 = Context.withContext ctx c2
  /\ (ctx !! Context.MAILSTREAM_KEY = None -> Context.fromContext ctx = Context.JsNull)
  /\ (ctx !! Context.MAILSTREAM_KEY = Some v -> Context.truthy v = false ->
      Context.fromContext ctx = Context.JsNull).
Proof.
  unfold Context.fromContext, Context.withContext.
  split; [by rewrite lookup_insert_eq|].
  split; [intros Hk; by rewrite lookup_insert_ne|].
  split; [apply insert_insert_eq|].
  split; [by intros ->|]. intros -> Hv. by rewrite Hv.
Qed.

Lemma X4_context_round_trip_witness :
  Context.withContext (<["user" := Context.JsString "ann"]> ∅) Scenario.connected
    !! "user"%string
  = Some (Context.JsString "ann")
  /\ Context.fromContext (<["user" := Context.JsString "ann"]> ∅) = Context.JsNull
  /\ Context.fromContext (<[Context.MAILSTREAM_KEY := Context.JsNumber 0]> ∅)
     = Context.JsNull.
Proof.
  pose proof (X4_context_round_trip (<["user" := Context.JsString "ann"]> ∅)
                Scenario.connected Scenario.connected "user" Context.JsNull)
    as (_ & Hother & _ & Hnone & _).
  pose proof (X4_context_round_trip (<[Context.MAILSTREAM_KEY := Context.JsNumber 0]> ∅)
                Scenario.connected Scenario.connected "user" (Context.JsNumber 0))
    as (_ & _ & _ & _ & Hfalsy).
  split; [|split].
  - rewrite Hother; [|discriminate]. by rewrite lookup_insert_eq.
  - apply Hnone. reflexivity.
  - apply Hfalsy; reflexivity.
Defined.

(** ** What [create] hands out *)

Section CreateFacts.

Import ClientTs.

Variable config : Config.

(** Along [connect]: the connection object is set; a selected mailbox is one
    the engine delivered, and the baseline is its total; a fulfilled promise
    means the mailbox is selected and the push listener installed. *)
Lemma connect_selected (t seen : list ConnEvent) (s : Connecting) :
  (client (self s) = true
   /\ (forall box, currentBox (self s) = Some box ->
         numMessages (self s) = total box /\ In (OpenBoxReply (inr box)) seen)
   /\ (outcome s = Fulfilled tt ->
         is_Some (currentBox (self s)) /\ pushListener s = true)) ->
  let s' := fold_left (connect_step config) t s in
  client (self s') = true
  /\ (forall box, currentBox (self s') = Some box ->
        numMessages (self s') = total box /\ In (OpenBoxReply (inr box)) (seen ++ t))
  /\ (outcome s' = Fulfilled tt ->
        is_Some (currentBox (self s')) /\ pushListener s' = true).
Proof.
  revert seen s. induction t as [|ev t IH]; intros seen s Hinv.
  - simpl. by rewrite app_nil_r.
  - simpl. replace (seen ++ ev :: t) with ((seen ++ [ev]) ++ t)
      by (by rewrite <- app_assoc).
    apply IH. destruct Hinv as (Hc & Hbox & Hout).
    assert (forall box, currentBox (self s) = Some box ->
              numMessages (self s) = total box
              /\ In (OpenBoxReply (inr box)) (seen ++ [ev])) as Hbox'.
    { intros box Hb. destruct (Hbox box Hb) as [Hn Hin].
      split; [done|]. apply in_or_app. by left. }
    destruct ev as [err| |[err|box]]; simpl.
    + destruct (errorListener s); simpl; (split; [done|]; split; [done|]).
      * destruct (outcome s) as [|[]|]; simpl; [done|by auto|done].
      * done.
    + destruct (readyListener s); simpl; (split; [done|]; split; [done|]); done.
    + destruct (openBoxPending s); simpl; (split; [done|]; split; [done|]).
      * destruct (outcome s) as [|[]|]; simpl; [done|by auto|done].
      * done.
    + destruct (openBoxPending s); simpl; [|by (split; [done|]; split; [done|])].
      split; [done|]. split.
      * intros box' [= <-]. split; [done|]. apply in_or_app. right. by left.
      * intros _. split; [by eexists|done].
Qed.

End CreateFacts.

(** X5. Whatever the connection delivers, a client that [create] hands out has
    its connection object set, has selected a mailbox that an [openBox] callback
    delivered, reports the counters of that mailbox through [getMailboxStatus],
    and starts with the mailbox's total as its baseline. *)
Theorem X5_created_client_has_mailbox
    (config : ClientTs.Config) (connectThrows : option Error)
    (t : list ClientTs.ConnEvent) (c : ClientTs.Client) :
  ClientTs.create config connectThrows t = Fulfilled c ->
  ClientTs.client c = true
  /\ exists box,
       In (ClientTs.OpenBoxReply (inr box)) t
       /\ ClientTs.getCurrentBox c = Some box
       /\ ClientTs.getMailboxStatus c = Some (box_status box)
       /\ ClientTs.numMessages c = total box.
Proof.
  unfold ClientTs.create, ClientTs.connect. intros Hc.
  destruct (connect_selected config t [] (ClientTs.connect_start connectThrows))
    as (Hcl & Hbox & Hout).
  { simpl. split; [done|]. split; [done|]. by destruct connectThrows. }
  destruct (ClientTs.outcome _) as [|[]|] eqn:Ho; try discriminate.
  injection Hc as <-. split; [exact Hcl|].
  destruct (Hout eq_refl) as [[box Hb] _]. exists box.
  destruct (Hbox box Hb) as [Hn Hin].
  unfold ClientTs.getCurrentBox, ClientTs.getMailboxStatus. rewrite Hb. done.
Qed.

Lemma X5_created_client_has_mailbox_witness :
  ClientTs.client Scenario.connected = true
  /\ exists box,
       In (ClientTs.OpenBoxReply (inr box)) Scenario.handshake
       /\ ClientTs.getCurrentBox Scenario.connected = Some box
       /\ ClientTs.getMailboxStatus Scenario.connected = Some (box_status box)
       /\ ClientTs.numMessages Scenario.connected = total box.
Proof.
  apply (X5_created_client_has_mailbox Scenario.config None Scenario.handshake
           Scenario.connected).
  reflexivity.
Defined.

(** X6. [connect]: when [this.client.connect()] throws, [create] is rejected
    with the thrown error whatever the connection delivers later; and once
    [ready] has been handled the error listener is gone, so a connection error
    that follows rejects nothing: it is left without a handler, and [create]
    is fulfilled when the mailbox opens. *)
Theorem X6_connect_throw_and_late_error
    (config : ClientTs.Config) (err : Error) (box : Box) (t : list ClientTs.ConnEvent) :
  ClientTs.create config (Some err) t = Rejected err
  /\ ClientTs.unhandled
       (ClientTs.connect config None [ClientTs.ConnReady; ClientTs.ConnError err])
     = [err]
  /\ ClientTs.create config None [ClientTs.ConnReady; ClientTs.ConnError err] = Pending
  /\ exists c,
       ClientTs.create config None
         (ClientTs.ConnReady :: ClientTs.ConnError err
          :: ClientTs.OpenBoxReply (inr box) :: t)
       = Fulfilled c.
Proof.
  split; [|split; [done|split; [done|]]].
  - unfold ClientTs.create, ClientTs.connect.
    rewrite connect_settled_stable; simpl; congruence.
  - unfold ClientTs.create, ClientTs.connect. simpl.
    rewrite connect_settled_stable; simpl; [|congruence]. by eexists.
Qed.

(** ** What one operation of [src/client.ts] changes *)

Section ClientTsOperations.

Import ClientTs ClientTsInv.

Variable simpleParser : Buffer -> Error + ParsedMail.
Variable now : Date.

Lemma publish_all_rest (mails : list Mail) (c : Client) :
  currentBox (publish_all mails c) = currentBox c
  /\ connectionEnded (publish_all mails c) = connectionEnded c.
Proof.
  revert c. induction mails as [|mail mails IH]; intros c; [done|].
  change (publish_all (mail :: mails) c) with (publish_all mails (publish c mail)).
  by destruct (IH (publish c mail)) as (-> & ->).
Qed.

(** One fetch appends its own call to the fetch log, appends the mails it
    publishes and the calls they cause, and touches nothing else, except that
    [fetchNewMessages] may move the baseline by [numNew]. *)
Lemma ts_fetch_changes (tr : Trigger) (c : Client) (request : FetchRequest)
    (t : list FetchEvent) :
  exists mails,
    let c' := (fetch simpleParser now tr c request t).1 in
    emitted c' = emitted c ++ mails
    /\ invoked c'
       = invoked c
         ++ flat_map (fun mail => call_all (emitterListeners c) mail
                                  ++ call_all (mailListeners c) mail) mails
    /\ fetchCalls c' = fetchCalls c ++ [request]
    /\ currentBox c' = currentBox c
    /\ emitterListeners c' = emitterListeners c
    /\ mailListeners c' = mailListeners c
    /\ client c' = client c
    /\ connectionEnded c' = connectionEnded c
    /\ (numMessages c' = numMessages c
        \/ exists numNew, tr = NewMessages numNew
             /\ numMessages c' = numMessages c + numNew).
Proof.
  unfold fetch. set (c0 := mkClient _ _ _ _ _ _ _ _ _).
  destruct (ts_run_inv simpleParser now tr t c0 c0 _ (ts_fetch_inv_start tr c0))
    as (_ & Hw & Hf).
  destruct (ClientTs.run simpleParser now tr (c0, _) t) as [c' f']. simpl in *.
  assert (c' = c0 \/ exists mails, c' = advance tr (publish_all mails c0)) as [->| [mails ->]].
  { destruct (joined f') eqn:Hj.
    - destruct (Hf eq_refl) as (k & _ & [(_ & -> & _)|(mails & _ & -> & _)]); eauto.
    - destruct (Hw eq_refl) as (-> & _). by left. }
  - exists []. simpl. rewrite !app_nil_r. repeat split; auto.
  - exists mails.
    pose proof (publish_all_emitted mails c0) as He.
    pose proof (publish_all_invoked mails c0) as Hi.
    destruct (publish_all_fields mails c0) as (Hf1 & Hf2 & Hf3 & Hf4 & Hf5).
    destruct (publish_all_rest mails c0) as (Hr1 & Hr2).
    destruct tr as [|numNew]; simpl; rewrite ?He, ?Hi, ?Hf1, ?Hf2, ?Hf3, ?Hf4, ?Hf5, ?Hr1, ?Hr2;
      simpl; repeat split; eauto.
Qed.

(** A settled promise of the operation keeps its state whatever follows. *)
Lemma ts_promise_stable (tr : Trigger) (t : list FetchEvent) (c : Client) (f : Fetch) :
  promise f <> Pending ->
  promise (ClientTs.run simpleParser now tr (c, f) t).2 = promise f.
Proof.
  revert c f. induction t as [|ev t IH]; intros c f Hp; [done|].
  change (ClientTs.run simpleParser now tr (c, f) (ev :: t))
    with (ClientTs.run simpleParser now tr (ClientTs.step simpleParser now tr (c, f) ev) t).
  assert (forall c1 f1, promise f1 = promise f ->
            promise (ClientTs.join tr c1 f1).2 = promise f) as Hjoin.
  { intros c1 f1 H1. unfold ClientTs.join.
    destruct (endFired f1); [|done]. destruct (joined f1); [done|].
    destruct (first_rejected _); simpl; [rewrite H1; by apply settle_settled|].
    destruct (all_fulfilled _); simpl; [rewrite H1; by apply settle_settled|done]. }
  assert (promise (ClientTs.step simpleParser now tr (c, f) ev).2 = promise f) as Hs.
  { destruct ev as [seqno|m which chunk|m u|m|m|e|]; simpl; try done.
    - apply Hjoin. by destruct (after_parse_settles simpleParser now m f) as (_ & _ & _ & _ & ->).
    - destruct (errorFired f); simpl; [done|]. by apply settle_settled.
    - destruct (endFired f); [done|]. by apply Hjoin. }
  destruct (ClientTs.step simpleParser now tr (c, f) ev) as [c1 f1]. simpl in Hs.
  rewrite IH; [done|]. by rewrite Hs.
Qed.

Lemma all_fulfilled_decoded (l : list MessageState) (mails : list Mail) :
  all_fulfilled l = Some mails ->
  Forall (provenance simpleParser now) l ->
  Forall2 (decoded_from simpleParser now) l mails.
Proof.
  revert mails. induction l as [|ms l IH]; intros mails; simpl.
  - intros [= <-] _. constructor.
  - intros Hall Hp. apply Forall_cons in Hp as [Hms Hl].
    unfold provenance in Hms. destruct (result ms) as [|mail|e]; try done.
    destruct (all_fulfilled l) as [rest|]; [|done]. injection Hall as <-.
    constructor; [done|]. by apply IH.
Qed.

End ClientTsOperations.

(** X7. [src/client.ts]: [getUnseenMails] never moves the baseline
    [numMessages], and neither it nor the push-triggered [fetchNewMessages]
    changes the subscriptions.  So a scan does not shift the range of the next
    push-triggered fetch: after any scan, [fetchNewMessages] asks for the
    range that starts one past the baseline held before the scan. *)
Theorem X7_scans_keep_baseline
    (simpleParser : Buffer -> Error + ParsedMail) (now : Date)
    (c : ClientTs.Client) (sr : SearchResult) (numNew : N) (t t' : list FetchEvent) :
  (let c' := (ClientTs.getUnseenMails simpleParser now c sr t).1 in
   ClientTs.numMessages c' = ClientTs.numMessages c
   /\ ClientTs.emitterListeners c' = ClientTs.emitterListeners c
   /\ ClientTs.mailListeners c' = ClientTs.mailListeners c)
  /\ (let c' := (ClientTs.fetchNewMessages simpleParser now c numNew t).1 in
      ClientTs.emitterListeners c' = ClientTs.emitterListeners c
      /\ ClientTs.mailListeners c' = ClientTs.mailListeners c)
  /\ (ClientTs.client c = true ->
      let scanned := (ClientTs.getUnseenMails simpleParser now c sr t).1 in
      ClientTs.fetchCalls (ClientTs.fetchNewMessages simpleParser now scanned numNew t').1
      = ClientTs.fetchCalls scanned
        ++ [SeqRange (ClientTs.numMessages c + 1) (ClientTs.numMessages c + numNew)]).
Proof.
  assert (let c' := (ClientTs.getUnseenMails simpleParser now c sr t).1 in
          ClientTs.numMessages c' = ClientTs.numMessages c
          /\ ClientTs.emitterListeners c' = ClientTs.emitterListeners c
          /\ ClientTs.mailListeners c' = ClientTs.mailListeners c
          /\ ClientTs.client c' = ClientTs.client c) as Hscan.
  { unfold ClientTs.getUnseenMails. destruct (negb (ClientTs.client c)); [done|].
    destruct sr as [e|[|u uids]|]; try done.
    destruct (ts_fetch_changes simpleParser now ClientTs.Unseen c (IdList (u :: uids)) t)
      as (mails & _ & _ & _ & _ & He & Hm & Hcl & _ & Hn).
    simpl in *. rewrite He, Hm, Hcl.
    destruct Hn as [->|(n & Hn & _)]; [done|discriminate]. }
  split; [|split].
  - destruct Hscan as (Hn & He & Hm & _). done.
  - unfold ClientTs.fetchNewMessages. destruct (negb (ClientTs.client c)); [done|].
    destruct (ts_fetch_changes simpleParser now (ClientTs.NewMessages numNew) c
                (SeqRange (ClientTs.numMessages c + 1) (ClientTs.numMessages c + numNew)) t)
      as (mails & _ & _ & _ & _ & He & Hm & _).
    simpl in *. by rewrite He, Hm.
  - intros Hc scanned. destruct Hscan as (Hn & _ & _ & Hcl). fold scanned in Hn, Hcl.
    rewrite <- Hn. apply push_fetch_range. by rewrite Hcl.
Qed.

Lemma X7_scans_keep_baseline_witness :
  ClientTs.fetchCalls
    (ClientTs.fetchNewMessages Scenario.parser Scenario.clock Scenario.first_scan.1 2
       Scenario.one_good_one_bad).1
  = ClientTs.fetchCalls Scenario.first_scan.1 ++ [SeqRange (100 + 1) (100 + 2)].
Proof.
  exact (proj2 (proj2 (X7_scans_keep_baseline Scenario.parser Scenario.clock
                         Scenario.subscribed (SearchOk [1; 2; 3]) 2
                         Scenario.three_messages Scenario.one_good_one_bad))
           eq_refl).
Defined.

(** ** Subscribers that throw *)

Section Throwing.

Lemma log_calls_publish (mail : Mail) (c : ClientTs.Client) :
  ClientTs.log_calls mail
    (call_all (ClientTs.emitterListeners c) mail ++ call_all (ClientTs.mailListeners c) mail)
    c
  = ClientTs.publish c mail.
Proof. done. Qed.

(** The publishing loop of [src/client.ts] with subscribers that may throw:
    what it has emitted and the calls it has made are an initial part of what
    the loop does when every call returns; it touches nothing else; and if no
    exception came out, it did all of it. *)
Lemma publish_all_throwing_prefix (throws : Behaviour) (mails : list Mail)
    (c : ClientTs.Client) :
  let r := ClientTs.publish_all_throwing throws mails c in
  ClientTs.emitted r.1 `prefix_of` ClientTs.emitted (ClientTs.publish_all mails c)
  /\ ClientTs.invoked r.1 `prefix_of` ClientTs.invoked (ClientTs.publish_all mails c)
  /\ ClientTs.numMessages r.1 = ClientTs.numMessages c
  /\ ClientTs.emitterListeners r.1 = ClientTs.emitterListeners c
  /\ ClientTs.mailListeners r.1 = ClientTs.mailListeners c
  /\ (r.2 = None -> r.1 = ClientTs.publish_all mails c)
  /\ ClientTs.emitted c `prefix_of` ClientTs.emitted r.1.
Proof.
  revert c. induction mails as [|mail mails IH]; intros c.
  - simpl. repeat split; done.
  - change (ClientTs.publish_all (mail :: mails) c)
      with (ClientTs.publish_all mails (ClientTs.publish c mail)).
    simpl.
    destruct (call_until_throw_prefix throws (ClientTs.emitterListeners c) mail)
      as ([k1 Hk1] & Hall1).
    destruct (call_until_throw_prefix throws (ClientTs.mailListeners c) mail)
      as ([k2 Hk2] & Hall2).
    rewrite publish_all_emitted, publish_all_invoked. simpl.
    destruct (call_until_throw throws (ClientTs.emitterListeners c) mail)
      as [calls [error|]]; simpl in *.
    { repeat split; try done.
      - exists mails. by rewrite <- app_assoc.
      - eexists. rewrite Hk1, <- !app_assoc. reflexivity.
      - by exists [mail]. }
    rewrite (Hall1 eq_refl).
    destruct (call_until_throw throws (ClientTs.mailListeners c) mail)
      as [calls' [error|]]; simpl in *.
    { repeat split; try done.
      - exists mails. by rewrite <- app_assoc.
      - eexists. rewrite Hk2, <- !app_assoc. reflexivity.
      - by exists [mail]. }
    rewrite (Hall2 eq_refl), log_calls_publish.
    specialize (IH (ClientTs.publish c mail)). simpl in IH.
    rewrite publish_all_emitted, publish_all_invoked in IH. simpl in IH.
    destruct IH as (H1 & H2 & H3 & H4 & H5 & H6 & H7).
    repeat split; try done.
    etrans; [|exact H7]. by exists [mail].
Qed.

End Throwing.

Section ClientTsThrowing.

Import ClientTs ClientTsInv.

Variable simpleParser : Buffer -> Error + ParsedMail.
Variable now : Date.
Variable throws : Behaviour.
Variable tr : Trigger.

(** The [end] handler with subscribers that may throw does what the handler
    with subscribers that return does, or is cut short by an exception. *)
Lemma join_throwing_cases (c : Client) (f : Fetch) :
  join_throwing throws tr c f = ClientTs.join tr c f
  \/ exists e c',
       joined f = false
       /\ join_throwing throws tr c f
          = (c', mkFetch (messagePromises f) (errorFired f) (endFired f) true
                   (settle (promise f) (Rejected e)))
       /\ agree (ClientTs.join tr c f).2 (join_throwing throws tr c f).2
       /\ joined (ClientTs.join tr c f).2 = true
       /\ numMessages c' = numMessages c
       /\ emitted c `prefix_of` emitted c'
       /\ emitted c' `prefix_of` emitted (ClientTs.join tr c f).1
       /\ invoked c' `prefix_of` invoked (ClientTs.join tr c f).1.
Proof.
  unfold join_throwing, ClientTs.join.
  destruct (endFired f) as [k|] eqn:Hend; [|by left].
  destruct (joined f) eqn:Hj; [by left|].
  destruct (first_rejected _); [by left|].
  destruct (all_fulfilled _) as [mails|]; [|by left].
  destruct (publish_all_throwing_prefix throws mails c)
    as (H1 & H2 & H3 & _ & _ & H6 & H7).
  destruct (advance_fields tr (publish_all mails c)) as (_ & Hae & Hai).
  destruct (publish_all_throwing throws mails c) as [c' [error|]]; simpl in *.
  - right. exists error, c'. rewrite Hae, Hai. repeat split; done.
  - left. by rewrite (H6 eq_refl).
Qed.

Lemma join_not_joined (c : Client) (f : Fetch) :
  joined (ClientTs.join tr c f).2 = false -> ClientTs.join tr c f = (c, f).
Proof.
  unfold ClientTs.join. destruct (endFired f); [|done]. destruct (joined f) eqn:Hj; [done|].
  destruct (first_rejected _); [done|]. by destruct (all_fulfilled _).
Qed.

Lemma join_joined (c : Client) (f : Fetch) :
  joined f = true ->
  ClientTs.join tr c f = (c, f) /\ join_throwing throws tr c f = (c, f).
Proof.
  intros Hj. unfold ClientTs.join, join_throwing. rewrite Hj. by destruct (endFired f).
Qed.

Lemma after_parse_agree (m : nat) (f f' : Fetch) :
  agree f f' ->
  agree (after_parse simpleParser now m f) (after_parse simpleParser now m f').
Proof.
  intros (Hm & He & Hj). unfold after_parse. rewrite <- Hm.
  destruct (messagePromises f !! m) as [ms|]; [|done].
  destruct (ended ms); [|done]. destruct (result ms); done.
Qed.

Lemma is_rejected_settle (p q : Promise unit) :
  is_rejected p = true -> is_rejected (settle p q) = true.
Proof. by destruct p. Qed.

Lemma not_fulfilled_rejects (p : Promise unit) (e : Error) :
  p <> Fulfilled tt -> is_rejected (settle p (Rejected e)) = true.
Proof. destruct p as [|[]|]; done. Qed.

(** The [await] of the [end] handler goes on, from a state both fetches
    share. *)
Lemma join_same_or_cut_short (c c1 : Client) (f : Fetch) :
  (joined f = false -> c1 = c /\ promise f <> Fulfilled tt) ->
  same_or_cut_short c (join_throwing throws tr c1 f) (ClientTs.join tr c1 f).
Proof.
  intros Hinv.
  destruct (join_throwing_cases c1 f)
    as [Heq|(e & c' & Hj & Heq & Hag & Hj0 & Hn & Hec & He & Hi)].
  - left. split; [done|]. rewrite Heq. intros Hj'.
    pose proof (join_not_joined c1 f Hj') as Hsame.
    rewrite Hsame in Hj' |- *. simpl in *. by apply Hinv.
  - right. destruct (Hinv Hj) as (-> & Hp).
    unfold cut_short. rewrite Heq in *. simpl in *.
    split; [|split; [done|split; [done|split; [by apply not_fulfilled_rejects|done]]]].
    destruct Hag as (H1 & H2 & H3). by repeat split.
Qed.

Lemma ts_step_throwing (c : Client) (s s0 : Client * Fetch) (ev : FetchEvent) :
  same_or_cut_short c s s0 ->
  same_or_cut_short c (step_throwing simpleParser now throws tr s ev)
    (ClientTs.step simpleParser now tr s0 ev).
Proof.
  intros [[<- Hinv]|(Hag & Hj & Hn & Hp & Hec & He & Hi)].
  - destruct s as [c1 f]. simpl in Hinv.
    destruct ev as [seqno|m which chunk|m u|m|m|e|]; simpl;
      try (left; split; [done|]; simpl; exact Hinv).
    + apply join_same_or_cut_short.
      destruct (after_parse_settles simpleParser now m f) as (_ & _ & _ & -> & ->).
      exact Hinv.
    + left. split; [done|]. destruct (errorFired f); simpl; [exact Hinv|].
      intros Hj. destruct (Hinv Hj) as (-> & Hp). split; [done|].
      by destruct (promise f) as [|[]|].
    + destruct (endFired f); [left; split; [done|exact Hinv]|].
      by apply join_same_or_cut_short.
  - right. destruct s as [c1 f1], s0 as [c0 f0]. simpl in *.
    destruct Hag as (Hm & Hend & Hjj).
    assert (joined f0 = true) as Hj0 by congruence.
    destruct ev as [seqno|m which chunk|m u|m|m|e|]; unfold cut_short, agree; simpl;
      rewrite ?Hm, ?Hend, ?Hjj; try done.
    + destruct (after_parse_settles simpleParser now m f1) as (_ & _ & _ & Hj1 & Hp1).
      destruct (after_parse_settles simpleParser now m f0) as (_ & _ & _ & Hj0' & _).
      destruct (join_joined c1 (after_parse simpleParser now m f1)) as (_ & ->);
        [congruence|].
      destruct (join_joined c0 (after_parse simpleParser now m f0)) as (-> & _);
        [congruence|].
      simpl. rewrite Hp1.
      destruct (after_parse_agree m f1 f0) as (H1 & H2 & H3); [done|].
      repeat split; try done. congruence.
    + destruct (errorFired f1), (errorFired f0); simpl; repeat split; try done;
        by apply is_rejected_settle.
    + destruct (endFired f0) as [k|] eqn:Hk; simpl;
        [repeat split; (done || congruence)|].
      destruct (join_joined c1 (mkFetch (messagePromises f0) (errorFired f1)
                                  (Some (length (messagePromises f0))) (joined f0)
                                  (promise f1))) as (_ & ->); [done|].
      destruct (join_joined c0 (mkFetch (messagePromises f0) (errorFired f0)
                                  (Some (length (messagePromises f0))) (joined f0)
                                  (promise f0))) as (-> & _); [done|].
      done.
Qed.

Lemma ts_run_throwing (c : Client) (t : list FetchEvent) (s s0 : Client * Fetch) :
  same_or_cut_short c s s0 ->
  same_or_cut_short c (run_throwing simpleParser now throws tr s t)
    (ClientTs.run simpleParser now tr s0 t).
Proof.
  revert s s0. induction t as [|ev t IH]; intros s s0 H; [done|].
  apply (IH (step_throwing simpleParser now throws tr s ev)
            (ClientTs.step simpleParser now tr s0 ev)).
  by apply ts_step_throwing.
Qed.


End ClientTsThrowing.

Section ClientTsPublished.

Import ClientTs ClientTsInv.

Variable simpleParser : Buffer -> Error + ParsedMail.
Variable now : Date.

(** With subscribers that return: what a fetch publishes is nothing, or one
    record for each awaited message; and it is the latter when the operation
    is fulfilled. *)
Lemma ts_published (tr : Trigger) (c : Client) (t : list FetchEvent) :
  let s := ClientTs.run simpleParser now tr (c, mkFetch [] false None false Pending) t in
  exists mails,
    emitted s.1 = emitted c ++ mails
    /\ invoked s.1
       = invoked c
         ++ flat_map (fun mail => call_all (emitterListeners c) mail
                                  ++ call_all (mailListeners c) mail) mails
    /\ (mails = []
        \/ exists k, endFired s.2 = Some k
             /\ Forall2 (decoded_from simpleParser now) (take k (messagePromises s.2)) mails)
    /\ (promise s.2 = Fulfilled tt ->
        exists k, endFired s.2 = Some k
          /\ Forall2 (decoded_from simpleParser now) (take k (messagePromises s.2)) mails).
Proof.
  intros s.
  destruct (ts_run_inv simpleParser now tr t c c _ (ts_fetch_inv_start tr c))
    as (_ & Hw & Hf).
  fold s in Hw, Hf.
  pose proof (ts_provenance_run simpleParser now tr t c
                (mkFetch [] false None false Pending) (Forall_nil_2 _)) as Hprov.
  fold s in Hprov.
  destruct (joined s.2) eqn:Hj.
  - destruct (Hf eq_refl) as (k & Hend & [(_ & Hc & Hrej)|(mails & Hall & Hc & _)]).
    + exists []. rewrite Hc. simpl. rewrite !app_nil_r.
      split; [done|]. split; [done|]. split; [by left|].
      intros Hp. rewrite Hp in Hrej. discriminate.
    + assert (Forall2 (decoded_from simpleParser now) (take k (messagePromises s.2)) mails)
        as Hdec by (apply (all_fulfilled_decoded simpleParser now); [done|by apply Forall_take]).
      exists mails. rewrite Hc.
      destruct (advance_fields tr (publish_all mails c)) as (_ & -> & ->).
      split; [apply publish_all_emitted|]. split; [apply publish_all_invoked|].
      split; [right|]; eauto.
  - destruct (Hw eq_refl) as (Hc & Hnot & _).
    exists []. rewrite Hc. simpl. rewrite !app_nil_r.
    split; [done|]. split; [done|]. split; [by left|done].
Qed.

End ClientTsPublished.

(** On [src/client.ts], subscribers that throw on the second of three mails:
    two mails are emitted, the subscriber is called twice for the first and
    once for the second, the operation is rejected with what was thrown and
    the baseline stays at 100. *)
Example throwing_subscriber_cuts_publication_short :
  map uid (ClientTs.emitted Scenario.cut_short_run.1) = [1; 2]
  /\ map (fun call => uid call.2) (ClientTs.invoked Scenario.cut_short_run.1) = [1; 1; 2]
  /\ ClientTs.promise Scenario.cut_short_run.2 = Rejected (mkError "listener failed")
  /\ ClientTs.numMessages Scenario.cut_short_run.1 = 100.
Proof. repeat split; reflexivity. Qed.



(** X9. [src/client.ts], with subscribers that may throw: whatever the events
    of a fetch, the mails it publishes are an initial part of the records of
    the messages awaited by the [end] handler, in the order of their [message]
    events, each record decoded from the joined chunks of its own message; and
    when the operation is fulfilled by the fetch, they are all of these
    records, one for each awaited message. *)
Theorem X9_published_mails_match_messages
    (simpleParser : Buffer -> Error + ParsedMail) (now : Date) (throws : Behaviour)
    (tr : ClientTs.Trigger) (c : ClientTs.Client) (t : list FetchEvent) :
  let s := ClientTs.run_throwing simpleParser now throws tr
             (c, ClientTs.mkFetch [] false None false Pending) t in
  exists published,
    ClientTs.emitted s.1 = ClientTs.emitted c ++ published
    /\ (published = []
        \/ exists k mails,
             ClientTs.endFired s.2 = Some k
             /\ published `prefix_of` mails
             /\ Forall2 (ClientTsInv.decoded_from simpleParser now)
                  (take k (ClientTs.messagePromises s.2)) mails)
    /\ (ClientTs.promise s.2 = Fulfilled tt ->
        exists k,
          ClientTs.endFired s.2 = Some k
          /\ Forall2 (ClientTsInv.decoded_from simpleParser now)
               (take k (ClientTs.messagePromises s.2)) published).
Proof.
  intros s.
  pose (s0 := ClientTs.run simpleParser now tr
                (c, ClientTs.mkFetch [] false None false Pending) t).
  assert (ClientTsInv.same_or_cut_short c s s0) as Hsim.
  { apply ts_run_throwing. left. by split. }
  destruct (ts_published simpleParser now tr c t) as (mails & He0 & _ & Hsome & Hall).
  fold s0 in He0, Hsome, Hall.
  destruct Hsim as [[Heq _]|((Hm & Hend & _) & _ & _ & Hp & [published Hec] & [rest He] & _)].
  - rewrite Heq. exists mails. split; [done|]. split; [|done].
    destruct Hsome as [->|(k & Hk & Hdec)]; [by left|]. right. exists k, mails. done.
  - exists published. split; [done|]. split.
    + rewrite Hec, He0, <- app_assoc in He. apply app_inv_head in He.
      destruct Hsome as [->|(k & Hk & Hdec)].
      * left. symmetry in He. by apply app_eq_nil in He as [-> _].
      * right. exists k, mails. rewrite Hm, Hend.
        split; [done|]. split; [by exists rest|done].
    + intros Hful. rewrite Hful in Hp. discriminate.
Qed.

Lemma X9_published_mails_match_messages_witness :
  let s := ClientTs.run_throwing Scenario.parser Scenario.clock returns_normally
             ClientTs.Unseen
             (Scenario.subscribed, ClientTs.mkFetch [] false None false Pending)
             Scenario.second_decodes_first in
  exists published,
    ClientTs.emitted s.1 = ClientTs.emitted Scenario.subscribed ++ published
    /\ exists k,
         ClientTs.endFired s.2 = Some k
         /\ Forall2 (ClientTsInv.decoded_from Scenario.parser Scenario.clock)
              (take k (ClientTs.messagePromises s.2)) published.
Proof.
  intros s.
  destruct (X9_published_mails_match_messages Scenario.parser Scenario.clock
              returns_normally ClientTs.Unseen Scenario.subscribed
              Scenario.second_decodes_first) as (published & He & _ & Hall).
  exists published. split; [exact He|]. apply Hall. reflexivity.
Defined.

(** ** Settled operations stay settled *)

Section Settled.

Variable simpleParser : Buffer -> Error + ParsedMail.
Variable now : Date.

Lemma seen_promise_stable (t : list FetchEvent) (c : SeenUids.Client) (f : SeenUids.Fetch) :
  SeenUids.promise f <> Pending ->
  SeenUids.promise (SeenUids.run simpleParser now (c, f) t).2 = SeenUids.promise f.
Proof.
  revert c f. induction t as [|ev t IH]; intros c f Hp; [done|].
  change (SeenUids.run simpleParser now (c, f) (ev :: t))
    with (SeenUids.run simpleParser now (SeenUids.step simpleParser now (c, f) ev) t).
  assert (forall f1, SeenUids.promise f1 = SeenUids.promise f ->
            SeenUids.promise (SeenUids.join f1) = SeenUids.promise f) as Hjoin.
  { intros f1 H1. unfold SeenUids.join. destruct (SeenUids.endFired f1); [|done].
    destruct (forallb _ _); [|done]. simpl. rewrite H1. by apply settle_settled. }
  assert (SeenUids.promise (SeenUids.step simpleParser now (c, f) ev).2
          = SeenUids.promise f) as Hs.
  { destruct ev as [seqno|m which chunk|m u|m|m|e|]; simpl; try done.
    - destruct (SeenUids.after_parse simpleParser now m c f) as [c1 f1] eqn:Hap. simpl.
      apply Hjoin. unfold SeenUids.after_parse in Hap.
      destruct (SeenUids.messagePromises f !! m) as [ms|]; [|by injection Hap as <- <-].
      destruct (SeenUids.resolved ms); [by injection Hap as <- <-|].
      destruct (SeenUids.ended ms) as [[h b]|]; [|by injection Hap as <- <-].
      destruct (SeenUids.decode simpleParser h b) as [?|[? ?]]; by injection Hap as <- <-.
    - destruct (SeenUids.errorFired f); simpl; [done|]. by apply settle_settled.
    - destruct (SeenUids.endFired f); [done|]. simpl. by apply Hjoin. }
  destruct (SeenUids.step simpleParser now (c, f) ev) as [c1 f1]. simpl in Hs.
  rewrite IH; [done|]. by rewrite Hs.
Qed.

End Settled.

(** X10. In both editions the first settlement of a fetch is final: a fetch
    whose first event is an [error] rejects its operation with that error
    whatever the engine delivers afterwards, for [getUnseenMails] with a
    non-empty search result as for the push-triggered [fetchNewMessages]. *)
Theorem X10_fetch_error_rejects_for_good
    (simpleParser : Buffer -> Error + ParsedMail) (now : Date)
    (c : ClientTs.Client) (c' : SeenUids.Client) (b : Box)
    (u : N) (uids : list N) (numNew : N) (e : Error) (t : list FetchEvent) :
  ClientTs.client c = true ->
  SeenUids.client c' = true -> SeenUids.currentBox c' = Some b ->
  u ∉ SeenUids.seenUIDs c' ->
  (ClientTs.getUnseenMails simpleParser now c (SearchOk (u :: uids)) (FetchError e :: t)).2
  = Rejected e
  /\ (ClientTs.fetchNewMessages simpleParser now c numNew (FetchError e :: t)).2
     = Rejected e
  /\ (SeenUids.getUnseenMails simpleParser now c' (SearchOk (u :: uids))
        (FetchError e :: t)).2
     = Rejected e.
Proof.
  intros Hc Hc' Hb Hu. split; [|split].
  - unfold ClientTs.getUnseenMails, ClientTs.fetch. rewrite Hc. simpl.
    match goal with
    | |- context [ClientTs.run simpleParser now ?tr (?c0, ?f0) t] =>
        pose proof (ts_promise_stable simpleParser now tr t c0 f0) as Hst;
        destruct (ClientTs.run simpleParser now tr (c0, f0) t) as [c1 f1]
    end.
    simpl in *. by apply Hst.
  - unfold ClientTs.fetchNewMessages, ClientTs.fetch. rewrite Hc. simpl.
    match goal with
    | |- context [ClientTs.run simpleParser now ?tr (?c0, ?f0) t] =>
        pose proof (ts_promise_stable simpleParser now tr t c0 f0) as Hst;
        destruct (ClientTs.run simpleParser now tr (c0, f0) t) as [c1 f1]
    end.
    simpl in *. by apply Hst.
  - unfold SeenUids.getUnseenMails. rewrite Hc', Hb. simpl.
    unfold SeenUids.newUIDs. rewrite filter_cons.
    destruct (decide (u ∉ SeenUids.seenUIDs c')); [|done].
    unfold SeenUids.fetchMessages. simpl.
    match goal with
    | |- context [SeenUids.run simpleParser now (?c0, ?f0) t] =>
        pose proof (seen_promise_stable simpleParser now t c0 f0) as Hst;
        destruct (SeenUids.run simpleParser now (c0, f0) t) as [c1 f1]
    end.
    simpl in *. by apply Hst.
Qed.

Lemma X10_fetch_error_rejects_for_good_witness :
  (ClientTs.getUnseenMails Scenario.parser Scenario.clock Scenario.subscribed
     (SearchOk [1; 2; 3]) (FetchError Scenario.fetch_failed :: Scenario.three_messages)).2
  = Rejected Scenario.fetch_failed
  /\ (ClientTs.fetchNewMessages Scenario.parser Scenario.clock Scenario.subscribed 2
        (FetchError Scenario.fetch_failed :: Scenario.three_messages)).2
     = Rejected Scenario.fetch_failed
  /\ (SeenUids.getUnseenMails Scenario.parser Scenario.clock Scenario.subscribed'
        (SearchOk [1; 2; 3]) (FetchError Scenario.fetch_failed :: Scenario.three_messages)).2
     = Rejected Scenario.fetch_failed.
Proof.
  apply (X10_fetch_error_rejects_for_good Scenario.parser Scenario.clock
           Scenario.subscribed Scenario.subscribed' Scenario.inbox 1 [2; 3] 2
           Scenario.fetch_failed Scenario.three_messages).
  - reflexivity.
  - reflexivity.
  - reflexivity.
  - compute_done.
Defined.

(** X11. [src/client.ts]: a fulfilled [fetchNewMessages(n1)] has moved the
    baseline by [n1], so the next [fetchNewMessages(n2)] asks for the range
    that starts right after the first one: the two ranges are
    [B+1 : B+n1] and [B+n1+1 : B+n1+n2]. *)
Theorem X11_successive_push_ranges
    (simpleParser : Buffer -> Error + ParsedMail) (now : Date)
    (c : ClientTs.Client) (n1 n2 : N) (t1 t2 : list FetchEvent) :
  ClientTs.client c = true ->
  (ClientTs.fetchNewMessages simpleParser now c n1 t1).2 = Fulfilled tt ->
  let B := ClientTs.numMessages c in
  let c1 := (ClientTs.fetchNewMessages simpleParser now c n1 t1).1 in
  ClientTs.numMessages c1 = B + n1
  /\ ClientTs.fetchCalls (ClientTs.fetchNewMessages simpleParser now c1 n2 t2).1
     = ClientTs.fetchCalls c
       ++ [SeqRange (B + 1) (B + n1); SeqRange (B + n1 + 1) (B + n1 + n2)].
Proof.
  intros Hc Hful B c1. subst B.
  assert (ClientTs.numMessages c1 = ClientTs.numMessages c + n1) as Hn.
  { unfold c1, ClientTs.fetchNewMessages, ClientTs.fetch in *. rewrite Hc in *.
    simpl in *.
    match goal with
    | |- context [ClientTs.run simpleParser now ?tr (?c0, ?f0) t1] =>
        pose proof (push_fulfilled_advances simpleParser now c0 n1 t1) as Hadv;
        destruct (ClientTs.run simpleParser now tr (c0, f0) t1) as [c' f']
    end.
    simpl in *. by apply Hadv. }
  split; [exact Hn|].
  assert (ClientTs.client c1 = true /\ ClientTs.fetchCalls c1
          = ClientTs.fetchCalls c ++ [SeqRange (ClientTs.numMessages c + 1) (ClientTs.numMessages c + n1)]) as [Hc1 Hf1].
  { unfold c1, ClientTs.fetchNewMessages. rewrite Hc. simpl.
    destruct (ts_fetch_changes simpleParser now (ClientTs.NewMessages n1) c
                (SeqRange (ClientTs.numMessages c + 1) (ClientTs.numMessages c + n1)) t1)
      as (mails & _ & _ & Hf & _ & _ & _ & Hcl & _).
    simpl in *. by rewrite Hcl, Hf. }
  rewrite (push_fetch_range simpleParser now c1 n2 t2 Hc1), Hf1, Hn.
  by rewrite <- app_assoc.
Qed.

Lemma X11_successive_push_ranges_witness :
  ClientTs.numMessages Scenario.push_then_two.1 = 100 + 2
  /\ ClientTs.fetchCalls
       (ClientTs.fetchNewMessages Scenario.parser Scenario.clock
          Scenario.push_then_two.1 3 Scenario.three_messages).1
     = [] ++ [SeqRange (100 + 1) (100 + 2); SeqRange (100 + 2 + 1) (100 + 2 + 3)].
Proof.
  apply (X11_successive_push_ranges Scenario.parser Scenario.clock
           Scenario.subscribed 2 3
           (Scenario.arrival 0 1 "a" "x" ++ Scenario.arrival 1 2 "b" "y"
            ++ [FetchEnd; ParserSettled 0; ParserSettled 1])
           Scenario.three_messages); reflexivity.
Defined.

(** ** What one operation of the [seenUIDs] edition changes *)

Section SeenUidsOperations.

Import SeenUids SeenUidsInv.

Variable simpleParser : Buffer -> Error + ParsedMail.
Variable now : Date.

(** A scan appends the mails it emits, records their identifiers, calls every
    listener once per mail, and leaves the mailbox and the subscriptions. *)
Lemma seen_scan_changes (c : Client) (sr : SearchResult) (t : list FetchEvent) :
  exists news,
    let c' := (getUnseenMails simpleParser now c sr t).1 in
    emitted c' = emitted c ++ news
    /\ seenUIDs c' = list_to_set (map uid news) ∪ seenUIDs c
    /\ invoked c' = invoked c ++ flat_map (call_all (listeners c)) news
    /\ listeners c' = listeners c
    /\ client c' = client c
    /\ connectionEnded c' = connectionEnded c
    /\ currentBox c' = currentBox c.
Proof.
  assert ((getUnseenMails simpleParser now c sr t).1 = c
          \/ exists fresh,
               (getUnseenMails simpleParser now c sr t).1
               = (fetchMessages simpleParser now c fresh t).1) as [->|[fresh ->]].
  { unfold SeenUids.getUnseenMails.
    destruct (negb (client c)); [by left|].
    destruct (currentBox c); [|by left].
    destruct sr as [e|[|u uids]|]; try (by left).
    destruct (newUIDs c (u :: uids)) as [|v fresh]; [by left|]. right. by eexists. }
  - exists []. simpl. rewrite !app_nil_r. repeat split. union_eq.
  - unfold fetchMessages. set (c0 := mkClient _ _ _ _ _ _ _ _).
    destruct (run_grows simpleParser now t c0 (mkFetch [] false None Pending))
      as (news & He & Hs & Hi & _ & Hl & Hc & Hd & Hbx).
    exists news.
    destruct (SeenUids.run simpleParser now (c0, _) t) as [c' f']. simpl in *.
    by rewrite He, Hs, Hi, Hl, Hc, Hd, Hbx.
Qed.

(** A scan whose search result holds nothing outside [seenUIDs] is a no-op. *)
Lemma scan_all_seen (c : Client) (b : Box) (uids : list N) (t : list FetchEvent) :
  client c = true -> currentBox c = Some b ->
  (forall u, u ∈ uids -> u ∈ seenUIDs c) ->
  getUnseenMails simpleParser now c (SearchOk uids) t = (c, Fulfilled tt).
Proof.
  intros Hc Hb Hseen. unfold SeenUids.getUnseenMails. rewrite Hc, Hb. simpl.
  destruct uids as [|u uids]; [done|].
  destruct (newUIDs c (u :: uids)) as [|v fresh] eqn:Hnew; [done|].
  exfalso.
  assert (v ∈ newUIDs c (u :: uids)) as Hv by (rewrite Hnew; apply list_elem_of_here).
  apply list_elem_of_filter in Hv as [Hv1 Hv2]. by apply Hv1, Hseen.
Qed.

Lemma perform_seen_is_emitted (c : Client) (op : Operation) :
  seen_is_emitted c -> seen_is_emitted (perform simpleParser now c op).
Proof.
  unfold seen_is_emitted. intros Hinv.
  assert (forall c0 sr t, seenUIDs c0 = list_to_set (map uid (emitted c0)) ->
            seenUIDs (getUnseenMails simpleParser now c0 sr t).1
            = list_to_set (map uid (emitted (getUnseenMails simpleParser now c0 sr t).1)))
    as Hscan.
  { intros c0 sr t H0.
    destruct (seen_scan_changes c0 sr t) as (news & He & Hs & _).
    simpl in *. rewrite He, Hs, H0, map_app, list_to_set_app_L. union_eq. }
  destruct op as [h|sr t|numNew sr t|reply|]; simpl.
  - done.
  - by apply Hscan.
  - unfold on_mail, fetchNewMails.
    match goal with
    | |- context [getUnseenMails simpleParser now ?c1 sr t] =>
        pose proof (Hscan c1 sr t) as H1;
        destruct (getUnseenMails simpleParser now c1 sr t) as [c2 p]
    end.
    simpl in *. apply H1. by destruct (currentBox c).
  - unfold switchMailbox. destruct (negb (client c)); [done|].
    by destruct reply as [[err|box]|].
  - unfold close. by destruct (negb (client c)).
Qed.

End SeenUidsOperations.

(** X12. Edition with [seenUIDs]: through any sequence of subscriptions,
    scans, [mail] events, mailbox switches and [close], [seenUIDs] stays
    exactly the set of identifiers of the mails emitted so far; so the fetch
    of the next scan never asks for the identifier of a mail that was already
    emitted. *)
Theorem X12_seenUIDs_is_what_was_emitted
    (simpleParser : Buffer -> Error + ParsedMail) (now : Date)
    (c : SeenUids.Client) (ops : list SeenUids.Operation) :
  SeenUidsInv.seen_is_emitted c ->
  let c' := SeenUids.session simpleParser now c ops in
  SeenUidsInv.seen_is_emitted c'
  /\ forall uids u, u ∈ SeenUids.newUIDs c' uids -> u ∉ map uid (SeenUids.emitted c').
Proof.
  intros Hinv c'.
  assert (forall c0, SeenUidsInv.seen_is_emitted c0 ->
            SeenUidsInv.seen_is_emitted (SeenUids.session simpleParser now c0 ops))
    as Hgen.
  { unfold SeenUids.session. induction ops as [|op ops IH]; intros c0 H0; [done|].
    simpl. apply IH. by apply perform_seen_is_emitted. }
  pose proof (Hgen c Hinv) as Hinv'. fold c' in Hinv'.
  split; [exact Hinv'|].
  intros uids u Hu Hem. apply list_elem_of_filter in Hu as [Hnot _].
  apply Hnot. rewrite Hinv'. by apply elem_of_list_to_set.
Qed.

Lemma X12_seenUIDs_is_what_was_emitted_witness :
  let c' := SeenUids.session Scenario.parser Scenario.clock Scenario.connected'
              [SeenUids.Subscribe Scenario.subscriber;
               SeenUids.Scan (SearchOk [1; 2; 3]) Scenario.three_messages;
               SeenUids.MailEvent 1 (SearchOk [1; 2; 3; 4]) Scenario.fourth_message;
               SeenUids.Close] in
  SeenUidsInv.seen_is_emitted c'
  /\ forall uids u, u ∈ SeenUids.newUIDs c' uids -> u ∉ map uid (SeenUids.emitted c').
Proof.
  apply (X12_seenUIDs_is_what_was_emitted Scenario.parser Scenario.clock
           Scenario.connected').
  reflexivity.
Defined.

(** X13. Edition with [seenUIDs]: when a scan has published a record for every
    identifier its search returned, repeating the scan with the same search
    result changes nothing and resolves: no fetch is issued, nothing is
    emitted, whatever the engine would deliver. *)
Theorem X13_repeated_scan_is_a_no_op
    (simpleParser : Buffer -> Error + ParsedMail) (now : Date)
    (c : SeenUids.Client) (b : Box) (uids : list N) (t1 t2 : list FetchEvent) :
  SeenUids.client c = true -> SeenUids.currentBox c = Some b ->
  let r1 := SeenUids.getUnseenMails simpleParser now c (SearchOk uids) t1 in
  (forall u, u ∈ uids ->
     u ∈ map uid (published_since (SeenUids.emitted c) (SeenUids.emitted r1.1))) ->
  SeenUids.getUnseenMails simpleParser now r1.1 (SearchOk uids) t2
  = (r1.1, Fulfilled tt).
Proof.
  intros Hc Hb r1 Hall.
  destruct (seen_scan_changes simpleParser now c (SearchOk uids) t1)
    as (news & He & Hs & _ & _ & Hcl & _ & Hbx).
  fold r1 in He, Hs, Hcl, Hbx.
  apply (scan_all_seen simpleParser now r1.1 b); [congruence|congruence|].
  intros u Hu. specialize (Hall u Hu).
  rewrite He, published_since_app in Hall.
  rewrite Hs. apply elem_of_union. left. by apply elem_of_list_to_set.
Qed.

Lemma X13_repeated_scan_is_a_no_op_witness :
  SeenUids.getUnseenMails Scenario.parser Scenario.clock Scenario.first_scan'.1
    (SearchOk [1; 2; 3]) Scenario.four_messages
  = (Scenario.first_scan'.1, Fulfilled tt).
Proof.
  apply (X13_repeated_scan_is_a_no_op Scenario.parser Scenario.clock
           Scenario.subscribed' Scenario.inbox [1; 2; 3]
           Scenario.three_messages Scenario.four_messages).
  - reflexivity.
  - reflexivity.
  - intros u Hu.
    repeat (apply elem_of_cons in Hu as [->|Hu]; [compute_done|]).
    by apply elem_of_nil in Hu.
Defined.

(** The [mail] handler of the edition with [seenUIDs] adds [numNew] to the
    figures it finds in the mailbox object.  When the engine has written the
    new totals into that object before it fires the event, the new messages
    are counted a second time: from 100 messages, 10 of them new, the engine
    goes to 102 and 2, and the handler to 104 and 4. *)
Example mail_event_counts_on_top_of_the_engine :
  SeenUids.getMailboxStatus
    (SeenUids.on_mail Scenario.parser Scenario.clock 2
       (SeenUids.engine_updates_box (mkBox "INBOX" 102 2 5) Scenario.subscribed')
       (SearchOk []) []).1
  = Some (mkStatus 104 4 5).
Proof. reflexivity. Qed.

(** X15. Edition with [seenUIDs], with listeners that may throw.  When a
    record is published its identifier is in [seenUIDs] and the record is
    emitted whatever the listeners do; the listeners are called in
    registration order up to and including the first one that throws, and
    those behind it are not called; the message is resolved either way, so the
    state of the fetch does not depend on the listeners.  When no listener
    throws, every listener is called once, as in [publish].  So over all the
    events of a fetch, listeners that throw change nothing but the calls that
    are made, which are some of the calls made when every listener returns. *)
Theorem X15_seen_uids_listener_may_throw
    (simpleParser : Buffer -> Error + ParsedMail) (now : Date)
    (throws : Behaviour) (mail : Mail) (c : SeenUids.Client) :
  let c' := SeenUids.publish_throwing throws mail c in
  uid mail ∈ SeenUids.seenUIDs c'
  /\ SeenUids.seenUIDs c' = SeenUids.seenUIDs (SeenUids.publish mail c)
  /\ SeenUids.emitted c' = SeenUids.emitted c ++ [mail]
  /\ SeenUids.invoked c' `prefix_of` SeenUids.invoked (SeenUids.publish mail c)
  /\ (forall pre l post e,
        SeenUids.listeners c = pre ++ l :: post ->
        (forall x, x ∈ pre -> throws x mail = None) -> throws l mail = Some e ->
        SeenUids.invoked c' = SeenUids.invoked c ++ call_all (pre ++ [l]) mail)
  /\ ((forall l, l ∈ SeenUids.listeners c -> throws l mail = None) ->
      c' = SeenUids.publish mail c)
  /\ (forall m f,
        (SeenUids.after_parse_throwing simpleParser now throws m c f).2
        = (SeenUids.after_parse simpleParser now m c f).2)
  /\ (forall m f,
        (forall l mail', throws l mail' = None) ->
        SeenUids.after_parse_throwing simpleParser now throws m c f
        = SeenUids.after_parse simpleParser now m c f)
  /\ (forall (t : list FetchEvent) (f : SeenUids.Fetch),
        let s := SeenUids.run_throwing simpleParser now throws (c, f) t in
        let s0 := SeenUids.run simpleParser now (c, f) t in
        s.2 = s0.2
        /\ SeenUids.emitted s.1 = SeenUids.emitted s0.1
        /\ SeenUids.seenUIDs s.1 = SeenUids.seenUIDs s0.1
        /\ SeenUids.invoked s.1 `sublist_of` SeenUids.invoked s0.1
        /\ ((forall l mail', throws l mail' = None) -> s = s0)).
Proof.
  intros c'. unfold c', SeenUids.publish_throwing. simpl.
  split; [|split; [|split; [|split; [|split; [|split; [|split; [|split]]]]]]]; cycle 8.
  { intros t f.
    destruct (seen_run_throwing simpleParser now throws t c c f)
      as (Hf & _ & _ & _ & Hs & _ & _ & He & Hi); [by repeat split|].
    repeat split; try done.
    intros Hnone. by apply seen_run_throwing_returns. }
  - apply elem_of_union. left. by apply elem_of_singleton.
  - done.
  - done.
  - destruct (call_until_throw_prefix throws (SeenUids.listeners c) mail) as (Hpre & _).
    by apply prefix_app.
  - intros pre l post e Hls Hpre Hl. rewrite Hls.
    by rewrite (call_until_throw_stops throws pre post l mail e Hpre Hl).
  - intros Hnone. unfold SeenUids.publish.
    by rewrite (call_until_throw_returns throws _ mail Hnone).
  - intros m f. unfold SeenUids.after_parse_throwing, SeenUids.after_parse.
    destruct (SeenUids.messagePromises f !! m) as [ms|]; [|done].
    destruct (SeenUids.resolved ms); [done|].
    destruct (SeenUids.ended ms) as [[h b]|]; [|done].
    by destruct (SeenUids.decode simpleParser h b) as [?|[? ?]].
  - intros m f Hnone. unfold SeenUids.after_parse_throwing, SeenUids.after_parse.
    destruct (SeenUids.messagePromises f !! m) as [ms|]; [|done].
    destruct (SeenUids.resolved ms); [done|].
    destruct (SeenUids.ended ms) as [[h b]|]; [|done].
    destruct (SeenUids.decode simpleParser h b) as [?|[ph pb]]; [done|].
    unfold SeenUids.publish_throwing, SeenUids.publish.
    rewrite call_until_throw_returns; [done|]. intros l _. apply Hnone.
Qed.

Lemma X15_seen_uids_listener_may_throw_witness :
  let throws : Behaviour :=
    fun l _ => if Nat.eqb l 7 then Some (mkError "listener failed") else None in
  let mail := mkMail 1 [] [] "a" 0 None None in
  let c := SeenUids.on 9%nat (SeenUids.on 7%nat (SeenUids.on 3%nat Scenario.connected')) in
  SeenUids.invoked (SeenUids.publish_throwing throws mail c) = [(3%nat, mail); (7%nat, mail)]
  /\ SeenUids.publish_throwing returns_normally mail c = SeenUids.publish mail c
  /\ SeenUids.after_parse_throwing Scenario.parser Scenario.clock returns_normally 0
       Scenario.subscribed' Scenario.fetch_of_empty_message
     = SeenUids.after_parse Scenario.parser Scenario.clock 0
         Scenario.subscribed' Scenario.fetch_of_empty_message.
Proof.
  intros throws mail c.
  destruct (X15_seen_uids_listener_may_throw Scenario.parser Scenario.clock throws mail c)
    as (_ & _ & _ & _ & Hstop & _).
  destruct (X15_seen_uids_listener_may_throw Scenario.parser Scenario.clock
              returns_normally mail c) as (_ & _ & _ & _ & _ & Hnone & _).
  destruct (X15_seen_uids_listener_may_throw Scenario.parser Scenario.clock
              returns_normally mail Scenario.subscribed')
    as (_ & _ & _ & _ & _ & _ & _ & Hsame & _).
  split; [|split].
  - apply (Hstop [3%nat] 7%nat [9%nat] (mkError "listener failed")).
    + reflexivity.
    + intros x Hx. apply list_elem_of_singleton in Hx as ->. reflexivity.
    + reflexivity.
  - apply Hnone. intros l _. reflexivity.
  - apply Hsame. intros l mail'. reflexivity.
Defined.

(** ** The bytes that are decoded *)

Section Chunks.

(** The [data] events of the first message of a fetch, as [run] handles them,
    are [deliver] on that message. *)
Lemma seen_run_delivers (simpleParser : Buffer -> Error + ParsedMail) (now : Date)
    (parts : list (string * Buffer)) (rest : list FetchEvent)
    (c : SeenUids.Client) (ms : SeenUids.MessageState)
    (e : bool) (en : option nat) (p : Promise unit) :
  SeenUids.run simpleParser now (c, SeenUids.mkFetch [ms] e en p)
    (map (fun part => MsgBodyData 0 part.1 part.2) parts ++ rest)
  = SeenUids.run simpleParser now
      (c, SeenUids.mkFetch [SeenUids.deliver parts ms] e en p) rest.
Proof.
  revert ms. induction parts as [|[which chunk] parts IH]; intros ms; [done|].
  change (SeenUids.deliver ((which, chunk) :: parts) ms)
    with (SeenUids.deliver parts (SeenUids.on_body which chunk ms)).
  rewrite <- IH. done.
Qed.

Lemma ts_run_delivers (simpleParser : Buffer -> Error + ParsedMail) (now : Date)
    (tr : ClientTs.Trigger) (parts : list (string * Buffer)) (rest : list FetchEvent)
    (c : ClientTs.Client) (ms : ClientTs.MessageState)
    (e : bool) (en : option nat) (j : bool) (p : Promise unit) :
  ClientTs.run simpleParser now tr (c, ClientTs.mkFetch [ms] e en j p)
    (map (fun part => MsgBodyData 0 part.1 part.2) parts ++ rest)
  = ClientTs.run simpleParser now tr
      (c, ClientTs.mkFetch [ClientTs.deliver parts ms] e en j p) rest.
Proof.
  revert ms. induction parts as [|[which chunk] parts IH]; intros ms; [done|].
  change (ClientTs.deliver ((which, chunk) :: parts) ms)
    with (ClientTs.deliver parts (ClientTs.on_body chunk ms)).
  rewrite <- IH. done.
Qed.

End Chunks.

(** X16. The bytes handed to the decoder when a message ends.  In the edition
    with [seenUIDs] the chunks of the ["TEXT"] part are joined, in arrival
    order, into the body buffer and the chunks of every other part into the
    header buffer, however the parts interleave.  In [src/client.ts] all chunks
    are joined in arrival order into one buffer, whatever their part.  In both,
    chunks that arrive after the message has ended are not decoded. *)
Theorem X16_decoded_bytes
    (parts late : list (string * Buffer))
    (ms : SeenUids.MessageState) (ms' : ClientTs.MessageState) :
  SeenUids.ended ms = None -> ClientTs.ended ms' = None ->
  let text := fun part : string * Buffer => String.eqb part.1 "TEXT" in
  let rest := fun part : string * Buffer => negb (String.eqb part.1 "TEXT") in
  SeenUids.ended (SeenUids.deliver late (SeenUids.on_end (SeenUids.deliver parts ms)))
  = Some (Buffer_concat (SeenUids.header ms ++ map snd (List.filter rest parts)),
          Buffer_concat (SeenUids.body ms ++ map snd (List.filter text parts)))
  /\ ClientTs.ended (ClientTs.deliver late (ClientTs.on_end (ClientTs.deliver parts ms')))
     = Some (Buffer_concat (ClientTs.chunks ms' ++ map snd parts))
  /\ (forall simpleParser now c seqno,
        SeenUids.messagePromises
          (SeenUids.run simpleParser now (c, SeenUids.mkFetch [] false None Pending)
             (FetchMessage seqno
              :: map (fun part => MsgBodyData 0 part.1 part.2) parts
              ++ MsgEnd 0 :: map (fun part => MsgBodyData 0 part.1 part.2) late)).2
        = [SeenUids.deliver late
             (SeenUids.on_end (SeenUids.deliver parts SeenUids.newMessage))])
  /\ (forall simpleParser now tr c seqno,
        ClientTs.messagePromises
          (ClientTs.run simpleParser now tr
             (c, ClientTs.mkFetch [] false None false Pending)
             (FetchMessage seqno
              :: map (fun part => MsgBodyData 0 part.1 part.2) parts
              ++ MsgEnd 0 :: map (fun part => MsgBodyData 0 part.1 part.2) late)).2
        = [ClientTs.deliver late
             (ClientTs.on_end (ClientTs.deliver parts ClientTs.processSingleMessage))]).
Proof.
  intros He He' text rest. split; [|split; [|split]]; cycle 2.
  - intros simpleParser now c seqno.
    change (SeenUids.run simpleParser now (c, SeenUids.mkFetch [] false None Pending)
              (FetchMessage seqno
               :: map (fun part => MsgBodyData 0 part.1 part.2) parts
               ++ MsgEnd 0 :: map (fun part => MsgBodyData 0 part.1 part.2) late))
      with (SeenUids.run simpleParser now
              (c, SeenUids.mkFetch [SeenUids.newMessage] false None Pending)
              (map (fun part => MsgBodyData 0 part.1 part.2) parts
               ++ MsgEnd 0 :: map (fun part => MsgBodyData 0 part.1 part.2) late)).
    rewrite seen_run_delivers.
    change (SeenUids.run simpleParser now
              (c, SeenUids.mkFetch [SeenUids.deliver parts SeenUids.newMessage]
                    false None Pending)
              (MsgEnd 0 :: map (fun part => MsgBodyData 0 part.1 part.2) late))
      with (SeenUids.run simpleParser now
              (c, SeenUids.mkFetch
                    [SeenUids.on_end (SeenUids.deliver parts SeenUids.newMessage)]
                    false None Pending)
              (map (fun part => MsgBodyData 0 part.1 part.2) late)).
    rewrite <- (app_nil_r (map _ late)). by rewrite seen_run_delivers.
  - intros simpleParser now tr c seqno.
    change (ClientTs.run simpleParser now tr
              (c, ClientTs.mkFetch [] false None false Pending)
              (FetchMessage seqno
               :: map (fun part => MsgBodyData 0 part.1 part.2) parts
               ++ MsgEnd 0 :: map (fun part => MsgBodyData 0 part.1 part.2) late))
      with (ClientTs.run simpleParser now tr
              (c, ClientTs.mkFetch [ClientTs.processSingleMessage] false None false Pending)
              (map (fun part => MsgBodyData 0 part.1 part.2) parts
               ++ MsgEnd 0 :: map (fun part => MsgBodyData 0 part.1 part.2) late)).
    rewrite ts_run_delivers.
    change (ClientTs.run simpleParser now tr
              (c, ClientTs.mkFetch [ClientTs.deliver parts ClientTs.processSingleMessage]
                    false None false Pending)
              (MsgEnd 0 :: map (fun part => MsgBodyData 0 part.1 part.2) late))
      with (ClientTs.run simpleParser now tr
              (c, ClientTs.mkFetch
                    [ClientTs.on_end (ClientTs.deliver parts ClientTs.processSingleMessage)]
                    false None false Pending)
              (map (fun part => MsgBodyData 0 part.1 part.2) late)).
    rewrite <- (app_nil_r (map _ late)). by rewrite ts_run_delivers.
  - destruct (seen_deliver_fields late (SeenUids.on_end (SeenUids.deliver parts ms)))
      as (_ & _ & -> & _).
    destruct (seen_deliver_fields parts ms) as (Hh & Hb & Hend & _).
    unfold SeenUids.on_end. rewrite Hend, He. simpl. by rewrite Hh, Hb.
  - destruct (ts_deliver_fields late (ClientTs.on_end (ClientTs.deliver parts ms')))
      as (_ & ->).
    destruct (ts_deliver_fields parts ms') as (Hc & Hend).
    unfold ClientTs.on_end. rewrite Hend, He'. simpl. by rewrite Hc.
Qed.

Lemma X16_decoded_bytes_witness :
  SeenUids.ended
    (SeenUids.deliver [("TEXT"%string, Buffer_from "late")]
       (SeenUids.on_end
          (SeenUids.deliver
             [("TEXT"%string, Buffer_from "b1"); ("HEADER"%string, Buffer_from "h1");
              ("TEXT"%string, Buffer_from "b2")]
             SeenUids.newMessage)))
  = Some (Buffer_from "h1", Buffer_from "b1b2")
  /\ ClientTs.ended
       (ClientTs.deliver [("TEXT"%string, Buffer_from "late")]
          (ClientTs.on_end
             (ClientTs.deliver
                [("TEXT"%string, Buffer_from "b1"); ("HEADER"%string, Buffer_from "h1");
                 ("TEXT"%string, Buffer_from "b2")]
                ClientTs.processSingleMessage)))
     = Some (Buffer_from "b1h1b2").
Proof.
  destruct (X16_decoded_bytes
              [("TEXT"%string, Buffer_from "b1"); ("HEADER"%string, Buffer_from "h1");
               ("TEXT"%string, Buffer_from "b2")]
              [("TEXT"%string, Buffer_from "late")]
              SeenUids.newMessage ClientTs.processSingleMessage eq_refl eq_refl)
    as (Hseen & Hts & _).
  split; [exact Hseen|exact Hts].
Defined.

(** ** Sequences of calls on [src/client.ts] *)

Section ClientTsSessions.

Import ClientTs ClientTsInv.

Variable simpleParser : Buffer -> Error + ParsedMail.
Variable now : Date.

Lemma perform_session_inv (c : Client) (op : Operation) :
  session_inv c -> session_inv (perform simpleParser now c op).
Proof.
  intros [Hc Hsub]. unfold session_inv.
  destruct op as [h|h|sr t|numNew t|reply|]; simpl.
  - split; [done|]. by apply sublist_app.
  - split; [done|]. etrans; [apply remove_first_sublist|done].
  - unfold getUnseenMails. rewrite Hc. simpl.
    destruct sr as [e|[|u uids]|]; try done.
    destruct (ts_fetch_changes simpleParser now Unseen c (IdList (u :: uids)) t)
      as (mails & _ & _ & _ & _ & He & Hm & Hcl & _).
    simpl in *. by rewrite He, Hm, Hcl.
  - unfold on_mail, fetchNewMessages. rewrite Hc. simpl.
    destruct (ts_fetch_changes simpleParser now (NewMessages numNew) c
                (SeqRange (numMessages c + 1) (numMessages c + numNew)) t)
      as (mails & _ & _ & _ & _ & He & Hm & Hcl & _).
    simpl in *. by rewrite He, Hm, Hcl.
  - unfold switchMailbox. rewrite Hc. simpl. by destruct reply as [[err|box]|].
  - unfold close. rewrite Hc. simpl. done.
Qed.

End ClientTsSessions.

(** X17. [src/client.ts]: no sequence of [on], [removeMailListener], scans,
    [mail] events, mailbox switches and [close] ever clears the connection
    object or leaves a handler in [mailListeners] that the emitter does not
    hold as well.  So after any such sequence the guard of [getUnseenMails]
    passes (it never fails with "Client not connected"), and every handler of
    the side list is also called through the emitter. *)
Theorem X17_client_never_cleared
    (simpleParser : Buffer -> Error + ParsedMail) (now : Date)
    (c : ClientTs.Client) (ops : list ClientTs.Operation) :
  ClientTsInv.session_inv c ->
  let c' := ClientTs.session simpleParser now c ops in
  ClientTsInv.session_inv c'
  /\ (forall h, h ∈ ClientTs.mailListeners c' -> h ∈ ClientTs.emitterListeners c')
  /\ (forall t, ClientTs.getUnseenMails simpleParser now c' (SearchOk []) t
                = (c', Fulfilled tt)).
Proof.
  intros Hinv c'.
  assert (forall c0, ClientTsInv.session_inv c0 ->
            ClientTsInv.session_inv (ClientTs.session simpleParser now c0 ops)) as Hgen.
  { unfold ClientTs.session. induction ops as [|op ops IH]; intros c0 H0; [done|].
    simpl. apply IH. by apply perform_session_inv. }
  pose proof (Hgen c Hinv) as Hinv'. fold c' in Hinv'.
  split; [exact Hinv'|]. destruct Hinv' as [Hc Hsub]. split.
  - intros h Hh. by eapply elem_of_sublist.
  - intros t. unfold ClientTs.getUnseenMails. by rewrite Hc.
Qed.

Lemma X17_client_never_cleared_witness :
  let c' := ClientTs.session Scenario.parser Scenario.clock Scenario.connected
              [ClientTs.Subscribe Scenario.subscriber;
               ClientTs.Scan (SearchOk [1; 2; 3]) Scenario.three_messages;
               ClientTs.Unsubscribe Scenario.subscriber;
               ClientTs.Close;
               ClientTs.MailEvent 2 Scenario.one_good_one_bad] in
  ClientTsInv.session_inv c'
  /\ (forall h, h ∈ ClientTs.mailListeners c' -> h ∈ ClientTs.emitterListeners c')
  /\ (forall t, ClientTs.getUnseenMails Scenario.parser Scenario.clock c' (SearchOk []) t
                = (c', Fulfilled tt)).
Proof.
  apply (X17_client_never_cleared Scenario.parser Scenario.clock Scenario.connected).
  split; [reflexivity|]. simpl. constructor.
Defined.

(** ** What a fetch [error] event does not change *)

Section ErrorEvents.

Variable simpleParser : Buffer -> Error + ParsedMail.
Variable now : Date.

Lemma ts_step_agree (tr : ClientTs.Trigger) (c : ClientTs.Client)
    (f f' : ClientTs.Fetch) (ev : FetchEvent) :
  ClientTsInv.agree f f' ->
  (ClientTs.step simpleParser now tr (c, f) ev).1
  = (ClientTs.step simpleParser now tr (c, f') ev).1
  /\ ClientTsInv.agree (ClientTs.step simpleParser now tr (c, f) ev).2
       (ClientTs.step simpleParser now tr (c, f') ev).2.
Proof.
  intros (Hm & He & Hj).
  destruct f as [l ef en j p], f' as [l' ef' en' j' p']. simpl in *. subst.
  assert (forall c0 q q' g g',
            (ClientTs.join tr c0 (ClientTs.mkFetch l' g en' j' q)).1
            = (ClientTs.join tr c0 (ClientTs.mkFetch l' g' en' j' q')).1
            /\ ClientTsInv.agree
                 (ClientTs.join tr c0 (ClientTs.mkFetch l' g en' j' q)).2
                 (ClientTs.join tr c0 (ClientTs.mkFetch l' g' en' j' q')).2) as Hjoin.
  { intros c0 q q' g g'. unfold ClientTs.join, ClientTsInv.agree. simpl.
    destruct en' as [k|]; [|done]. destruct j'; [done|].
    destruct (ClientTs.first_rejected _); [done|].
    by destruct (ClientTs.all_fulfilled _). }
  destruct ev as [seqno|m which chunk|m u|m|m|e|]; simpl; try done.
  - unfold ClientTs.after_parse. simpl.
    destruct (l' !! m) as [ms|]; [|apply Hjoin].
    destruct (ClientTs.ended ms); [|apply Hjoin].
    destruct (ClientTs.result ms); try apply Hjoin.
    unfold ClientTs.set_messages. simpl.
    unfold ClientTs.join, ClientTsInv.agree. simpl.
    destruct en' as [k|]; [|done]. destruct j'; [done|].
    destruct (ClientTs.first_rejected _); [done|].
    by destruct (ClientTs.all_fulfilled _).
  - by destruct ef, ef'.
  - destruct en' as [k|]; [done|].
    unfold ClientTs.join, ClientTsInv.agree. simpl. destruct j'; [done|].
    destruct (ClientTs.first_rejected _); [done|].
    by destruct (ClientTs.all_fulfilled _).
Qed.

Lemma ts_run_agree (tr : ClientTs.Trigger) (t : list FetchEvent) (c : ClientTs.Client)
    (f f' : ClientTs.Fetch) :
  ClientTsInv.agree f f' ->
  (ClientTs.run simpleParser now tr (c, f) t).1
  = (ClientTs.run simpleParser now tr (c, f') t).1.
Proof.
  revert c f f'. induction t as [|ev t IH]; intros c f f' Hag; [done|].
  change (ClientTs.run simpleParser now tr (c, f) (ev :: t))
    with (ClientTs.run simpleParser now tr (ClientTs.step simpleParser now tr (c, f) ev) t).
  change (ClientTs.run simpleParser now tr (c, f') (ev :: t))
    with (ClientTs.run simpleParser now tr (ClientTs.step simpleParser now tr (c, f') ev) t).
  destruct (ts_step_agree tr c f f' ev Hag) as [Hc Hf].
  destruct (ClientTs.step simpleParser now tr (c, f) ev) as [c1 f1].
  destruct (ClientTs.step simpleParser now tr (c, f') ev) as [c2 f2].
  simpl in *. subst c2. by apply IH.
Qed.

Lemma seen_step_agree (c : SeenUids.Client) (f f' : SeenUids.Fetch) (ev : FetchEvent) :
  SeenUidsInv.agree f f' ->
  (SeenUids.step simpleParser now (c, f) ev).1
  = (SeenUids.step simpleParser now (c, f') ev).1
  /\ SeenUidsInv.agree (SeenUids.step simpleParser now (c, f) ev).2
       (SeenUids.step simpleParser now (c, f') ev).2.
Proof.
  intros (Hm & He).
  destruct f as [l ef en p], f' as [l' ef' en' p']. simpl in *. subst.
  assert (forall l0 q q' g g',
            SeenUidsInv.agree (SeenUids.join (SeenUids.mkFetch l0 g en' q))
              (SeenUids.join (SeenUids.mkFetch l0 g' en' q'))) as Hjoin.
  { intros l0 q q' g g'. unfold SeenUids.join, SeenUidsInv.agree. simpl.
    destruct en' as [k|]; [|done]. by destruct (forallb _ _). }
  destruct ev as [seqno|m which chunk|m u|m|m|e|]; simpl; try done.
  - unfold SeenUids.after_parse. simpl.
    destruct (l' !! m) as [ms|]; simpl; [|split; [done|apply Hjoin]].
    destruct (SeenUids.resolved ms); simpl; [split; [done|apply Hjoin]|].
    destruct (SeenUids.ended ms) as [[h b]|]; simpl; [|split; [done|apply Hjoin]].
    destruct (SeenUids.decode simpleParser h b) as [?|[? ?]]; simpl;
      (split; [done|apply Hjoin]).
  - by destruct ef, ef'.
  - destruct en' as [k|]; [done|]. split; [done|].
    unfold SeenUids.join, SeenUidsInv.agree. simpl. by destruct (forallb _ _).
Qed.

Lemma seen_run_agree (t : list FetchEvent) (c : SeenUids.Client)
    (f f' : SeenUids.Fetch) :
  SeenUidsInv.agree f f' ->
  (SeenUids.run simpleParser now (c, f) t).1
  = (SeenUids.run simpleParser now (c, f') t).1.
Proof.
  revert c f f'. induction t as [|ev t IH]; intros c f f' Hag; [done|].
  change (SeenUids.run simpleParser now (c, f) (ev :: t))
    with (SeenUids.run simpleParser now (SeenUids.step simpleParser now (c, f) ev) t).
  change (SeenUids.run simpleParser now (c, f') (ev :: t))
    with (SeenUids.run simpleParser now (SeenUids.step simpleParser now (c, f') ev) t).
  destruct (seen_step_agree c f f' ev Hag) as [Hc Hf].
  destruct (SeenUids.step simpleParser now (c, f) ev) as [c1 f1].
  destruct (SeenUids.step simpleParser now (c, f') ev) as [c2 f2].
  simpl in *. subst c2. by apply IH.
Qed.

End ErrorEvents.

(** X18. In both editions a fetch [error] event changes the promise of the
    operation and nothing else: wherever it occurs among the events of a
    fetch, the client ends up exactly as without it (the same mails published
    to the same subscribers, the same identifiers in [seenUIDs], the same
    baseline). *)
Theorem X18_fetch_error_changes_only_the_promise
    (simpleParser : Buffer -> Error + ParsedMail) (now : Date)
    (tr : ClientTs.Trigger) (c : ClientTs.Client) (c' : SeenUids.Client)
    (e : Error) (t1 t2 : list FetchEvent) :
  (ClientTs.run simpleParser now tr
     (c, ClientTs.mkFetch [] false None false Pending) (t1 ++ FetchError e :: t2)).1
  = (ClientTs.run simpleParser now tr
       (c, ClientTs.mkFetch [] false None false Pending) (t1 ++ t2)).1
  /\ (SeenUids.run simpleParser now
        (c', SeenUids.mkFetch [] false None Pending) (t1 ++ FetchError e :: t2)).1
     = (SeenUids.run simpleParser now
          (c', SeenUids.mkFetch [] false None Pending) (t1 ++ t2)).1.
Proof.
  split.
  - unfold ClientTs.run. rewrite !fold_left_app.
    destruct (fold_left _ t1 _) as [c1 f1].
    change (fold_left (ClientTs.step simpleParser now tr) (FetchError e :: t2) (c1, f1))
      with (ClientTs.run simpleParser now tr
              (ClientTs.step simpleParser now tr (c1, f1) (FetchError e)) t2).
    change (fold_left (ClientTs.step simpleParser now tr) t2 (c1, f1))
      with (ClientTs.run simpleParser now tr (c1, f1) t2).
    simpl. destruct (ClientTs.errorFired f1); [done|].
    by apply ts_run_agree.
  - unfold SeenUids.run. rewrite !fold_left_app.
    destruct (fold_left _ t1 _) as [c1 f1].
    change (fold_left (SeenUids.step simpleParser now) (FetchError e :: t2) (c1, f1))
      with (SeenUids.run simpleParser now
              (SeenUids.step simpleParser now (c1, f1) (FetchError e)) t2).
    change (fold_left (SeenUids.step simpleParser now) t2 (c1, f1))
      with (SeenUids.run simpleParser now (c1, f1) t2).
    simpl. destruct (SeenUids.errorFired f1); [done|].
    by apply seen_run_agree.
Qed.

(** ** The monitor of [examples/monitor.ts] *)

Section MonitorFacts.

Variable simpleParser : Buffer -> Error + ParsedMail.
Variable now : Date.

(** [connect] touches nothing of the client but the mailbox and the baseline. *)
Lemma connect_fresh (config : ClientTs.Config) (t : list ClientTs.ConnEvent)
    (s : ClientTs.Connecting) :
  let s' := fold_left (ClientTs.connect_step config) t s in
  ClientTs.emitterListeners (ClientTs.self s') = ClientTs.emitterListeners (ClientTs.self s)
  /\ ClientTs.mailListeners (ClientTs.self s') = ClientTs.mailListeners (ClientTs.self s)
  /\ ClientTs.emitted (ClientTs.self s') = ClientTs.emitted (ClientTs.self s)
  /\ ClientTs.invoked (ClientTs.self s') = ClientTs.invoked (ClientTs.self s).
Proof.
  revert s. induction t as [|ev t IH]; intros s; [done|].
  simpl. destruct (IH (ClientTs.connect_step config s ev)) as (-> & -> & -> & ->).
  destruct ev as [err| |[err|box]]; simpl.
  - by destruct (ClientTs.errorListener s).
  - by destruct (ClientTs.readyListener s).
  - by destruct (ClientTs.openBoxPending s).
  - by destruct (ClientTs.openBoxPending s).
Qed.

Lemma scan_each_twice (h : Listener) (c : ClientTs.Client) (sr : SearchResult)
    (t : list FetchEvent) :
  Monitor.each_twice h c ->
  Monitor.each_twice h (ClientTs.getUnseenMails simpleParser now c sr t).1
  /\ ClientTs.numMessages (ClientTs.getUnseenMails simpleParser now c sr t).1
     = ClientTs.numMessages c.
Proof.
  intros (Hc & He & Hm & Hi). unfold ClientTs.getUnseenMails. rewrite Hc. simpl.
  destruct sr as [e|[|u uids]|]; try done.
  destruct (ts_fetch_changes simpleParser now ClientTs.Unseen c (IdList (u :: uids)) t)
    as (mails & Hem & Hin & _ & _ & Hel & Hml & Hcl & _ & Hn).
  simpl in *. split.
  - split; [congruence|]. split; [congruence|]. split; [congruence|].
    rewrite Hin, Hem, Hi, He, Hm, flat_map_app. done.
  - destruct Hn as [->|(n & Hn & _)]; [done|discriminate].
Qed.

End MonitorFacts.

(** X19. [examples/monitor.ts] on [src/client.ts]: when [start] is fulfilled
    the timer is armed, and after any number of firings the handler has been
    called exactly twice for every mail published, the first scan included,
    while the baseline is still the total of the mailbox opened at creation;
    after [stop] the firings scan no more.  (Firings are taken as scanning one
    after the other.) *)
Theorem X19_monitor_reports_each_mail_twice
    (simpleParser : Buffer -> Error + ParsedMail) (now : Date)
    (config : ClientTs.Config) (h : Listener) (connection : list ClientTs.ConnEvent)
    (sr : SearchResult) (t : list FetchEvent)
    (polls : list (SearchResult * list FetchEvent)) (m : Monitor.EmailMonitor) :
  Monitor.start simpleParser now config h connection sr t = (m, Fulfilled tt) ->
  let m' := Monitor.ticks simpleParser now m polls in
  Monitor.checkInterval m' = true
  /\ (exists c c',
        ClientTs.create config None connection = Fulfilled c
        /\ Monitor.client m' = Some c'
        /\ ClientTs.invoked c'
           = flat_map (fun mail => [(h, mail); (h, mail)]) (ClientTs.emitted c')
        /\ ClientTs.numMessages c' = ClientTs.numMessages c)
  /\ Monitor.ticks simpleParser now (Monitor.stop m') polls = Monitor.stop m'.
Proof.
  intros Hstart m'. unfold Monitor.start in Hstart.
  destruct (ClientTs.create config None connection) as [|c|err] eqn:Hcreate;
    try discriminate.
  assert (Monitor.each_twice h (ClientTs.on h c)) as Hon.
  { unfold ClientTs.create, ClientTs.connect in Hcreate.
    destruct (connect_fresh config connection (ClientTs.connect_start None))
      as (He & Hm & Hem & Hi).
    destruct (connect_selected config connection [] (ClientTs.connect_start None))
      as (Hcl & _); [done|].
    destruct (ClientTs.outcome _) as [|[]|]; try discriminate.
    injection Hcreate as <-. unfold Monitor.each_twice. simpl in *.
    by rewrite He, Hm, Hem, Hi, Hcl. }
  destruct (scan_each_twice simpleParser now h (ClientTs.on h c) sr t Hon) as [H1 Hn1].
  destruct (ClientTs.getUnseenMails simpleParser now (ClientTs.on h c) sr t)
    as [c1 p] eqn:Hscan.
  simpl in H1, Hn1. destruct p as [|[]|]; try discriminate. injection Hstart as <-.
  assert (forall m0 c0,
            Monitor.client m0 = Some c0 -> Monitor.checkInterval m0 = true ->
            Monitor.each_twice h c0 -> ClientTs.numMessages c0 = ClientTs.numMessages c ->
            let m1 := Monitor.ticks simpleParser now m0 polls in
            Monitor.checkInterval m1 = true
            /\ exists c2, Monitor.client m1 = Some c2 /\ Monitor.each_twice h c2
                          /\ ClientTs.numMessages c2 = ClientTs.numMessages c) as Hticks.
  { unfold Monitor.ticks. induction polls as [|poll polls IH]; intros m0 c0 Hc0 Ht H0 Hn0.
    - simpl. split; [done|]. by exists c0.
    - simpl.
      destruct (scan_each_twice simpleParser now h c0 poll.1 poll.2 H0) as [H2 Hn2].
      apply (IH (Monitor.tick simpleParser now m0 poll)
               (ClientTs.getUnseenMails simpleParser now c0 poll.1 poll.2).1).
      + unfold Monitor.tick. by rewrite Hc0, Ht.
      + unfold Monitor.tick. by rewrite Hc0, Ht.
      + done.
      + congruence. }
  destruct (Hticks (Monitor.mkMonitor (Some c1) true) c1 eq_refl eq_refl H1 Hn1)
    as (Harmed & c2 & Hc2 & (_ & _ & _ & Hinv) & Hn2).
  fold m' in Harmed, Hc2.
  split; [exact Harmed|]. split; [by exists c, c2|].
  generalize (Monitor.stop m') (eq_refl : Monitor.checkInterval (Monitor.stop m') = false).
  unfold Monitor.ticks. clear. induction polls as [|poll polls IH]; intros m0 H0; [done|].
  simpl. assert (Monitor.tick simpleParser now m0 poll = m0) as ->; [|by apply IH].
  unfold Monitor.tick. rewrite H0. by destruct (Monitor.client m0).
Qed.

Lemma X19_monitor_reports_each_mail_twice_witness :
  let m := Monitor.mkMonitor (Some Scenario.first_scan.1) true in
  let m' := Monitor.ticks Scenario.parser Scenario.clock m
              [(SearchOk [1; 2; 3; 4], Scenario.four_messages)] in
  Monitor.checkInterval m' = true
  /\ (exists c c',
        ClientTs.create Scenario.config None Scenario.handshake = Fulfilled c
        /\ Monitor.client m' = Some c'
        /\ ClientTs.invoked c'
           = flat_map (fun mail => [(Scenario.subscriber, mail); (Scenario.subscriber, mail)])
               (ClientTs.emitted c')
        /\ ClientTs.numMessages c' = ClientTs.numMessages c)
  /\ Monitor.ticks Scenario.parser Scenario.clock (Monitor.stop m')
       [(SearchOk [1; 2; 3; 4], Scenario.four_messages)]
     = Monitor.stop m'.
Proof.
  apply (X19_monitor_reports_each_mail_twice Scenario.parser Scenario.clock
           Scenario.config Scenario.subscriber Scenario.handshake
           (SearchOk [1; 2; 3]) Scenario.three_messages).
  reflexivity.
Defined.
